(** * The request middleware of agri-shield-frontend (lib/middleware.ts)

    A shallow embedding of the middleware module: the rate limiter, the
    request cache, the retry and timeout wrappers, the metrics log and the
    seven gateway operations built on them, followed by the properties of
    these operations.  Two neighbours of the module are embedded with it: the
    route guard of the application (middleware.ts) and the callers of the
    gateway in the auth context (contexts/AuthContext.tsx).

    Conventions of the embedding.
    - The values are JSON data, [undefined] and instances of [Error].  A
      number is a JavaScript number that is an integer; the embedding
      computes with it in [Z], which is exact below 2^53, and writes it as
      text the way JavaScript writes the number nearest to it.  Fractions
      and NaN do not occur.  Strings are byte strings.
    - The runtime is Node.js with V8: a timer whose delay is below 1 ms or
      above 2^31 - 1 ms fires after 1 ms, and the messages of the TypeErrors
      that the runtime throws are V8's.
    - One call runs from start to end without another call interleaving at
      its await points.
    - [Date.now()] reads the field [clock] of the world.  Waiting on a timer
      or on a remote reply advances the clock by exactly the delay of the
      timer or the latency; code that does not wait takes no time.
    - The remote side (the Supabase client and the backend HTTP API) is an
      environment: an infinite sequence of replies, the n-th of which answers
      the n-th remote call of the run.  Every reply settles after its
      latency; a query that is awaited under a deadline and whose latency
      reaches the delay of the deadline's timer counts as timed out.
    - The world keeps the trace of the requests sent and of the back-off
      timers set.  Console output is not part of the model. *)

From Stdlib Require Import ZArith Lia Ascii String.
From stdpp Require Import base option list strings pretty gmap fin_maps.

Local Open Scope Z_scope.

#[local] Set Warnings "-register-all".

(** ** JavaScript values *)

Module Js.

(** The values that flow through the middleware: JSON data, [undefined] and
    instances of [Error].  An object is the list of its own enumerable
    properties in enumeration order (for keys that are not array indices
    this is the order in which they were added). *)
Inductive JsVal : Type :=
| JUndefined
| JNull
| JBool (b : bool)
| JNum (n : Z)
| JStr (s : string)
| JArr (items : list JsVal)
| JObj (props : list (string * JsVal))
| JError (message : string).

Abbreviation Props := (list (string * JsVal)).

(** ToBoolean. *)
Definition truthy (v : JsVal) : bool :=
  match v with
  | JUndefined | JNull => false
  | JBool b => b
  | JNum n => negb (n =? 0)
  | JStr s => negb (String.eqb s EmptyString)
  | JArr _ | JObj _ | JError _ => true
  end.

Definition isArray (v : JsVal) : bool :=
  match v with JArr _ => true | _ => false end.

(** [sep.join(parts)] *)
Fixpoint join (sep : string) (parts : list string) : string :=
  match parts with
  | [] => EmptyString
  | [p] => p
  | p :: rest => p +:+ sep +:+ join sep rest
  end.

(** *** Numbers as text *)

(** The JavaScript number nearest to the integer [x >= 0] (ties go to the
    even significand). *)
Definition nearestNumber (x : Z) : Z :=
  if x <? 2 ^ 53 then x
  else
    let e := Z.log2 x - 52 in
    let q := x / 2 ^ e in
    let rem := x mod 2 ^ e in
    let half := 2 ^ (e - 1) in
    (if (half <? rem) || ((rem =? half) && Z.odd q) then q + 1 else q) * 2 ^ e.

(** A number beyond the largest finite one is [Infinity]. *)
Definition infinite (x : Z) : bool := 2 ^ 1024 <=? nearestNumber x.

(** Whether the integer [v] is read as the number [x >= 2^53]: it lies
    within half the distance to the neighbours of [x], the ends included when
    the significand of [x] is even. *)
Definition roundsTo (x v : Z) : bool :=
  let e := Z.log2 x - 52 in
  let m := x / 2 ^ e in
  let gap :=
    if v <=? x then (if m =? 2 ^ 52 then 2 ^ e else 2 ^ (e + 1)) else 2 ^ (e + 1) in
  let d := 4 * Z.abs (v - x) in
  (d <? gap) || (Z.even m && (d =? gap)).

Definition decimalLength (x : Z) : Z := Z.of_nat (String.length (pretty x)).

(** The integer with [k] significant digits or more, as few as possible,
    that is read as [x]; of two the nearer one. *)
Fixpoint shortestFrom (x : Z) (k : Z) (fuel : nat) : Z :=
  match fuel with
  | O => x
  | S fuel' =>
      let u := 10 ^ (decimalLength x - k) in
      let lo := x / u * u in
      let hi := lo + u in
      match roundsTo x lo, roundsTo x hi with
      | true, true =>
          if x - lo <? hi - x then lo
          else if hi - x <? x - lo then hi
          else if Z.even (lo / u) then lo else hi
      | true, false => lo
      | false, true => hi
      | false, false => shortestFrom x (k + 1) fuel'
      end
  end.

Definition shortest (x : Z) : Z :=
  if x <? 2 ^ 53 then x else shortestFrom x 1 (Z.to_nat (decimalLength x)).

Fixpoint stripZeros (reversed : list ascii) : list ascii :=
  match reversed with
  | c :: rest => if Ascii.eqb c "0" then stripZeros rest else reversed
  | [] => []
  end.

(** [d.ddde+n] *)
Definition exponentForm (v : Z) : string :=
  let ds := list_ascii_of_string (pretty v) in
  let mantissa := List.rev (stripZeros (List.rev ds)) in
  match mantissa with
  | [] => "0"
  | [d] => String d ("e+" +:+ pretty (Z.of_nat (length ds) - 1))
  | d :: rest =>
      String d ("." +:+ string_of_list_ascii rest +:+ "e+"
                +:+ pretty (Z.of_nat (length ds) - 1))
  end.

Definition positiveToString (x : Z) : string :=
  if infinite x then "Infinity"
  else let v := shortest (nearestNumber x) in
       if v <? 10 ^ 21 then pretty v else exponentForm v.

(** [String(n)] for a number: the shortest digits that are read as the
    number, in exponent form from 10^21 on. *)
Definition numberToString (n : Z) : string :=
  if n <? 0 then "-" +:+ positiveToString (- n) else positiveToString n.

(** *** Conversion to a string *)

Definition hasKey (key : string) (props : Props) : bool :=
  existsb (fun p => String.eqb (fst p) key) props.

(** [String(v)]; [None] when the conversion throws a TypeError.  An object
    is converted by its [toString] method: an own property [toString] of an
    object of JSON data is not callable and the inherited [valueOf] returns
    the object, so the conversion throws; without such a property
    [Object.prototype.toString] answers.  An array is converted by [join],
    which converts its elements. *)
Fixpoint toString (v : JsVal) : option string :=
  match v with
  | JUndefined => Some "undefined"
  | JNull => Some "null"
  | JBool true => Some "true"
  | JBool false => Some "false"
  | JNum n => Some (numberToString n)
  | JStr s => Some s
  | JArr items =>
      option_map (join ",")
        ((fix elements (items : list JsVal) : option (list string) :=
            match items with
            | [] => Some []
            | x :: rest =>
                match (match x with
                       | JUndefined | JNull => Some EmptyString
                       | _ => toString x
                       end) with
                | Some s => option_map (cons s) (elements rest)
                | None => None
                end
            end) items)
  | JObj props => if hasKey "toString" props then None else Some "[object Object]"
  | JError m => Some (if String.eqb m EmptyString then "Error" else "Error: " +:+ m)
  end.

(** The TypeError of a conversion that fails. *)
Definition conversionError : JsVal := JError "Cannot convert object to primitive value".

(** [new Error(v)] for a value [v] that is not [undefined]; [None] when the
    conversion of [v] to the message throws. *)
Definition newError (v : JsVal) : option JsVal := option_map JError (toString v).

(** [error instanceof Error ? error : new Error(String(error))]; [None]
    when [String(error)] throws. *)
Definition asError (thrown : JsVal) : option JsVal :=
  match thrown with
  | JError _ => Some thrown
  | v => newError v
  end.

(** *** JSON.stringify *)

Definition dquote : ascii := ascii_of_nat 34.
Definition backslash : ascii := ascii_of_nat 92.

Definition hexDigit (n : nat) : ascii :=
  if (n <? 10)%nat then ascii_of_nat (48 + n) else ascii_of_nat (87 + n).

(** The escape of one code unit inside a JSON string literal. *)
Definition escapeChar (c : ascii) : string :=
  let n := nat_of_ascii c in
  if (n =? 34)%nat then String backslash (String dquote EmptyString)
  else if (n =? 92)%nat then String backslash (String backslash EmptyString)
  else if (n =? 8)%nat then String backslash (String "b"%char EmptyString)
  else if (n =? 12)%nat then String backslash (String "f"%char EmptyString)
  else if (n =? 10)%nat then String backslash (String "n"%char EmptyString)
  else if (n =? 13)%nat then String backslash (String "r"%char EmptyString)
  else if (n =? 9)%nat then String backslash (String "t"%char EmptyString)
  else if (n <? 32)%nat then
    String backslash
      (String "u"%char (String "0"%char (String "0"%char
         (String (hexDigit (n / 16)) (String (hexDigit (n mod 16)) EmptyString)))))
  else String c EmptyString.

Fixpoint escape (s : string) : string :=
  match s with
  | EmptyString => EmptyString
  | String c rest => escapeChar c +:+ escape rest
  end.

Definition quote (s : string) : string :=
  String dquote (escape s +:+ String dquote EmptyString).

(** [JSON.stringify(v)]; [None] stands for the result [undefined]. *)
Fixpoint stringify (v : JsVal) : option string :=
  match v with
  | JUndefined => None
  | JNull => Some "null"
  | JBool true => Some "true"
  | JBool false => Some "false"
  | JNum n => Some (if infinite (Z.abs n) then "null" else numberToString n)
  | JStr s => Some (quote s)
  | JArr items =>
      Some ("[" +:+ join "," (map (fun x => default "null" (stringify x)) items) +:+ "]")
  | JObj props =>
      Some ("{" +:+
            join ","
              (omap (fun p => match p with
                              | (k, x) =>
                                  match stringify x with
                                  | Some s => Some (quote k +:+ ":" +:+ s)
                                  | None => None
                                  end
                              end) props) +:+ "}")
  | JError _ => Some "{}"
  end.

End Js.
Export Js.

(** ** Worlds, environments and computations *)

(** The [status] field of a response. *)
Inductive Status : Type := StSuccess | StError | StTimeout | StRetryExhausted.

#[global] Instance Status_eq_dec : EqDecision Status.
Proof. solve_decision. Defined.

Definition statusText (s : Status) : string :=
  match s with
  | StSuccess => "success"
  | StError => "error"
  | StTimeout => "timeout"
  | StRetryExhausted => "retry_exhausted"
  end.

(** [MiddlewareOptions]: every property is optional.  For each one, [None]
    says that the property is absent and [Some None] that it is present with
    the value [undefined]. *)
Record MiddlewareOptions : Type := {
  logRequests : option (option bool);
  enableRetry : option (option bool);
  maxRetries : option (option Z);
  timeout : option (option Z);
  cache : option (option bool);
  cacheDuration : option (option Z);
}.

(** The object [{ ...DEFAULT_OPTIONS, ...options }]: every property is
    present, its value may be [undefined] ([None]). *)
Record MergedOptions : Type := {
  mergedLogRequests : option bool;
  mergedEnableRetry : option bool;
  mergedMaxRetries : option Z;
  mergedTimeout : option Z;
  mergedCache : option bool;
  mergedCacheDuration : option Z;
}.

Record MiddlewareResponse : Type := {
  data : JsVal;
  error : JsVal;
  status : Status;
  timestamp : Z;
  duration : Z;
  retries : Z;
}.

Record RequestMetrics : Type := {
  metricMethod : string;
  metricTable : string;
  metricTimestamp : Z;
  metricDuration : Z;
  metricStatus : string;
  metricError : option string;
}.

(** An entry of [requestCache]. *)
Record CacheEntry : Type := {
  cachedData : JsVal;
  cachedTimestamp : Z;
}.

(** What is sent to the remote side. *)
Inductive Clause : Type :=
| ClauseIn (column : string) (values : JsVal)
| ClauseEq (column : string) (value : JsVal).

Inductive Request : Type :=
| ReqSelect (table columns : string) (clauses : list Clause)
| ReqInsert (table : string) (payload : JsVal)
| ReqUpdate (table : string) (updates : JsVal) (clauses : list Clause)
| ReqDelete (table : string) (clauses : list Clause)
| ReqFetch (url : string) (headers : list (string * string)) (body : option string)
| ReqJson
| ReqSetSession (session : JsVal)
| ReqAuthSignOut.

(** How an awaited promise settles, and after how long. *)
Inductive Settled : Type := Fulfilled (v : JsVal) | Rejected (e : JsVal).

Record Reply : Type := { latency : Z; outcome : Settled }.

Record Env : Type := {
  API_URL : string;
  reply : nat -> Reply;
}.

(** What the outside sees of a run, in order: the requests sent and the
    back-off timers set, each with the delay it was set with. *)
Inductive Event : Type :=
| EvRequest (req : Request)
| EvWait (delay : Z).

(** The module state ([requestCache], [rateLimitMap], [requestMetrics]), the
    clock and the events so far.  [requestQueue] and [isProcessingQueue] are
    never used by the module and are left out. *)
Record World : Type := {
  clock : Z;
  requestCache : gmap string CacheEntry;
  rateLimitMap : gmap string (list Z);
  requestMetrics : list RequestMetrics;
  trace : list Event;
}.

Definition setClock (t : Z) (w : World) : World :=
  {| clock := t; requestCache := requestCache w; rateLimitMap := rateLimitMap w;
     requestMetrics := requestMetrics w; trace := trace w |}.

Definition setRequestCache (c : gmap string CacheEntry) (w : World) : World :=
  {| clock := clock w; requestCache := c; rateLimitMap := rateLimitMap w;
     requestMetrics := requestMetrics w; trace := trace w |}.

Definition setRateLimitMap (r : gmap string (list Z)) (w : World) : World :=
  {| clock := clock w; requestCache := requestCache w; rateLimitMap := r;
     requestMetrics := requestMetrics w; trace := trace w |}.

Definition setRequestMetrics (m : list RequestMetrics) (w : World) : World :=
  {| clock := clock w; requestCache := requestCache w; rateLimitMap := rateLimitMap w;
     requestMetrics := m; trace := trace w |}.

Definition setTrace (t : list Event) (w : World) : World :=
  {| clock := clock w; requestCache := requestCache w; rateLimitMap := rateLimitMap w;
     requestMetrics := requestMetrics w; trace := t |}.

Definition isRequest (e : Event) : bool :=
  match e with EvRequest _ => true | EvWait _ => false end.

(** The number of requests sent so far. *)
Definition sentCount (w : World) : nat := length (List.filter isRequest (trace w)).

(** The state of a freshly loaded module at time [t]. *)
Definition initialWorld (t : Z) : World :=
  {| clock := t; requestCache := ∅; rateLimitMap := ∅; requestMetrics := [];
     trace := [] |}.

(** A computation returns a value or throws, and changes the world. *)
Inductive Res (A : Type) : Type :=
| Ret (a : A)
| Throw (e : JsVal).
Arguments Ret {A} a.
Arguments Throw {A} e.

Definition M (A : Type) : Type := World -> Res A * World.

Definition ret {A} (a : A) : M A := fun w => (Ret a, w).

Definition throw {A} (e : JsVal) : M A := fun w => (Throw e, w).

Definition bind {A B} (m : M A) (k : A -> M B) : M B :=
  fun w =>
    match m w with
    | (Ret a, w') => k a w'
    | (Throw e, w') => (Throw e, w')
    end.

(** [try { body } catch (e) { handler e }] *)
Definition tryCatch {A} (body : M A) (handler : JsVal -> M A) : M A :=
  fun w =>
    match body w with
    | (Ret a, w') => (Ret a, w')
    | (Throw e, w') => handler e w'
    end.

Declare Scope js_scope.
Delimit Scope js_scope with js.
Notation "'let*' x ':=' m 'in' k" := (bind m (fun x => k))
  (at level 10, x name, m at level 100, k at level 200) : js_scope.
Notation "m ';;' k" := (bind m (fun _ => k))
  (at level 100, k at level 200, right associativity) : js_scope.
Local Open Scope js_scope.

(** [Date.now()] *)
Definition now : M Z := fun w => (Ret (clock w), w).

(** Time passes. *)
Definition elapse (d : Z) (w : World) : World := setClock (clock w + Z.max 0 d) w.

(** The time after which a timer set with [delay] fires. *)
Definition TIMEOUT_MAX : Z := 2147483647.

Definition timerDelay (delay : Z) : Z :=
  if (1 <=? delay) && (delay <=? TIMEOUT_MAX) then delay else 1.

(** [await new Promise((resolve) => setTimeout(resolve, delay))] *)
Definition sleep (delay : Z) : M unit :=
  fun w => (Ret tt, elapse (timerDelay delay) (setTrace (trace w ++ [EvWait delay]) w)).

(** A conversion that throws a TypeError when it fails. *)
Definition converted {A} (result : option A) : M A :=
  match result with
  | Some a => ret a
  | None => throw conversionError
  end.

Definition settle (o : Settled) : M JsVal :=
  match o with
  | Fulfilled v => ret v
  | Rejected e => throw e
  end.

(** Property access [v.key]; it throws a TypeError on [undefined] and
    [null].  The text of that TypeError depends on the engine and is fixed
    here. *)
Definition typeError : JsVal := JError "TypeError: cannot read properties of undefined or null".

Fixpoint lookupProp (key : string) (props : Props) : JsVal :=
  match props with
  | [] => JUndefined
  | (k, v) :: rest => if String.eqb k key then v else lookupProp key rest
  end.

Definition getProp (key : string) (v : JsVal) : M JsVal :=
  match v with
  | JUndefined | JNull => throw typeError
  | JObj props => ret (lookupProp key props)
  | JError m => ret (if String.eqb key "message" then JStr m else JUndefined)
  | _ => ret JUndefined
  end.

(** [a || b] *)
Definition orElse (a b : JsVal) : JsVal := if truthy a then a else b.

(** [n || d] for an optional number. *)
Definition numberOr (n : option Z) (d : Z) : Z :=
  match n with
  | Some v => if v =? 0 then d else v
  | None => d
  end.

(** ** The middleware module *)

Definition DEFAULT_OPTIONS : MergedOptions :=
  {| mergedLogRequests := Some true;
     mergedEnableRetry := Some true;
     mergedMaxRetries := Some 3;
     mergedTimeout := Some 30000;
     mergedCache := Some true;
     mergedCacheDuration := Some 300000 |}.

Definition RATE_LIMIT_REQUESTS : nat := 100.
Definition RATE_LIMIT_WINDOW : Z := 60000.

(** One property of [{ ...defaults, ...options }]. *)
Definition spread {A} (dflt : option A) (given : option (option A)) : option A :=
  match given with
  | Some v => v
  | None => dflt
  end.

Definition mergeOptions (options : MiddlewareOptions) : MergedOptions :=
  {| mergedLogRequests := spread (mergedLogRequests DEFAULT_OPTIONS) (logRequests options);
     mergedEnableRetry := spread (mergedEnableRetry DEFAULT_OPTIONS) (enableRetry options);
     mergedMaxRetries := spread (mergedMaxRetries DEFAULT_OPTIONS) (maxRetries options);
     mergedTimeout := spread (mergedTimeout DEFAULT_OPTIONS) (timeout options);
     mergedCache := spread (mergedCache DEFAULT_OPTIONS) (cache options);
     mergedCacheDuration := spread (mergedCacheDuration DEFAULT_OPTIONS) (cacheDuration options) |}.

(** The options object [{}]. *)
Definition noOptions : MiddlewareOptions :=
  {| logRequests := None; enableRetry := None; maxRetries := None;
     timeout := None; cache := None; cacheDuration := None |}.

(** [generateCacheKey(table, operation, params)]; [params] is an object or
    is left out. *)
Definition generateCacheKey (table operation : string) (params : option Props) : string :=
  table +:+ ":" +:+ operation +:+ ":" +:+
  default "undefined" (stringify (orElse (from_option JObj JUndefined params) (JObj []))).

(** The timestamps of a rate window that are still inside the window. *)
Definition validTimestamps (t : Z) (timestamps : list Z) : list Z :=
  List.filter (fun ts => t - ts <? RATE_LIMIT_WINDOW) timestamps.

Definition checkRateLimit (key : string) : M bool :=
  fun w =>
    let t := clock w in
    let timestamps := default [] (rateLimitMap w !! key) in
    let valid := validTimestamps t timestamps in
    if (RATE_LIMIT_REQUESTS <=? length valid)%nat then (Ret false, w)
    else (Ret true, setRateLimitMap (<[key := valid ++ [t]]> (rateLimitMap w)) w).

Definition logMetric (method table : string) (dur : Z) (st : string)
    (err : option string) : M unit :=
  fun w =>
    let metric :=
      {| metricMethod := method; metricTable := table; metricTimestamp := clock w;
         metricDuration := dur; metricStatus := st; metricError := err |} in
    let pushed := requestMetrics w ++ [metric] in
    let kept := if (1000 <? length pushed)%nat then tail pushed else pushed in
    (Ret tt, setRequestMetrics kept w).

(** [error.message] of a value caught by [withRetry] and handed on. *)
Definition message (e : JsVal) : option string :=
  match e with
  | JError m => Some m
  | JObj props =>
      match lookupProp "message" props with
      | JStr m => Some m
      | _ => None
      end
  | _ => None
  end.

Section Middleware.

Variable env : Env.

(** Sending [req] and awaiting the reply with no deadline. *)
Definition await (req : Request) : M JsVal :=
  fun w =>
    let r := reply env (sentCount w) in
    settle (outcome r) (elapse (latency r) (setTrace (trace w ++ [EvRequest req]) w)).

(** [withTimeout(promise, timeoutMs)]: the promise races against a timer
    that rejects with [Error("Request timeout")]. *)
Definition withTimeout (promise : Request) (timeoutMs : Z) : M JsVal :=
  fun w =>
    let r := reply env (sentCount w) in
    let w' := setTrace (trace w ++ [EvRequest promise]) w in
    if latency r <? timerDelay timeoutMs then settle (outcome r) (elapse (latency r) w')
    else (Throw (JError "Request timeout"), elapse (timerDelay timeoutMs) w').

(** The result of [withRetry]. *)
Record RetryResult : Type := {
  retryData : JsVal;
  retryError : JsVal;
  retryRetries : Z;
}.

(** The loop of [withRetry]: [remaining] iterations are left, the loop
    variable is [attempt]. *)
Fixpoint retryLoop (fn : M JsVal) (maxRetries : Z) (remaining : nat) (attempt : Z)
    (lastError : JsVal) : M RetryResult :=
  match remaining with
  | O => ret {| retryData := JNull; retryError := lastError; retryRetries := maxRetries |}
  | S remaining' =>
      tryCatch
        (let* d := fn in
         ret {| retryData := d; retryError := JNull; retryRetries := attempt |})
        (fun e =>
           let* lastError' := converted (asError e) in
           (if attempt <? maxRetries then sleep (2 ^ attempt * 1000) else ret tt);;
           retryLoop fn maxRetries remaining' (attempt + 1) lastError')
  end.

(** [withRetry(fn, maxRetries)]; an argument [undefined] takes the default.
    The loop [for (attempt = 0; attempt <= maxRetries; attempt++)] has
    [maxRetries + 1] iterations, none when [maxRetries] is negative. *)
Definition withRetry (fn : M JsVal) (maxRetries : option Z) : M RetryResult :=
  let m := default (numberOr (mergedMaxRetries DEFAULT_OPTIONS) 3) maxRetries in
  retryLoop fn m (Z.to_nat (m + 1)) 0 JNull.

(** [withCache(cacheKey, fn, duration)] *)
Definition withCache (cacheKey : string) (fn : M JsVal) (dur : option Z) : M JsVal :=
  let dur := default (numberOr (mergedCacheDuration DEFAULT_OPTIONS) 300000) dur in
  let* t := now in
  fun w =>
    let miss :=
      let* d := fn in
      fun w' =>
        (Ret d, setRequestCache
                  (<[cacheKey := {| cachedData := d; cachedTimestamp := t |}]> (requestCache w')) w') in
    match requestCache w !! cacheKey with
    | Some cached =>
        if t - cachedTimestamp cached <? dur then (Ret (cachedData cached), w)
        else miss w
    | None => miss w
    end.

(** The filter clauses added to a query by
    [Object.entries(filters).forEach(...)]. *)
Definition clauses (filters : Props) : list Clause :=
  map (fun p => match p with
                | (key, value) =>
                    if isArray value then ClauseIn key value else ClauseEq key value
                end) filters.

(** [const { data, error } = await withTimeout(query, ms);
     if (error) throw error; return data;] *)
Definition settleQuery (query : Request) (timeoutMs : Z) : M JsVal :=
  let* r := withTimeout query timeoutMs in
  let* d := getProp "data" r in
  let* e := getProp "error" r in
  if truthy e then throw e else ret d.

(** The loop that drops the cache entries of one table:
    [Array.from(requestCache.keys()).forEach(...)]. *)
Definition invalidate (table : string) (c : gmap string CacheEntry) : gmap string CacheEntry :=
  foldl (fun acc key => if String.prefix (table +:+ ":") key then delete key acc else acc)
        c (map fst (map_to_list c)).

Definition clearTable (table : string) : M unit :=
  fun w => (Ret tt, setRequestCache (invalidate table (requestCache w)) w).

Definition rateLimited (startTime : Z) : MiddlewareResponse :=
  {| data := JNull; error := JError "Rate limit exceeded"; status := StError;
     timestamp := startTime; duration := 0; retries := 0 |}.

(** The [catch] block shared by the gateway operations. *)
Definition caught (method table : string) (startTime : Z) (e : JsVal) : M MiddlewareResponse :=
  let* t := now in
  let dur := t - startTime in
  let* err := converted (asError e) in
  logMetric method table dur "timeout" (message err);;
  ret {| data := JNull; error := err; status := StTimeout;
         timestamp := startTime; duration := dur; retries := 0 |}.

(** The [if (error)] block of the four table operations. *)
Definition failed (method table : string) (startTime dur : Z) (merged : MergedOptions)
    (r : RetryResult) : M MiddlewareResponse :=
  logMetric method table dur "error" (message (retryError r));;
  ret {| data := JNull; error := retryError r;
         status := if numberOr (mergedMaxRetries merged) 3 <=? retryRetries r
                   then StRetryExhausted else StError;
         timestamp := startTime; duration := dur; retries := retryRetries r |}.

Definition middlewareSelect (table : string) (columns : option string)
    (filters : option Props) (options : MiddlewareOptions) : M MiddlewareResponse :=
  let columns := default "*" columns in
  let* startTime := now in
  let mergedOptions := mergeOptions options in
  let* admitted := checkRateLimit (table +:+ ":select") in
  if negb admitted then
    logMetric "SELECT" table 0 "rate_limited" (Some "Rate limit exceeded");;
    ret (rateLimited startTime)
  else
    let cacheKey := generateCacheKey table "select" filters in
    let executeQuery :=
      settleQuery (ReqSelect table columns (clauses (default [] filters)))
                  (numberOr (mergedTimeout mergedOptions) 30000) in
    tryCatch
      (let* r := withRetry
                   (if default false (mergedCache mergedOptions)
                    then withCache cacheKey executeQuery (mergedCacheDuration mergedOptions)
                    else executeQuery)
                   (mergedMaxRetries mergedOptions) in
       let* t := now in
       let dur := t - startTime in
       if truthy (retryError r) then failed "SELECT" table startTime dur mergedOptions r
       else
         logMetric "SELECT" table dur "success" None;;
         ret {| data := retryData r; error := JNull; status := StSuccess;
                timestamp := startTime; duration := dur; retries := retryRetries r |})
      (caught "SELECT" table startTime).

Definition middlewareInsert (table : string) (payload : JsVal)
    (options : MiddlewareOptions) : M MiddlewareResponse :=
  let* startTime := now in
  let mergedOptions := mergeOptions options in
  let* admitted := checkRateLimit (table +:+ ":insert") in
  if negb admitted then
    logMetric "INSERT" table 0 "rate_limited" (Some "Rate limit exceeded");;
    ret (rateLimited startTime)
  else
    let executeInsert :=
      settleQuery (ReqInsert table payload) (numberOr (mergedTimeout mergedOptions) 30000) in
    tryCatch
      (let* r := withRetry executeInsert (mergedMaxRetries mergedOptions) in
       let* t := now in
       let dur := t - startTime in
       if truthy (retryError r) then failed "INSERT" table startTime dur mergedOptions r
       else
         logMetric "INSERT" table dur "success" None;;
         clearTable table;;
         ret {| data := retryData r; error := JNull; status := StSuccess;
                timestamp := startTime; duration := dur; retries := retryRetries r |})
      (caught "INSERT" table startTime).

Definition middlewareUpdate (table : string) (updates : JsVal) (filters : Props)
    (options : MiddlewareOptions) : M MiddlewareResponse :=
  let* startTime := now in
  let mergedOptions := mergeOptions options in
  let* admitted := checkRateLimit (table +:+ ":update") in
  if negb admitted then
    logMetric "UPDATE" table 0 "rate_limited" (Some "Rate limit exceeded");;
    ret (rateLimited startTime)
  else
    let executeUpdate :=
      settleQuery (ReqUpdate table updates (clauses filters))
                  (numberOr (mergedTimeout mergedOptions) 30000) in
    tryCatch
      (let* r := withRetry executeUpdate (mergedMaxRetries mergedOptions) in
       let* t := now in
       let dur := t - startTime in
       if truthy (retryError r) then failed "UPDATE" table startTime dur mergedOptions r
       else
         logMetric "UPDATE" table dur "success" None;;
         clearTable table;;
         ret {| data := retryData r; error := JNull; status := StSuccess;
                timestamp := startTime; duration := dur; retries := retryRetries r |})
      (caught "UPDATE" table startTime).

Definition middlewareDelete (table : string) (filters : Props)
    (options : MiddlewareOptions) : M MiddlewareResponse :=
  let* startTime := now in
  let mergedOptions := mergeOptions options in
  let* admitted := checkRateLimit (table +:+ ":delete") in
  if negb admitted then
    logMetric "DELETE" table 0 "rate_limited" (Some "Rate limit exceeded");;
    ret (rateLimited startTime)
  else
    let executeDelete :=
      let* r := withTimeout (ReqDelete table (clauses filters))
                            (numberOr (mergedTimeout mergedOptions) 30000) in
      let* e := getProp "error" r in
      if truthy e then throw e else ret JUndefined in
    tryCatch
      (let* r := withRetry executeDelete (mergedMaxRetries mergedOptions) in
       let* t := now in
       let dur := t - startTime in
       if truthy (retryError r) then failed "DELETE" table startTime dur mergedOptions r
       else
         logMetric "DELETE" table dur "success" None;;
         clearTable table;;
         ret {| data := JUndefined; error := JNull; status := StSuccess;
                timestamp := startTime; duration := dur; retries := retryRetries r |})
      (caught "DELETE" table startTime).

(** The part shared by [executeSignIn], [executeSignUp] and
    [executeSignOut]: the call of the backend API and the check of its
    answer.  It returns the parsed body. *)
Definition callApi (path : string) (headers : list (string * string))
    (body : option string) (fallback : string) : M JsVal :=
  let* response := await (ReqFetch (API_URL env +:+ path) headers body) in
  getProp "json" response;;
  let* result := await ReqJson in
  let* ok := getProp "ok" response in
  let* refused :=
    if negb (truthy ok) then ret true
    else let* st := getProp "status" result in
         ret (match st with JStr s => String.eqb s "error" | _ => false end) in
  if refused : bool then
    let* e := getProp "error" result in
    let* err := converted (newError (orElse e (JStr fallback))) in
    throw err
  else ret result.

(** [executeSignIn] and [executeSignUp] differ in the path and in the
    fallback message only. *)
Definition executeSign (path fallback email password : string) : M JsVal :=
  let* result :=
    callApi path [("Content-Type", "application/json")]
      (stringify (JObj [("email", JStr email); ("password", JStr password)])) fallback in
  let* d := getProp "data" result in
  let* session := getProp "session" d in
  (if truthy session then
     let* r := await (ReqSetSession session) in
     let* e := getProp "error" r in
     if truthy e then throw e else ret tt
   else ret tt);;
  ret d.

(** The body of [middlewareAuthSignIn] and [middlewareAuthSignUp] after
    [executeSignIn] / [executeSignUp] is defined. *)
Definition authCall (method : string) (execute : M JsVal) (options : MiddlewareOptions)
    : M MiddlewareResponse :=
  let* startTime := now in
  let mergedOptions := mergeOptions options in
  tryCatch
    (let* r := withRetry execute (mergedMaxRetries mergedOptions) in
     let* t := now in
     let dur := t - startTime in
     if truthy (retryError r) then
       logMetric method "auth" dur "error" (message (retryError r));;
       ret {| data := JNull; error := retryError r; status := StError;
              timestamp := startTime; duration := dur; retries := retryRetries r |}
     else
       logMetric method "auth" dur "success" None;;
       ret {| data := retryData r; error := JNull; status := StSuccess;
              timestamp := startTime; duration := dur; retries := retryRetries r |})
    (caught method "auth" startTime).

Definition middlewareAuthSignIn (email password : string) (options : MiddlewareOptions)
    : M MiddlewareResponse :=
  authCall "AUTH:SIGNIN" (executeSign "/auth/signin" "Failed to sign in" email password) options.

Definition middlewareAuthSignUp (email password : string) (options : MiddlewareOptions)
    : M MiddlewareResponse :=
  authCall "AUTH:SIGNUP" (executeSign "/auth/signup" "Failed to sign up" email password) options.

Definition clearAll : M unit :=
  fun w => (Ret tt, setRequestCache ∅ w).

Definition middlewareAuthSignOut (token : option string) (options : MiddlewareOptions)
    : M MiddlewareResponse :=
  let* startTime := now in
  let mergedOptions := mergeOptions options in
  let executeSignOut :=
    let headers :=
      [("Content-Type", "application/json")] ++
      match token with
      | Some t => if String.eqb t EmptyString then []
                  else [("Authorization", "Bearer " +:+ t)]
      | None => []
      end in
    callApi "/auth/signout" headers None "Failed to sign out";;
    let* r := await ReqAuthSignOut in
    let* e := getProp "error" r in
    if truthy e then throw e else ret JUndefined in
  tryCatch
    (let* r := withRetry executeSignOut (mergedMaxRetries mergedOptions) in
     let* t := now in
     let dur := t - startTime in
     if truthy (retryError r) then
       logMetric "AUTH:SIGNOUT" "auth" dur "error" (message (retryError r));;
       ret {| data := JNull; error := retryError r; status := StError;
              timestamp := startTime; duration := dur; retries := retryRetries r |}
     else
       logMetric "AUTH:SIGNOUT" "auth" dur "success" None;;
       clearAll;;
       ret {| data := JUndefined; error := JNull; status := StSuccess;
              timestamp := startTime; duration := dur; retries := retryRetries r |})
    (caught "AUTH:SIGNOUT" "auth" startTime).

(** [clearCache()] and [getMetrics()] *)
Definition clearCache : M unit := clearAll.


(** The seven gateway operations with their arguments. *)
Inductive Operation : Type :=
| OpSelect (table : string) (columns : option string) (filters : option Props)
| OpInsert (table : string) (payload : JsVal)
| OpUpdate (table : string) (updates : JsVal) (filters : Props)
| OpDelete (table : string) (filters : Props)
| OpSignIn (email password : string)
| OpSignUp (email password : string)
| OpSignOut (token : option string).

Definition run (op : Operation) (options : MiddlewareOptions) : M MiddlewareResponse :=
  match op with
  | OpSelect table columns filters => middlewareSelect table columns filters options
  | OpInsert table payload => middlewareInsert table payload options
  | OpUpdate table updates filters => middlewareUpdate table updates filters options
  | OpDelete table filters => middlewareDelete table filters options
  | OpSignIn email password => middlewareAuthSignIn email password options
  | OpSignUp email password => middlewareAuthSignUp email password options
  | OpSignOut token => middlewareAuthSignOut token options
  end.

End Middleware.

(** * The route guard (middleware.ts) *)

(** A request as far as the guard reads it: the path of its URL and its
    cookies. *)
Record Cookie : Type := { cookieName : string; cookieValue : string }.

Record NextRequest : Type := { pathname : string; cookies : list Cookie }.

(** [NextResponse.next()] and [NextResponse.redirect(url)]; the URL of a
    redirect is on the origin of the request and is given by its path and its
    search parameters. *)
Inductive NextResponse : Type :=
| ResNext
| ResRedirect (path : string) (searchParams : list (string * string)).

Definition PUBLIC_ROUTES : list string := ["/login"; "/signup"].

Definition IGNORED_ROUTES : list string := ["/_next"; "/favicon.ico"; "/api"].

(** [s.includes(sub)] *)
Fixpoint includes (s sub : string) : bool :=
  String.prefix sub s ||
  match s with
  | EmptyString => false
  | String _ rest => includes rest sub
  end.

(** [pathname.startsWith(route)] for some ignored route. *)
Definition isIgnored (path : string) : bool :=
  existsb (fun route => String.prefix route path) IGNORED_ROUTES.

(** [PUBLIC_ROUTES.includes(pathname)] *)
Definition isPublic (path : string) : bool :=
  existsb (String.eqb path) PUBLIC_ROUTES.

Definition hasAuthCookie (request : NextRequest) : bool :=
  existsb (fun cookie =>
             includes (cookieName cookie) "auth-token" || includes (cookieName cookie) "sb-")
          (cookies request).

(** [request.cookies.get("agrishield-session")] *)
Definition hasSessionToken (request : NextRequest) : option Cookie :=
  List.find (fun cookie => String.eqb (cookieName cookie) "agrishield-session")
            (cookies request).

Definition isAuthenticated (request : NextRequest) : bool :=
  hasAuthCookie request || match hasSessionToken request with Some _ => true | None => false end.

Definition middleware (request : NextRequest) : NextResponse :=
  if isIgnored (pathname request) then ResNext
  else if isPublic (pathname request) && isAuthenticated request then ResRedirect "/" []
  else if negb (isPublic (pathname request)) && negb (isAuthenticated request) then
    ResRedirect "/login" [("redirect", pathname request)]
  else ResNext.

(** * The auth context (contexts/AuthContext.tsx) *)

(** The callers of the gateway in the auth context: [fetchUserRole],
    [signOut] and [updateUserRole].  The React state of the provider is the
    pair of [session] and [userRole]; a function that sets state returns the
    values it sets. *)
Module AuthContext.

Record State : Type := { session : JsVal; userRole : JsVal }.

(** [v?.key] *)
Definition optProp (key : string) (v : JsVal) : JsVal :=
  match v with
  | JObj props => lookupProp key props
  | JError m => if String.eqb key "message" then JStr m else JUndefined
  | _ => JUndefined
  end.

(** [v === s] for a string [s]. *)
Definition isString (s : string) (v : JsVal) : bool :=
  match v with
  | JStr s' => String.eqb s' s
  | _ => false
  end.

(** [v.length === 0] for a value [v] that is neither [undefined] nor
    [null]. *)
Definition lengthIsZero (v : JsVal) : bool :=
  match v with
  | JArr items => match items with [] => true | _ => false end
  | JStr s => String.eqb s EmptyString
  | JObj props => match lookupProp "length" props with JNum 0 => true | _ => false end
  | _ => false
  end.

(** [v[0]] for a value [v] that is neither [undefined] nor [null]. *)
Definition first (v : JsVal) : JsVal :=
  match v with
  | JArr items => match items with x :: _ => x | [] => JUndefined end
  | JStr s => match s with String c _ => JStr (String c EmptyString) | EmptyString => JUndefined end
  | JObj props => lookupProp "0" props
  | _ => JUndefined
  end.

Fixpoint chars (s : string) : list JsVal :=
  match s with
  | EmptyString => []
  | String c rest => JStr (String c EmptyString) :: chars rest
  end.

(** The properties with the keys 0, 1, ... of an array or a string. *)
Definition indexed (items : list JsVal) : Props :=
  imap (fun i x => (pretty (Z.of_nat i), x)) items.

(** The properties that [{ ...v }] copies. *)
Definition spreadProps (v : JsVal) : Props :=
  match v with
  | JObj props => props
  | JArr items => indexed items
  | JStr s => indexed (chars s)
  | _ => []
  end.

(** Writing a property of an object literal: the value of a key that is
    there is replaced, a new key is added at the end. *)
Fixpoint assign (key : string) (v : JsVal) (props : Props) : Props :=
  match props with
  | [] => [(key, v)]
  | (k, x) :: rest =>
      if String.eqb k key then (k, v) :: rest else (k, x) :: assign key v rest
  end.

(** [catch (error: any) { throw new Error(error.message || fallback); }] *)
Definition rethrow {A} (fallback : string) (error : JsVal) : M A :=
  let* m := getProp "message" error in
  let* err := converted (newError (orElse m (JStr fallback))) in
  throw err.

Section Provider.

Variable env : Env.

(** [fetchUserRole(userId)]; the result is the argument of [setUserRole]
    when [setUserRole] is called. *)
Definition fetchUserRole (userId : string) : M (option JsVal) :=
  tryCatch
    (let* response :=
       middlewareSelect env "users" (Some "*") (Some [("id", JStr userId)]) noOptions in
     if negb (bool_decide (status response = StSuccess))
        || negb (truthy (data response))
        || lengthIsZero (data response)
     then ret None
     else
       let row := first (data response) in
       let role := orElse (optProp "role" row) (JStr "viewer") in
       ret (Some (JObj (assign "can_manage_officers" (JBool (isString "admin" role))
                          (assign "can_manage_farmers"
                             (JBool (isString "admin" role || isString "agri_officer" role))
                             (spreadProps row))))))
    (fun _ => ret None).

(** [signOut()]; the result is the state that it sets. *)
Definition signOut : M State :=
  tryCatch
    (let* response := middlewareAuthSignOut env None noOptions in
     if negb (bool_decide (status response = StSuccess))
     then throw (orElse (error response) (JError "Failed to sign out"))
     else ret {| session := JNull; userRole := JNull |})
    (rethrow "Failed to sign out").

(** The update of a role that both permitted branches of [updateUserRole]
    make. *)
Definition writeRole (userId newRole : string) : M unit :=
  let* response :=
    middlewareUpdate env "users" (JObj [("role", JStr newRole)]) [("id", JStr userId)]
                     noOptions in
  if negb (bool_decide (status response = StSuccess))
  then throw (orElse (error response) (JError "Failed to update user role"))
  else ret tt.

(** [updateUserRole(userId, newRole)] in the state [userRole]. *)
Definition updateUserRole (userRole : JsVal) (userId newRole : string) : M unit :=
  tryCatch
    (if isString "admin" (optProp "role" userRole) then writeRole userId newRole
     else if isString "agri_officer" (optProp "role" userRole) && String.eqb newRole "farmer"
          then writeRole userId newRole
     else throw (JError "You do not have permission to change user roles"))
    (rethrow "Failed to update user role").

End Provider.

End AuthContext.

(** * The vocabulary of the properties *)

(** ** Frames *)

(** [keeps part m]: running [m] does not change [part] of the world. *)
Definition keeps {X A} (part : World -> X) (m : M A) : Prop :=
  forall w, part (snd (m w)) = part w.

(** Parts that do not depend on the clock or on the trace: the three stores
    of the module. *)
Definition timeless {X} (part : World -> X) : Prop :=
  (forall t w, part (setClock t w) = part w) /\
  (forall l w, part (setTrace l w) = part w).

(** Computations that do not turn the clock back. *)
Definition forward {A} (m : M A) : Prop := forall w, clock w <= clock (snd (m w)).

(** ** Sample environments, worlds and options *)

(** A query reply [{ data: d, error: null }]. *)
Definition okBody (d : JsVal) : JsVal := JObj [("data", d); ("error", JNull)].

(** A query reply [{ data: null, error }] whose error is an Error with the
    message [m]. *)
Definition errorBody (m : string) : JsVal :=
  JObj [("data", JNull); ("error", JError m)].

(** The remote side answers every call after 10 ms with [body]. *)
Definition constantEnv (body : JsVal) : Env :=
  {| API_URL := "http://localhost:5001";
     reply := fun _ => {| latency := 10; outcome := Fulfilled body |} |}.

(** The remote side refuses every call. *)
Definition failingEnv : Env := constantEnv (errorBody "boom").

(** The remote side cannot be reached: every call is rejected. *)
Definition offlineEnv : Env :=
  {| API_URL := "http://localhost:5001";
     reply := fun _ => {| latency := 10; outcome := Rejected (JError "Failed to fetch") |} |}.

(** The first [k] calls are refused, the later ones answered with [d]. *)
Definition flakyEnv (k : nat) (d : JsVal) : Env :=
  {| API_URL := "http://localhost:5001";
     reply := fun n => {| latency := 10;
                          outcome := Fulfilled (if (n <? k)%nat then errorBody "boom"
                                                else okBody d) |} |}.

(** A world at time [t] whose cache holds one read of the table [lands]. *)
Definition cachedWorld (t : Z) : World :=
  setRequestCache
    {[ generateCacheKey "lands" "select" None :=
         {| cachedData := JArr [JNum 1]; cachedTimestamp := t |} ]}
    (initialWorld t).

(** The options with [maxRetries], or with [enableRetry], set. *)
Definition withMaxRetries (m : Z) (options : MiddlewareOptions) : MiddlewareOptions :=
  {| logRequests := logRequests options; enableRetry := enableRetry options;
     maxRetries := Some (Some m); timeout := timeout options;
     cache := cache options; cacheDuration := cacheDuration options |}.

Definition withEnableRetry (flag : option (option bool)) (options : MiddlewareOptions)
    : MiddlewareOptions :=
  {| logRequests := logRequests options; enableRetry := flag;
     maxRetries := maxRetries options; timeout := timeout options;
     cache := cache options; cacheDuration := cacheDuration options |}.

(** ** Operations and responses *)

(** The table that a mutation operation works on. *)
Definition mutationTable (op : Operation) : option string :=
  match op with
  | OpInsert table _ | OpUpdate table _ _ | OpDelete table _ => Some table
  | _ => None
  end.

(** No metric with the status timeout has been logged. *)
Definition noTimeoutMetric (w : World) : Prop :=
  Forall (fun m => metricStatus m <> "timeout") (requestMetrics w).

(** ** Rate windows and series of calls *)

(** The key of the rate window that an operation is counted in; the three
    auth operations are not rate limited. *)
Definition rateKey (op : Operation) : option string :=
  match op with
  | OpSelect table _ _ => Some (table +:+ ":select")
  | OpInsert table _ => Some (table +:+ ":insert")
  | OpUpdate table _ _ => Some (table +:+ ":update")
  | OpDelete table _ => Some (table +:+ ":delete")
  | OpSignIn _ _ | OpSignUp _ _ | OpSignOut _ => None
  end.

(** The stored window of a key. *)
Definition window (key : string) (w : World) : list Z :=
  default [] (rateLimitMap w !! key).

(** The number of recorded timestamps inside the trailing window. *)
Definition windowCount (key : string) (w : World) : nat :=
  length (validTimestamps (clock w) (window key w)).

(** The worlds that the module can be in: it starts empty, and then gateway
    operations and [clearCache] are called while time passes. *)
Inductive Reachable (env : Env) : World -> Prop :=
| reachable_initial t : Reachable env (initialWorld t)
| reachable_call op options w :
    Reachable env w -> Reachable env (snd (run env op options w))
| reachable_clearCache w :
    Reachable env w -> Reachable env (snd (clearCache w))
| reachable_later t w :
    Reachable env w -> Reachable env (setClock t w).

(** No stored window is longer than the ceiling. *)
Definition windowsBounded (w : World) : Prop :=
  forall key l, rateLimitMap w !! key = Some l -> (length l <= RATE_LIMIT_REQUESTS)%nat.

(** A series of gateway calls; each call starts when the clock shows the
    given time. *)
Definition callAt (env : Env) (t : Z) (op : Operation) (options : MiddlewareOptions)
    (w : World) : Res MiddlewareResponse * World :=
  run env op options (setClock t w).

Fixpoint session (env : Env) (calls : list (Z * Operation * MiddlewareOptions))
    (w : World) : World :=
  match calls with
  | [] => w
  | (t, op, options) :: rest => session env rest (snd (callAt env t op options w))
  end.

(** The time [t] lies in the window of length [RATE_LIMIT_WINDOW] that
    starts at [t0]. *)
Definition inWindow (t0 t : Z) : Prop := t0 <= t < t0 + RATE_LIMIT_WINDOW.

(** The time at which a call of a series starts. *)
Definition startTime (call : Z * Operation * MiddlewareOptions) : Z := fst (fst call).

(** ** Cached reads *)

(** The duration that [withCache] works with: the argument, or five minutes
    when the argument is [undefined]. *)
Definition durationOf (dur : option Z) : Z := default 300000 dur.

(** What a miss does: the function runs in the world as it is and, when it
    returns, its result is stored under the key with the time at which
    [withCache] was entered. *)
Definition missOutcome (key : string) (fn : M JsVal) (w : World) : Res JsVal * World :=
  match fn w with
  | (Ret d, w1) =>
      (Ret d, setRequestCache
                (<[key := {| cachedData := d; cachedTimestamp := clock w |}]> (requestCache w1))
                w1)
  | (Throw e, w1) => (Throw e, w1)
  end.

(** The options that a read works with. *)
Definition cacheOn (options : MiddlewareOptions) : Prop :=
  default false (mergedCache (mergeOptions options)) = true.

Definition retriesOf (options : MiddlewareOptions) : Z :=
  default 3 (mergedMaxRetries (mergeOptions options)).

Definition cacheDurationOf (options : MiddlewareOptions) : Z :=
  durationOf (mergedCacheDuration (mergeOptions options)).

(** ** Attempts and back-off *)

(** The events of a run of attempts: a request for each attempt and the
    timer awaited between two attempts. *)
Fixpoint attemptsAndWaits (reqs : list Request) (delays : list Z) : list Event :=
  match reqs with
  | [] => []
  | req :: reqs' =>
      EvRequest req ::
        match delays with
        | [] => map EvRequest reqs'
        | d :: delays' => EvWait d :: attemptsAndWaits reqs' delays'
        end
  end.

(** The delays awaited after the failed attempts [a], [a + 1], ...,
    [a + k - 1]. *)
Fixpoint backoffDelays (a : Z) (k : nat) : list Z :=
  match k with
  | O => []
  | S k' => 2 ^ a * 1000 :: backoffDelays (a + 1) k'
  end.

(** The sum of a list of delays. *)
Definition total (l : list Z) : Z := foldr Z.add 0 l.

(** An attempt function is scripted when, in the worlds that satisfy [inv],
    each invocation sends one request and its outcome is decided by the
    number of requests sent before it. *)
Record scriptedOn (inv : World -> Prop) (fn : M JsVal) (script : nat -> Res JsVal)
    : Prop := {
  scripted_outcome : forall w, inv w -> fst (fn w) = script (sentCount w);
  scripted_request :
    forall w, inv w -> exists req, trace (snd (fn w)) = trace w ++ [EvRequest req];
  scripted_failure : forall w e, inv w -> fst (fn w) = Throw e -> inv (snd (fn w));
  scripted_sleep : forall w d, inv w -> inv (snd (sleep d w));
  scripted_forward : forward fn;
}.

(** The failure that the loop reports after [n] failed attempts, the first
    of which was invocation number [first]. *)
Definition lastFailure (script : nat -> Res JsVal) (e : JsVal) (first n : nat) : JsVal :=
  match n with
  | O => e
  | S n' => match script (first + n')%nat with
            | Throw e' => default e (asError e')
            | Ret _ => e
            end
  end.

(** [v.key] for a value that is neither [undefined] nor [null]. *)
Definition propOf (key : string) (v : JsVal) : JsVal :=
  match v with
  | JObj props => lookupProp key props
  | JError m => if String.eqb key "message" then JStr m else JUndefined
  | _ => JUndefined
  end.

(** The outcome of the query that is answered by the [n]-th reply of the
    environment, under the deadline [timeoutMs]. *)
Definition queryOutcome (env : Env) (timeoutMs : Z) (n : nat) : Res JsVal :=
  let r := reply env n in
  if latency r <? timerDelay timeoutMs then
    match outcome r with
    | Rejected e => Throw e
    | Fulfilled JUndefined | Fulfilled JNull => Throw typeError
    | Fulfilled v =>
        if truthy (propOf "error" v) then Throw (propOf "error" v)
        else Ret (propOf "data" v)
    end
  else Throw (JError "Request timeout").

(** ** Reading JSON strings back *)

(** The value of a lower-case hexadecimal digit. *)
Definition hexValue (c : ascii) : option nat :=
  let n := nat_of_ascii c in
  if (48 <=? n)%nat && (n <=? 57)%nat then Some (n - 48)%nat
  else if (97 <=? n)%nat && (n <=? 102)%nat then Some (n - 87)%nat
  else None.

(** Reads one escaped code unit back from the front of a string. *)
Definition unescapeHead (s : string) : option (ascii * string) :=
  match s with
  | EmptyString => None
  | String c rest =>
      if Ascii.eqb c backslash then
        match rest with
        | String c2 rest2 =>
            if Ascii.eqb c2 dquote then Some (dquote, rest2)
            else if Ascii.eqb c2 backslash then Some (backslash, rest2)
            else if Ascii.eqb c2 "b" then Some (ascii_of_nat 8, rest2)
            else if Ascii.eqb c2 "f" then Some (ascii_of_nat 12, rest2)
            else if Ascii.eqb c2 "n" then Some (ascii_of_nat 10, rest2)
            else if Ascii.eqb c2 "r" then Some (ascii_of_nat 13, rest2)
            else if Ascii.eqb c2 "t" then Some (ascii_of_nat 9, rest2)
            else
              match rest2 with
              | String _ (String _ (String h1 (String h2 rest3))) =>
                  match hexValue h1, hexValue h2 with
                  | Some a, Some b => Some (ascii_of_nat (16 * a + b), rest3)
                  | _, _ => None
                  end
              | _ => None
              end
        | EmptyString => None
        end
      else Some (c, rest)
  end.

(** The entries of a filter that [JSON.stringify] writes out: those whose
    value is not [undefined]. *)
Definition written (filters : Props) : Props :=
  List.filter (fun p => match snd p with JUndefined => false | _ => true end) filters.

(** ** The anatomy of a gateway call *)

(** The method and the table under which an operation logs its metric. *)
Definition methodName (op : Operation) : string :=
  match op with
  | OpSelect _ _ _ => "SELECT"
  | OpInsert _ _ => "INSERT"
  | OpUpdate _ _ _ => "UPDATE"
  | OpDelete _ _ => "DELETE"
  | OpSignIn _ _ => "AUTH:SIGNIN"
  | OpSignUp _ _ => "AUTH:SIGNUP"
  | OpSignOut _ => "AUTH:SIGNOUT"
  end.

Definition tableName (op : Operation) : string :=
  match op with
  | OpSelect table _ _ | OpInsert table _ | OpUpdate table _ _ | OpDelete table _ => table
  | OpSignIn _ _ | OpSignUp _ _ | OpSignOut _ => "auth"
  end.

(** The deadline of one query of a table operation. *)
Definition timeoutOf (options : MiddlewareOptions) : Z :=
  numberOr (mergedTimeout (mergeOptions options)) 30000.

(** The function that an operation hands to [withRetry]. *)
Definition attemptOf (env : Env) (op : Operation) (options : MiddlewareOptions) : M JsVal :=
  match op with
  | OpSelect table columns filters =>
      let executeQuery :=
        settleQuery env (ReqSelect table (default "*" columns) (clauses (default [] filters)))
                    (timeoutOf options) in
      if default false (mergedCache (mergeOptions options))
      then withCache (generateCacheKey table "select" filters) executeQuery
             (mergedCacheDuration (mergeOptions options))
      else executeQuery
  | OpInsert table payload => settleQuery env (ReqInsert table payload) (timeoutOf options)
  | OpUpdate table updates filters =>
      settleQuery env (ReqUpdate table updates (clauses filters)) (timeoutOf options)
  | OpDelete table filters =>
      let* r := withTimeout env (ReqDelete table (clauses filters)) (timeoutOf options) in
      let* e := getProp "error" r in
      if truthy e then throw e else ret JUndefined
  | OpSignIn email password =>
      executeSign env "/auth/signin" "Failed to sign in" email password
  | OpSignUp email password =>
      executeSign env "/auth/signup" "Failed to sign up" email password
  | OpSignOut token =>
      callApi env "/auth/signout"
        ([("Content-Type", "application/json")] ++
         match token with
         | Some t => if String.eqb t EmptyString then []
                     else [("Authorization", "Bearer " +:+ t)]
         | None => []
         end) None "Failed to sign out";;
      let* r := await env ReqAuthSignOut in
      let* e := getProp "error" r in
      if truthy e then throw e else ret JUndefined
  end.

(** The status of a response that reports a failure with [r] retries. *)
Definition failureStatus (op : Operation) (options : MiddlewareOptions) (r : Z) : Status :=
  match rateKey op with
  | Some _ =>
      if numberOr (mergedMaxRetries (mergeOptions options)) 3 <=? r
      then StRetryExhausted else StError
  | None => StError
  end.

(** The data of a successful response. *)
Definition successData (op : Operation) (d : JsVal) : JsVal :=
  match op with
  | OpDelete _ _ | OpSignOut _ => JUndefined
  | _ => d
  end.

(** What a successful operation does to the request cache. *)
Definition cacheAfterSuccess (op : Operation) (c : gmap string CacheEntry)
    : gmap string CacheEntry :=
  match op with
  | OpInsert table _ | OpUpdate table _ _ | OpDelete table _ => invalidate table c
  | OpSignOut _ => ∅
  | OpSelect _ _ _ | OpSignIn _ _ | OpSignUp _ _ => c
  end.

(** The world in which the attempts of an operation start: the world after
    the admission check. *)
Definition admitted (op : Operation) (w w1 : World) : Prop :=
  match rateKey op with
  | Some key => checkRateLimit key w = (Ret true, w1)
  | None => w1 = w
  end.

(** A call that was refused admission. *)
Definition deniedCall (op : Operation) (w : World) (r : MiddlewareResponse) (w' : World)
    : Prop :=
  exists key,
    rateKey op = Some key /\
    checkRateLimit key w = (Ret false, w) /\
    r = rateLimited (clock w) /\
    w' = snd (logMetric (methodName op) (tableName op) 0 "rate_limited"
                (Some "Rate limit exceeded") w).

(** A call that was admitted: [withRetry] ran from [w1] to [w2] with the
    result [rr]. *)
Definition admittedCall (env : Env) (op : Operation) (options : MiddlewareOptions)
    (w : World) (r : MiddlewareResponse) (w' : World) (w1 : World) (rr : RetryResult)
    (w2 : World) : Prop :=
  admitted op w w1 /\
  withRetry (attemptOf env op options) (mergedMaxRetries (mergeOptions options)) w1
    = (Ret rr, w2) /\
  timestamp r = clock w /\
  duration r = clock w2 - clock w /\
  retries r = retryRetries rr /\
  (if truthy (retryError rr)
   then data r = JNull /\ error r = retryError rr /\
        status r = failureStatus op options (retryRetries rr) /\
        w' = snd (logMetric (methodName op) (tableName op) (clock w2 - clock w) "error"
                    (message (retryError rr)) w2)
   else data r = successData op (retryData rr) /\ error r = JNull /\
        status r = StSuccess /\
        w' = setRequestCache
               (cacheAfterSuccess op (requestCache w2))
               (snd (logMetric (methodName op) (tableName op) (clock w2 - clock w) "success"
                       None w2))).

(** A call that was admitted and whose [withRetry] threw, from [w1] to [w2]:
    the conversion of a failure to an Error threw, and the [catch] block of
    the operation answers. *)
Definition thrownCall (env : Env) (op : Operation) (options : MiddlewareOptions)
    (w : World) (r : MiddlewareResponse) (w' : World) (w1 w2 : World) : Prop :=
  admitted op w w1 /\
  (withRetry (attemptOf env op options) (mergedMaxRetries (mergeOptions options)) w1
    = (Throw conversionError, w2)) /\
  (r = {| data := JNull; error := conversionError; status := StTimeout;
          timestamp := clock w; duration := clock w2 - clock w; retries := 0 |}) /\
  w' = snd (logMetric (methodName op) (tableName op) (clock w2 - clock w) "timeout"
              (message conversionError) w2).

(** The metrics log after a record was pushed: when it has grown beyond 1000
    records the oldest one is dropped. *)
Definition dropOldest (pushed : list RequestMetrics) : list RequestMetrics :=
  if (1000 <? length pushed)%nat then tail pushed else pushed.

(** No more than 1000 metrics are kept. *)
Definition metricsBounded (w : World) : Prop := (length (requestMetrics w) <= 1000)%nat.

(** The timestamps of a list that are less than 60 seconds old at the time
    [t]: the trailing window. *)
Definition recent (t : Z) (timestamps : list Z) : list Z :=
  List.filter (fun ts => bool_decide (t - ts < 60000)) timestamps.

(** The number of timestamps recorded for a key within the trailing
    window. *)
Definition recentCount (key : string) (w : World) : nat :=
  length (recent (clock w) (window key w)).

(** A call is refused when 100 timestamps or more are recorded for its key
    within the trailing window; the auth operations have no key. *)
Definition refused (op : Operation) (w : World) : bool :=
  match rateKey op with
  | Some key => (100 <=? recentCount key w)%nat
  | None => false
  end.

(** The status under which a response is logged. *)
Definition loggedStatus (denied : bool) (s : Status) : string :=
  match s with
  | StSuccess => "success"
  | StTimeout => "timeout"
  | _ => if denied then "rate_limited" else "error"
  end.

(** ** Failures and their conversion *)

(** [yields P m]: what [m] returns satisfies [P], and what it throws is
    convertible. *)
Definition yields {A} (P : A -> Prop) (m : M A) : Prop :=
  forall w, match fst (m w) with
            | Ret a => P a
            | Throw e => is_Some (asError e)
            end.

(** A thrown value that the [catch] handler of [withRetry] can take for an
    Error: an instance of Error, or a value that [String] converts. *)
Definition convertible (e : JsVal) : Prop := is_Some (asError e).

(** A reply of the remote side that gives a query or an auth call nothing
    to throw but convertible values: the value it rejects with, or the
    [error] of its body, is one that [String] converts. *)
Definition tameReply (r : Reply) : Prop :=
  match outcome r with
  | Rejected e => convertible e
  | Fulfilled v => convertible (propOf "error" v)
  end.

Definition tame (env : Env) : Prop := forall n, tameReply (reply env n).

(** What a reply of a tame environment gives: a value whose [error] is
    convertible. *)
Definition tameValue (v : JsVal) : Prop := convertible (propOf "error" v).

(** A query reply [{ data: null, error: { toString: 1 } }]: the error is an
    object that [String] cannot convert. *)
Definition opaqueErrorBody : JsVal :=
  JObj [("data", JNull); ("error", JObj [("toString", JNum 1)])].

(** An attempt function that fails whenever it is invoked, with a
    convertible value. *)
Definition alwaysFails (fn : M JsVal) : Prop :=
  forall w, exists e w', fn w = (Throw e, w') /\ convertible e.

(** ** Back-off as the claims describe it *)



(** Computations that take [bound] ms at most. *)
Definition within {A} (bound : Z) (m : M A) : Prop :=
  forall w, clock (snd (m w)) <= clock w + bound.

(** [respects R m]: running [m] takes every world to a world related to it
    by [R]. *)
Definition respects {A} (R : World -> World -> Prop) (m : M A) : Prop :=
  forall w, R w (snd (m w)).

(** The relations that every step of the module respects: [R] is a preorder
    that holds when time passes, when the trace grows, and when one of the
    three stores is written. *)
Record stepRelation (R : World -> World -> Prop) : Prop := {
  step_refl : forall w, R w w;
  step_trans : forall w1 w2 w3, R w1 w2 -> R w2 w3 -> R w1 w3;
  step_elapse : forall d w, R w (elapse d w);
  step_trace : forall evs w, R w (setTrace (trace w ++ evs) w);
  step_cache : forall c w, R w (setRequestCache c w);
  step_rate : forall m w, R w (setRateLimitMap m w);
  step_metrics : forall l w, R w (setRequestMetrics l w);
}.

(** The trace of [w'] continues the trace of [w]. *)
Definition continues (w w' : World) : Prop := exists evs, trace w' = trace w ++ evs.

(** The clock of [w'] is not behind the clock of [w]. *)
Definition notBefore (w w' : World) : Prop := clock w <= clock w'.

(** A call is not refused admission when the window of its key has room;
    the auth operations have no key. *)
Definition hasRoom (op : Operation) (w : World) : Prop :=
  forall key, rateKey op = Some key -> (windowCount key w < RATE_LIMIT_REQUESTS)%nat.

(** The number of calls of a series that the admission check lets
    through, for a series of calls that are counted under [key]. *)
Fixpoint admissions (env : Env) (key : string)
    (calls : list (Z * Operation * MiddlewareOptions)) (w : World) : nat :=
  match calls with
  | [] => O
  | (t, op, options) :: rest =>
      (match fst (checkRateLimit key (setClock t w)) with
       | Ret true => 1
       | _ => 0
       end + admissions env key rest (snd (callAt env t op options w)))%nat
  end.

(** The number of timestamps of a window that are not before [t0]. *)
Definition recordedSince (t0 : Z) (timestamps : list Z) : nat :=
  length (List.filter (fun ts => t0 <=? ts) timestamps).

(** A table name without a colon. *)
Fixpoint colonFree (s : string) : bool :=
  match s with
  | EmptyString => true
  | String c s' => negb (Ascii.eqb c ":") && colonFree s'
  end.

(** The path of the backend API that an auth operation calls. *)
Definition authPath (op : Operation) : string :=
  match op with
  | OpSignIn _ _ => "/auth/signin"
  | OpSignUp _ _ => "/auth/signup"
  | OpSignOut _ => "/auth/signout"
  | _ => EmptyString
  end.

(** Two options objects that give a call the same four settings: the number
    of retries, the deadline of a query, whether reads are cached and for how
    long. *)
Definition sameSettings (options options' : MiddlewareOptions) : Prop :=
  retriesOf options = retriesOf options' /\
  timeoutOf options = timeoutOf options' /\
  (cacheOn options <-> cacheOn options') /\
  cacheDurationOf options = cacheDurationOf options'.

(** The options object that spells out the four settings of [options] and
    nothing else. *)
Definition spelledOut (options : MiddlewareOptions) : MiddlewareOptions :=
  {| logRequests := None; enableRetry := None;
     maxRetries := Some (Some (retriesOf options));
     timeout := Some (Some (timeoutOf options));
     cache := Some (Some (default false (mergedCache (mergeOptions options))));
     cacheDuration := Some (Some (cacheDurationOf options)) |}.

(** ** The route guard *)

(** The request for [path] that a browser sends with the cookies of
    [request]. *)
Definition followTo (path : string) (request : NextRequest) : NextRequest :=
  {| pathname := path; cookies := cookies request |}.

(** The names that make the guard take a request for authenticated. *)
Definition authName (name : string) : bool :=
  includes name "auth-token" || includes name "sb-" || String.eqb name "agrishield-session".

(** * Properties *)

(** ** Computations that leave a part of the world alone *)

Section Frames.

Context {X : Type} (part : World -> X).

Lemma keeps_ret {A} (a : A) : keeps part (ret a).
Proof. intros w. reflexivity. Qed.

Lemma keeps_throw {A} (e : JsVal) : keeps part (@throw A e).
Proof. intros w. reflexivity. Qed.

Lemma keeps_bind {A B} (m : M A) (k : A -> M B) :
  keeps part m -> (forall a, keeps part (k a)) -> keeps part (bind m k).
Proof.
  intros Hm Hk w. unfold bind. specialize (Hm w).
  destruct (m w) as [[a|e] w1]; simpl in *.
  - rewrite Hk. exact Hm.
  - exact Hm.
Qed.

Lemma keeps_tryCatch {A} (body : M A) (handler : JsVal -> M A) :
  keeps part body -> (forall e, keeps part (handler e)) -> keeps part (tryCatch body handler).
Proof.
  intros Hm Hk w. unfold tryCatch. specialize (Hm w).
  destruct (body w) as [[a|e] w1]; simpl in *.
  - exact Hm.
  - rewrite Hk. exact Hm.
Qed.

Lemma keeps_if {A} (b : bool) (m1 m2 : M A) :
  keeps part m1 -> keeps part m2 -> keeps part (if b then m1 else m2).
Proof. destruct b; auto. Qed.

Lemma keeps_now : keeps part now.
Proof. intros w. reflexivity. Qed.

Lemma keeps_settle o : keeps part (settle o).
Proof. destruct o; intros w; reflexivity. Qed.

Lemma keeps_getProp key v : keeps part (getProp key v).
Proof. destruct v; intros w; reflexivity. Qed.

Lemma keeps_converted {A} (result : option A) : keeps part (converted result).
Proof. destruct result; intros w; reflexivity. Qed.

Hypothesis part_timeless : timeless part.

Lemma keeps_elapse d w : part (elapse d w) = part w.
Proof. destruct part_timeless as (Hc & _). unfold elapse. apply Hc. Qed.

Lemma keeps_sleep d : keeps part (sleep d).
Proof.
  intros w. unfold sleep. simpl. rewrite keeps_elapse.
  destruct part_timeless as (_ & Hw). apply Hw.
Qed.

Lemma keeps_await env req : keeps part (await env req).
Proof.
  intros w. unfold await. rewrite keeps_settle, keeps_elapse.
  destruct part_timeless as (_ & Hs). apply Hs.
Qed.

Lemma keeps_withTimeout env req ms : keeps part (withTimeout env req ms).
Proof.
  intros w. unfold withTimeout. destruct part_timeless as (_ & Hs).
  destruct (latency _ <? _).
  - rewrite keeps_settle, keeps_elapse. apply Hs.
  - simpl. rewrite keeps_elapse. apply Hs.
Qed.

Lemma keeps_retryLoop fn m n a e : keeps part fn -> keeps part (retryLoop fn m n a e).
Proof.
  intros Hfn. revert a e. induction n as [|n IH]; intros a e; simpl.
  - apply keeps_ret.
  - apply keeps_tryCatch.
    + apply keeps_bind; [exact Hfn | intros; apply keeps_ret].
    + intros e'. apply keeps_bind; [apply keeps_converted | intros lastError'].
      apply keeps_bind; [|intros; apply IH].
      apply keeps_if; [apply keeps_sleep | apply keeps_ret].
Qed.

Lemma keeps_withRetry fn m : keeps part fn -> keeps part (withRetry fn m).
Proof. intros Hfn. apply keeps_retryLoop, Hfn. Qed.

Lemma keeps_settleQuery env q ms : keeps part (settleQuery env q ms).
Proof.
  unfold settleQuery.
  apply keeps_bind; [apply keeps_withTimeout | intros r].
  apply keeps_bind; [apply keeps_getProp | intros d].
  apply keeps_bind; [apply keeps_getProp | intros e].
  apply keeps_if; [apply keeps_throw | apply keeps_ret].
Qed.

Lemma keeps_withCache key fn dur :
  (forall c w, part (setRequestCache c w) = part w) ->
  keeps part fn -> keeps part (withCache key fn dur).
Proof.
  intros Hc Hfn w. unfold withCache, bind at 1. simpl.
  assert (forall w0, part (snd (bind fn (fun d w' =>
            (Ret d, setRequestCache
               (<[key := {| cachedData := d; cachedTimestamp := clock w |}]>
                  (requestCache w')) w')) w0)) = part w0) as Hmiss.
  { intros w0. unfold bind. specialize (Hfn w0).
    destruct (fn w0) as [[d|e] w1]; simpl in *; [rewrite Hc|]; exact Hfn. }
  destruct (requestCache w !! key) as [c|]; [|apply Hmiss].
  destruct (_ <? _); [reflexivity | apply Hmiss].
Qed.

End Frames.

(** The goals [keeps part m] for the combinators are closed by [frame]. *)
Ltac frame :=
  repeat first
    [ apply keeps_ret | apply keeps_throw | apply keeps_now
    | apply keeps_getProp | apply keeps_settle | apply keeps_converted
    | apply keeps_sleep | apply keeps_await | apply keeps_withTimeout
    | apply keeps_settleQuery | apply keeps_withRetry
    | apply keeps_withCache; [reflexivity|]
    | apply keeps_bind | apply keeps_tryCatch | apply keeps_if
    | match goal with
      | |- timeless _ => repeat split; intros; reflexivity
      | |- keeps _ (match ?x with _ => _ end) => destruct x
      | |- forall _, _ => intro
      end ].



(** ** The invalidation loop *)

Lemma invalidate_loop_lookup (p : string) (keys : list string)
    (acc : gmap string CacheEntry) (k : string) :
  foldl (fun acc key => if String.prefix p key then delete key acc else acc) acc keys !! k
  = if String.prefix p k && bool_decide (k ∈ keys) then None else acc !! k.
Proof.
  revert acc. induction keys as [|key keys IH]; intros acc; simpl.
  - rewrite andb_false_r. reflexivity.
  - rewrite IH. destruct (String.prefix p k) eqn:Hk; simpl.
    + destruct (decide (k = key)) as [->|Hne].
      * rewrite Hk, lookup_delete_eq.
        rewrite (bool_decide_eq_true_2 (key ∈ key :: keys)) by left.
        destruct (bool_decide _); reflexivity.
      * assert (bool_decide (k ∈ key :: keys) = bool_decide (k ∈ keys)) as ->.
        { apply bool_decide_ext. rewrite elem_of_cons. tauto. }
        destruct (bool_decide (k ∈ keys)); [reflexivity|].
        destruct (String.prefix p key); [|reflexivity].
        apply lookup_delete_ne. congruence.
    + destruct (String.prefix p key) eqn:Hkey; [|reflexivity].
      apply lookup_delete_ne. intros ->. congruence.
Qed.

(** After the loop the entries of the table are gone and the others are as
    they were. *)
Lemma invalidate_lookup (table : string) (c : gmap string CacheEntry) (k : string) :
  invalidate table c !! k = if String.prefix (table +:+ ":") k then None else c !! k.
Proof.
  unfold invalidate. rewrite invalidate_loop_lookup.
  destruct (String.prefix _ k); [|reflexivity]. simpl.
  case_bool_decide as Hin; [reflexivity|].
  destruct (c !! k) as [x|] eqn:Hx; [|reflexivity].
  exfalso. apply Hin.
  apply list_elem_of_fmap. exists (k, x). split; [reflexivity|].
  apply elem_of_map_to_list. exact Hx.
Qed.

(** ** [withRetry] returns *)

(** [withRetry] returns a result unless the conversion of a failure to an
    Error throws; what it throws then is the TypeError of the conversion. *)
Lemma converted_cases {A} (result : option A) w :
  (exists a, result = Some a /\ converted result w = (Ret a, w)) \/
  (result = None /\ converted result w = (Throw conversionError, w)).
Proof. destruct result as [a|]; [left; eauto | right; auto]. Qed.

Lemma converted_some {A} (a : A) w : converted (Some a) w = (Ret a, w).
Proof. reflexivity. Qed.

Lemma converted_none {A} w : @converted A None w = (Throw conversionError, w).
Proof. reflexivity. Qed.

Lemma retryLoop_throws fn m n a e w x w' :
  retryLoop fn m n a e w = (Throw x, w') -> x = conversionError.
Proof.
  revert a e w. induction n as [|n IH]; intros a e w; simpl.
  - discriminate.
  - unfold tryCatch, bind at 1.
    destruct (fn w) as [[d|e'] w1]; simpl; [discriminate|].
    unfold bind at 1.
    destruct (converted_cases (asError e') w1) as [(err & _ & ->) | (_ & ->)].
    + unfold bind at 1. destruct (a <? m); simpl; apply IH.
    + intros [= <- _]. reflexivity.
Qed.

Lemma withRetry_throws fn m w x w' :
  withRetry fn m w = (Throw x, w') -> x = conversionError.
Proof. apply retryLoop_throws. Qed.

(** The [catch] block of a gateway operation returns when it catches the
    TypeError of a conversion. *)
Lemma caught_conversion method table startTime w :
  caught method table startTime conversionError w =
    (Ret {| data := JNull; error := conversionError; status := StTimeout;
            timestamp := startTime; duration := clock w - startTime; retries := 0 |},
     snd (logMetric method table (clock w - startTime) "timeout"
            (message conversionError) w)).
Proof. reflexivity. Qed.

(** ** The shape of a gateway call *)

Lemma checkRateLimit_shape key w :
  exists b w1, checkRateLimit key w = (Ret b, w1) /\
    clock w1 = clock w /\ requestCache w1 = requestCache w /\ trace w1 = trace w /\
    requestMetrics w1 = requestMetrics w.
Proof.
  unfold checkRateLimit.
  destruct (RATE_LIMIT_REQUESTS <=? _)%nat; eexists _, _; (split; [reflexivity|]);
    repeat split; reflexivity.
Qed.

Lemma withRetry_shape {X} (part : World -> X) fn m w :
  timeless part -> keeps part fn ->
  exists res w1,
    withRetry fn m w = (res, w1) /\ part w1 = part w /\
    match res with Ret _ => True | Throw e => e = conversionError end.
Proof.
  intros Ht Hfn.
  pose proof (keeps_withRetry part Ht fn m Hfn w) as Hk.
  destruct (withRetry fn m w) as [res w1] eqn:Hrun. simpl in Hk.
  eexists _, _. split; [reflexivity|]. split; [exact Hk|].
  destruct res as [r|x]; [exact I|]. exact (withRetry_throws _ _ _ _ _ Hrun).
Qed.

(** ** The anatomy of a gateway call *)

Lemma keeps_callApi {X} (part : World -> X) env path headers body fallback :
  timeless part -> keeps part (callApi env path headers body fallback).
Proof. intros Ht. unfold callApi. frame; exact Ht. Qed.

Lemma keeps_executeSign {X} (part : World -> X) env path fallback email password :
  timeless part -> keeps part (executeSign env path fallback email password).
Proof.
  intros Ht. unfold executeSign.
  apply keeps_bind; [apply keeps_callApi, Ht|]. frame; exact Ht.
Qed.

Lemma checkRateLimit_cases key w :
  checkRateLimit key w = (Ret false, w) \/
  exists w1, checkRateLimit key w = (Ret true, w1).
Proof.
  unfold checkRateLimit. destruct (RATE_LIMIT_REQUESTS <=? _)%nat; eauto.
Qed.

(** Opens a call at its call of [withRetry], which started in [w1]. *)
Ltac anatomy_of_attempts Hadmitted w w1 :=
  unfold tryCatch, bind at 1;
  match goal with
  | |- context [withRetry ?fn ?m w1] =>
      let rr := fresh "rr" in
      let x := fresh "x" in
      let Hrun := fresh "Hrun" in
      let res := fresh "res" in
      let w2 := fresh "w2" in
      destruct (withRetry fn m w1) as [res w2] eqn:Hrun;
      destruct res as [rr|x];
      [ unfold bind at 1; simpl;
        destruct (truthy (retryError rr)) eqn:Herr;
        (eexists _, _; split; [reflexivity|]; right; left; exists w1, rr, w2;
         split; [exact Hadmitted|]; split; [exact Hrun|];
         simpl; rewrite Herr; repeat split)
      | pose proof (withRetry_throws _ _ _ _ _ Hrun); subst x;
        rewrite caught_conversion;
        eexists _, _; split; [reflexivity|]; right; right; exists w1, w2;
        split; [exact Hadmitted|]; split; [exact Hrun|]; split; reflexivity ]
  end.

Ltac anatomy_of_table_call key w :=
  unfold bind at 1; simpl; unfold bind at 1;
  destruct (checkRateLimit_cases key w) as [Hdenied | (w1 & Hadmitted)];
  [ rewrite Hdenied; simpl; eexists _, _; split; [reflexivity|];
    left; exists key; repeat split; assumption
  | rewrite Hadmitted; simpl; anatomy_of_attempts Hadmitted w w1 ].

Ltac anatomy_of_auth_call w :=
  unfold bind at 1; simpl;
  assert (w = w) as Hadmitted by reflexivity;
  anatomy_of_attempts Hadmitted w w.

(** Every gateway call returns a response, and it is a call that was
    refused admission, or a call whose attempts ran under [withRetry] to a
    result, or a call whose [withRetry] threw. *)
Lemma run_anatomy env op options w :
  exists r w',
    run env op options w = (Ret r, w') /\
    (deniedCall op w r w' \/
     (exists w1 rr w2, admittedCall env op options w r w' w1 rr w2) \/
     (exists w1 w2, thrownCall env op options w r w' w1 w2)).
Proof.
  destruct op; simpl run.
  - unfold middlewareSelect. anatomy_of_table_call (table +:+ ":select") w.
  - unfold middlewareInsert. anatomy_of_table_call (table +:+ ":insert") w.
  - unfold middlewareUpdate. anatomy_of_table_call (table +:+ ":update") w.
  - unfold middlewareDelete. anatomy_of_table_call (table +:+ ":delete") w.
  - unfold middlewareAuthSignIn, authCall. anatomy_of_auth_call w.
  - unfold middlewareAuthSignUp, authCall. anatomy_of_auth_call w.
  - unfold middlewareAuthSignOut. anatomy_of_auth_call w.
Qed.

Lemma admitted_frame op w w1 :
  admitted op w w1 ->
  clock w1 = clock w /\ requestCache w1 = requestCache w /\ trace w1 = trace w /\
  requestMetrics w1 = requestMetrics w.
Proof.
  unfold admitted. destruct (rateKey op) as [key|].
  - intros H. destruct (checkRateLimit_shape key w) as (b & w1' & Hc & Hfacts).
    rewrite Hc in H. injection H as _ <-. exact Hfacts.
  - intros ->. auto.
Qed.

(** The attempt function of an operation leaves alone every part of the
    world that depends neither on the clock, nor on the trace, nor on the
    request cache. *)
Lemma attemptOf_keeps {X} (part : World -> X) env op options :
  timeless part ->
  (forall c w, part (setRequestCache c w) = part w) ->
  keeps part (attemptOf env op options).
Proof.
  intros Ht Hc. destruct op; simpl.
  - destruct (default false _).
    + apply keeps_withCache; [exact Hc | apply keeps_settleQuery, Ht].
    + apply keeps_settleQuery, Ht.
  - apply keeps_settleQuery, Ht.
  - apply keeps_settleQuery, Ht.
  - frame; exact Ht.
  - apply keeps_executeSign, Ht.
  - apply keeps_executeSign, Ht.
  - apply keeps_bind; [apply keeps_callApi, Ht | frame; exact Ht].
Qed.

(** The attempt functions of the auth operations leave the request cache
    alone too. *)
Lemma auth_attempt_keeps_cache env op options :
  rateKey op = None -> keeps requestCache (attemptOf env op options).
Proof.
  intros Hop. destruct op; try discriminate Hop; simpl attemptOf.
  - apply keeps_executeSign. split; reflexivity.
  - apply keeps_executeSign. split; reflexivity.
  - apply keeps_bind; [apply keeps_callApi; split; reflexivity | frame].
Qed.

(** What [asError] gives is an instance of Error. *)
Lemma asError_error e x : asError e = Some x -> exists msg, x = JError msg.
Proof.
  unfold asError, newError.
  destruct e; simpl; try (intros [= <-]; eauto);
    destruct (_ : option string) as [s|] eqn:Hs; simpl; try discriminate;
    intros [= <-]; eauto.
Qed.

(** ** Mutations and the cache *)

(** Opens a table operation: the admission check, then [withRetry] on an
    attempt function that leaves [part] alone. *)
Ltac open_table_call part key w :=
  unfold bind at 1; simpl; unfold bind at 1;
  let b := fresh "admitted" in
  let w1 := fresh "w1" in
  let res := fresh "res" in
  let r := fresh "r" in
  let x := fresh "x" in
  let w2 := fresh "w2" in
  let Hc := fresh "Hcheck" in
  let Hr := fresh "Hretry" in
  let Hx := fresh "Hthrown" in
  destruct (checkRateLimit_shape key w) as (b & w1 & -> & Hc);
  destruct b; simpl;
  [ unfold tryCatch, bind at 1;
    edestruct (withRetry_shape part) as (res & w2 & -> & Hr & Hx); [frame | frame |];
    destruct res as [r|x];
    [ unfold bind at 1; simpl;
      destruct (truthy (retryError r)) eqn:?
    | subst x; rewrite caught_conversion ]
  | ].

Section Mutations.

Variable env : Env.

Lemma insert_cache table payload options w :
  exists r w',
    middlewareInsert env table payload options w = (Ret r, w') /\
    requestCache w' =
      if decide (status r = StSuccess) then invalidate table (requestCache w)
      else requestCache w.
Proof.
  unfold middlewareInsert.
  open_table_call requestCache (table +:+ ":insert") w;
    destruct Hcheck as (_ & Hcache & _);
    eexists _, _; (split; [reflexivity|]); simpl.
  - destruct (_ <=? _); simpl; congruence.
  - congruence.
  - congruence.
  - exact Hcache.
Qed.

Lemma update_cache table updates filters options w :
  exists r w',
    middlewareUpdate env table updates filters options w = (Ret r, w') /\
    requestCache w' =
      if decide (status r = StSuccess) then invalidate table (requestCache w)
      else requestCache w.
Proof.
  unfold middlewareUpdate.
  open_table_call requestCache (table +:+ ":update") w;
    destruct Hcheck as (_ & Hcache & _);
    eexists _, _; (split; [reflexivity|]); simpl.
  - destruct (_ <=? _); simpl; congruence.
  - congruence.
  - congruence.
  - exact Hcache.
Qed.

Lemma delete_cache table filters options w :
  exists r w',
    middlewareDelete env table filters options w = (Ret r, w') /\
    requestCache w' =
      if decide (status r = StSuccess) then invalidate table (requestCache w)
      else requestCache w.
Proof.
  unfold middlewareDelete.
  open_table_call requestCache (table +:+ ":delete") w;
    destruct Hcheck as (_ & Hcache & _);
    eexists _, _; (split; [reflexivity|]); simpl.
  - destruct (_ <=? _); simpl; congruence.
  - congruence.
  - congruence.
  - exact Hcache.
Qed.

End Mutations.

(** C1, as amended.  A mutation operation (insert, update, delete) on a
    table always returns a response.  When the response has the status
    success, no entry whose key starts with the table name and a colon is
    left in the request cache and every other entry is as it was.  When it
    has any other status (the admission check refused the call, or the
    mutation failed after its retries) the request cache is exactly as it was
    before the call. *)
Theorem mutation_invalidates_on_success (env : Env) (op : Operation) (table : string)
    (options : MiddlewareOptions) (w : World) :
  mutationTable op = Some table ->
  exists r w',
    run env op options w = (Ret r, w') /\
    (status r = StSuccess ->
     forall k, requestCache w' !! k =
               if String.prefix (table +:+ ":") k then None else requestCache w !! k) /\
    (status r <> StSuccess -> requestCache w' = requestCache w).
Proof.
  intros Hop.
  assert (exists r w', run env op options w = (Ret r, w') /\
            requestCache w' = if decide (status r = StSuccess)
                              then invalidate table (requestCache w)
                              else requestCache w) as (r & w' & Hrun & Hcache).
  { destruct op; simpl in Hop; try discriminate; injection Hop as <-; simpl.
    - apply insert_cache.
    - apply update_cache.
    - apply delete_cache. }
  exists r, w'. split; [exact Hrun|]. rewrite Hcache. split.
  - intros Hs k. rewrite decide_True by exact Hs. apply invalidate_lookup.
  - intros Hs. rewrite decide_False by exact Hs. reflexivity.
Qed.

Lemma mutation_invalidates_on_success_witness :
  mutationTable (OpInsert "lands" (JObj [])) = Some "lands" /\
  exists r w',
    run (constantEnv (okBody (JArr []))) (OpInsert "lands" (JObj [])) noOptions
        (cachedWorld 0) = (Ret r, w') /\
    (status r = StSuccess ->
     forall k, requestCache w' !! k =
               if String.prefix ("lands" +:+ ":") k then None
               else requestCache (cachedWorld 0) !! k) /\
    (status r <> StSuccess -> requestCache w' = requestCache (cachedWorld 0)).
Proof.
  split; [reflexivity|].
  apply (mutation_invalidates_on_success (constantEnv (okBody (JArr [])))
           (OpInsert "lands" (JObj [])) "lands" noOptions (cachedWorld 0)).
  reflexivity.
Defined.

(** C1 as stated fails: an insert that is refused on every attempt returns
    with the cached read of its table still in the request cache. *)
Lemma mutation_failure_keeps_cache :
  ~ (forall (env : Env) (op : Operation) (table : string) (options : MiddlewareOptions)
            (w : World) (k : string),
        mutationTable op = Some table ->
        String.prefix (table +:+ ":") k = true ->
        requestCache (snd (run env op options w)) !! k = None).
Proof.
  intros H.
  specialize (H failingEnv (OpInsert "lands" (JObj [])) "lands" noOptions (cachedWorld 0)
                "lands:select:{}" eq_refl eq_refl).
  vm_compute in H. discriminate H.
Qed.

(** ** Attempts that always fail *)

Lemma retryLoop_alwaysFails fn m :
  alwaysFails fn ->
  forall n a e w,
    exists rr w',
      retryLoop fn m n a e w = (Ret rr, w') /\
      retryRetries rr = m /\ retryData rr = JNull /\
      (n <> O -> exists msg, retryError rr = JError msg).
Proof.
  intros Hfn. induction n as [|n IH]; intros a e w; simpl.
  - eexists _, _. split; [reflexivity|]. repeat split. intros H. contradiction.
  - unfold tryCatch, bind at 1.
    destruct (Hfn w) as (e' & w1 & -> & (err & Herr)).
    unfold bind at 1. rewrite Herr. simpl. unfold bind at 1.
    destruct (IH (a + 1) err (if a <? m then snd (sleep (2 ^ a * 1000) w1) else w1))
      as (rr & w' & Hrun & Hr & Hd & He).
    exists rr, w'. split; [destruct (a <? m); exact Hrun|].
    split; [exact Hr|]. split; [exact Hd|]. intros _.
    destruct n as [|n]; [|apply He; discriminate].
    simpl in Hrun. injection Hrun as <- _. simpl.
    exact (asError_error _ _ Herr).
Qed.

Lemma withRetry_alwaysFails fn options w :
  alwaysFails fn ->
  0 <= default 3 (mergedMaxRetries (mergeOptions options)) ->
  exists rr w',
    withRetry fn (mergedMaxRetries (mergeOptions options)) w = (Ret rr, w') /\
    retryRetries rr = default 3 (mergedMaxRetries (mergeOptions options)) /\
    retryData rr = JNull /\ truthy (retryError rr) = true.
Proof.
  intros Hfn Hm. unfold withRetry.
  change (numberOr (mergedMaxRetries DEFAULT_OPTIONS) 3) with 3.
  destruct (retryLoop_alwaysFails fn (default 3 (mergedMaxRetries (mergeOptions options)))
              Hfn
              (Z.to_nat (default 3 (mergedMaxRetries (mergeOptions options)) + 1)) 0 JNull w)
    as (rr & w' & Hrun & Hr & Hd & He).
  exists rr, w'. split; [exact Hrun|]. split; [exact Hr|]. split; [exact Hd|].
  destruct He as (msg & ->); [lia | reflexivity].
Qed.

(** ** Sign-out *)

Lemma signOut_shape (env : Env) (token : option string) (options : MiddlewareOptions)
    (w : World) :
  exists r w',
    middlewareAuthSignOut env token options w = (Ret r, w') /\
    (status r = StSuccess /\ error r = JNull /\ requestCache w' = ∅ \/
     status r = StError /\ truthy (error r) = true /\ requestCache w' = requestCache w \/
     status r = StTimeout /\ truthy (error r) = true /\ requestCache w' = requestCache w).
Proof.
  destruct (run_anatomy env (OpSignOut token) options w)
    as (r & w' & Hrun & [(key & Hkey & _) | [(w1 & rr & w2 & Ha) | (w1 & w2 & Ht)]]);
    [discriminate Hkey | |]; exists r, w'; (split; [exact Hrun|]).
  - destruct Ha as (Hadm & Hretry & _ & _ & _ & Hcases). unfold admitted in Hadm. simpl in Hadm. subst w1.
    pose proof (keeps_withRetry requestCache (ltac:(split; reflexivity)) _
                  (mergedMaxRetries (mergeOptions options))
                  (auth_attempt_keeps_cache env (OpSignOut token) options eq_refl) w) as Hk.
    rewrite Hretry in Hk. simpl in Hk.
    destruct (truthy (retryError rr)) eqn:He.
    + destruct Hcases as (_ & -> & -> & ->). right. left. auto.
    + destruct Hcases as (_ & -> & -> & ->). left. auto.
  - destruct Ht as (Hadm & Hretry & -> & ->). unfold admitted in Hadm. simpl in Hadm. subst w1.
    pose proof (keeps_withRetry requestCache (ltac:(split; reflexivity)) _
                  (mergedMaxRetries (mergeOptions options))
                  (auth_attempt_keeps_cache env (OpSignOut token) options eq_refl) w) as Hk.
    rewrite Hretry in Hk. simpl in Hk. right. right. auto.
Qed.

(** C2, as amended.  Sign-out always returns a response and never throws.
    With the status success the response has no error and the whole request
    cache has been cleared.  With any other status the response carries the
    failure and the request cache is exactly as it was before the call; and
    when the remote sign-out fails on every attempt, each time with an Error
    or with a value that can be converted to one, the status is error and
    the retries are used up. *)
Theorem signOut_returns_and_clears_on_success (env : Env) (token : option string)
    (options : MiddlewareOptions) (w : World) :
  exists r w',
    middlewareAuthSignOut env token options w = (Ret r, w') /\
    (status r = StSuccess -> error r = JNull /\ requestCache w' = ∅) /\
    (status r <> StSuccess ->
     truthy (error r) = true /\ requestCache w' = requestCache w) /\
    (0 <= retriesOf options ->
     alwaysFails (attemptOf env (OpSignOut token) options) ->
     status r = StError /\ retries r = retriesOf options /\
     requestCache w' = requestCache w).
Proof.
  destruct (signOut_shape env token options w) as (r & w' & Hrun & Hshape).
  exists r, w'. split; [exact Hrun|]. split; [|split].
  - intros Hs. destruct Hshape as [(_ & He & Hc) | [(Hs' & _) | (Hs' & _)]];
      [auto | congruence | congruence].
  - intros Hs. destruct Hshape as [(Hs' & _) | [(_ & He & Hc) | (_ & He & Hc)]];
      [contradiction | auto | auto].
  - intros Hm Hfails.
    destruct (run_anatomy env (OpSignOut token) options w)
      as (r0 & w0 & Hrun0 & [(key & Hkey & _) | [(w1 & rr & w2 & Ha) | (w1 & w2 & Ht)]]);
      [discriminate Hkey | |]; simpl in Hrun0; rewrite Hrun in Hrun0;
      injection Hrun0 as <- <-.
    + destruct Ha as (Hadm & Hretry & _ & _ & Hretries & Hcases).
      unfold admitted in Hadm. simpl in Hadm. subst w1.
      destruct (withRetry_alwaysFails _ options w Hfails Hm)
        as (rr' & w2' & Hretry' & Hr & _ & He).
      rewrite Hretry in Hretry'. injection Hretry' as <- <-.
      rewrite He in Hcases. destruct Hcases as (_ & _ & Hst & _).
      split; [exact Hst|]. split; [unfold retriesOf; congruence|].
      destruct Hshape as [(Hs' & _) | [(_ & _ & Hc) | (_ & _ & Hc)]];
        [rewrite Hst in Hs'; discriminate | exact Hc | exact Hc].
    + destruct Ht as (Hadm & Hretry & _). unfold admitted in Hadm. simpl in Hadm. subst w1.
      destruct (withRetry_alwaysFails _ options w Hfails Hm) as (rr' & w2' & Hretry' & _).
      rewrite Hretry in Hretry'. discriminate Hretry'.
Qed.

(** Sign-out when the backend cannot be reached. *)
Lemma signOut_returns_and_clears_on_success_witness :
  exists r w',
    middlewareAuthSignOut offlineEnv None noOptions (cachedWorld 0) = (Ret r, w') /\
    status r = StError /\ retries r = 3 /\
    requestCache w' = requestCache (cachedWorld 0).
Proof.
  destruct (signOut_returns_and_clears_on_success offlineEnv None noOptions (cachedWorld 0))
    as (r & w' & Hrun & _ & _ & Hfails).
  exists r, w'. split; [exact Hrun|]. apply Hfails.
  - vm_compute. discriminate.
  - intros w. eexists _, _. split; [reflexivity|]. eexists. reflexivity.
Defined.

(** C2 as stated fails: when the backend cannot be reached, sign-out returns
    the status error after its retries and the request cache still holds its
    entry. *)
Lemma signOut_failure_keeps_cache :
  ~ (forall (env : Env) (token : option string) (options : MiddlewareOptions) (w : World),
        requestCache (snd (middlewareAuthSignOut env token options w)) = ∅).
Proof.
  intros H.
  specialize (H offlineEnv None noOptions (cachedWorld 0)).
  apply (f_equal (fun c => c !! "lands:select:{}")) in H.
  vm_compute in H. discriminate H.
Qed.

Example signOut_offline :
  let '(res, w') := middlewareAuthSignOut offlineEnv None noOptions (cachedWorld 0) in
  res = Ret {| data := JNull; error := JError "Failed to fetch"; status := StError;
               timestamp := 0; duration := 7040; retries := 3 |} /\
  requestCache w' = requestCache (cachedWorld 0).
Proof. vm_compute. split; reflexivity. Qed.

(** ** Hits and misses of [withCache] *)

Lemma withCache_hit key fn dur w c :
  requestCache w !! key = Some c ->
  clock w - cachedTimestamp c < durationOf dur ->
  withCache key fn dur w = (Ret (cachedData c), w).
Proof.
  intros Hc Hfresh. unfold withCache, bind at 1. simpl. rewrite Hc.
  apply Z.ltb_lt in Hfresh. unfold durationOf in Hfresh. simpl. rewrite Hfresh. reflexivity.
Qed.

Lemma withCache_stale key fn dur w c :
  requestCache w !! key = Some c ->
  durationOf dur <= clock w - cachedTimestamp c ->
  withCache key fn dur w = missOutcome key fn w.
Proof.
  intros Hc Hstale. unfold withCache, bind at 1. simpl. rewrite Hc.
  apply Z.ltb_ge in Hstale. unfold durationOf in Hstale. simpl. rewrite Hstale.
  unfold bind, missOutcome. destruct (fn w) as [[d|e] w1]; reflexivity.
Qed.

Lemma withCache_absent key fn dur w :
  requestCache w !! key = None ->
  withCache key fn dur w = missOutcome key fn w.
Proof.
  intros Hc. unfold withCache, bind at 1. simpl. rewrite Hc.
  unfold bind, missOutcome. destruct (fn w) as [[d|e] w1]; reflexivity.
Qed.

(** Hit or miss. *)
Lemma withCache_cases key fn dur w :
  (exists c, requestCache w !! key = Some c /\
             clock w - cachedTimestamp c < durationOf dur /\
             withCache key fn dur w = (Ret (cachedData c), w)) \/
  withCache key fn dur w = missOutcome key fn w.
Proof.
  destruct (requestCache w !! key) as [c|] eqn:Hc.
  - destruct (Z.lt_ge_cases (clock w - cachedTimestamp c) (durationOf dur)) as [Hf|Hs].
    + left. exists c. split; [reflexivity|]. split; [exact Hf|].
      apply withCache_hit; assumption.
    + right. apply (withCache_stale key fn dur w c); assumption.
  - right. apply withCache_absent, Hc.
Qed.

(** ** The status timeout *)

Lemma logMetric_noTimeoutMetric method table dur st err w :
  st <> "timeout" -> noTimeoutMetric w ->
  noTimeoutMetric (snd (logMetric method table dur st err w)).
Proof.
  unfold noTimeoutMetric, logMetric. simpl. intros Hst Hw.
  assert (Forall (fun m => metricStatus m <> "timeout")
            (requestMetrics w ++
               [{| metricMethod := method; metricTable := table;
                   metricTimestamp := clock w; metricDuration := dur;
                   metricStatus := st; metricError := err |}])) as Hall.
  { apply Forall_app. split; [exact Hw|]. constructor; [exact Hst | constructor]. }
  destruct (1000 <? _)%nat; [|exact Hall].
  inversion Hall; simpl; [constructor | assumption].
Qed.

(** *** What the attempts throw *)

Lemma convertible_error m : convertible (JError m).
Proof. eexists. reflexivity. Qed.

Lemma yields_ret {A} (P : A -> Prop) a : P a -> yields P (ret a).
Proof. intros H w. exact H. Qed.

Lemma yields_throw {A} (P : A -> Prop) e : convertible e -> yields P (@throw A e).
Proof. intros H w. exact H. Qed.

Lemma yields_bind {A B} (P : A -> Prop) (Q : B -> Prop) (m : M A) (k : A -> M B) :
  yields P m -> (forall a, P a -> yields Q (k a)) -> yields Q (bind m k).
Proof.
  intros Hm Hk w. unfold bind. specialize (Hm w).
  destruct (m w) as [[a|e] w1]; simpl in *; [apply Hk, Hm | exact Hm].
Qed.

Lemma yields_weaken {A} (P Q : A -> Prop) (m : M A) :
  (forall a, P a -> Q a) -> yields P m -> yields Q m.
Proof.
  intros HPQ Hm w. specialize (Hm w). destruct (fst (m w)); [apply HPQ, Hm | exact Hm].
Qed.

Lemma yields_getProp key v : yields (fun x => x = propOf key v) (getProp key v).
Proof. intros w. destruct v; simpl; try reflexivity; apply convertible_error. Qed.

Lemma yields_converted {A} (result : option A) :
  yields (fun a => result = Some a) (converted result).
Proof. intros w. destruct result; simpl; [reflexivity | apply convertible_error]. Qed.

(** [throw new Error(v)] *)
Lemma yields_newError {A} (P : A -> Prop) v :
  yields P (let* err := converted (newError v) in throw err).
Proof.
  eapply yields_bind; [apply yields_converted|].
  intros err Herr. apply yields_throw.
  unfold newError in Herr. destruct (toString v); [|discriminate].
  injection Herr as <-. apply convertible_error.
Qed.

Section Tame.

Variable env : Env.
Hypothesis env_tame : tame env.

Lemma yields_await req : yields tameValue (await env req).
Proof.
  intros w. unfold await. specialize (env_tame (sentCount w)). unfold tameReply in env_tame.
  destruct (outcome _); exact env_tame.
Qed.

Lemma yields_withTimeout req ms : yields tameValue (withTimeout env req ms).
Proof.
  intros w. unfold withTimeout. specialize (env_tame (sentCount w)).
  unfold tameReply in env_tame.
  destruct (latency _ <? _); [|apply convertible_error].
  destruct (outcome _); exact env_tame.
Qed.

(** [if (error) throw error] on the reply [r]. *)
Lemma yields_check {A} (P : A -> Prop) r (k : M A) :
  tameValue r -> yields P k ->
  yields P (let* e := getProp "error" r in if truthy e then throw e else k).
Proof.
  intros Hr Hk. eapply yields_bind; [apply yields_getProp|].
  intros e ->. destruct (truthy _); [apply yields_throw, Hr | exact Hk].
Qed.

Lemma yields_settleQuery q ms : yields (fun _ => True) (settleQuery env q ms).
Proof.
  unfold settleQuery.
  eapply yields_bind; [apply yields_withTimeout | intros r Hr].
  eapply yields_bind; [apply yields_getProp | intros d _].
  apply yields_check; [exact Hr | apply yields_ret, I].
Qed.

Lemma yields_withCache key fn dur :
  yields (fun _ => True) fn -> yields (fun _ => True) (withCache key fn dur).
Proof.
  intros Hfn w. destruct (withCache_cases key fn dur w) as [(c & _ & _ & ->) | ->].
  - exact I.
  - unfold missOutcome. specialize (Hfn w). destruct (fn w) as [[d|e] w1]; exact Hfn.
Qed.

Lemma yields_callApi path headers body fallback :
  yields (fun _ => True) (callApi env path headers body fallback).
Proof.
  unfold callApi.
  eapply yields_bind; [apply yields_await | intros response _].
  eapply yields_bind; [apply yields_getProp | intros _ _].
  eapply yields_bind; [apply yields_await | intros result _].
  eapply yields_bind; [apply yields_getProp | intros ok _].
  eapply (yields_bind (fun _ => True)).
  { destruct (negb (truthy ok)); [apply yields_ret, I|].
    eapply yields_bind; [apply yields_getProp | intros st _]. apply yields_ret, I. }
  intros [|] _; [|apply yields_ret, I].
  eapply yields_bind; [apply yields_getProp | intros e _].
  apply yields_newError.
Qed.

Lemma yields_executeSign path fallback email password :
  yields (fun _ => True) (executeSign env path fallback email password).
Proof.
  unfold executeSign.
  eapply yields_bind; [apply yields_callApi | intros result _].
  eapply yields_bind; [apply yields_getProp | intros d _].
  eapply yields_bind; [apply yields_getProp | intros session _].
  eapply (yields_bind (fun _ => True)); [|intros; apply yields_ret, I].
  destruct (truthy session); [|apply yields_ret, I].
  eapply yields_bind; [apply yields_await | intros r Hr].
  apply yields_check; [exact Hr | apply yields_ret, I].
Qed.

(** With a tame environment every attempt throws convertible values
    only. *)
Lemma yields_attemptOf op options : yields (fun _ => True) (attemptOf env op options).
Proof.
  destruct op; simpl attemptOf.
  - destruct (default false _); [apply yields_withCache|]; apply yields_settleQuery.
  - apply yields_settleQuery.
  - apply yields_settleQuery.
  - eapply yields_bind; [apply yields_withTimeout | intros r Hr].
    apply yields_check; [exact Hr | apply yields_ret, I].
  - apply yields_executeSign.
  - apply yields_executeSign.
  - eapply yields_bind; [apply yields_callApi | intros _ _].
    eapply yields_bind; [apply yields_await | intros r Hr].
    apply yields_check; [exact Hr | apply yields_ret, I].
Qed.

End Tame.
(** *** [withRetry] with convertible failures *)

Lemma retryLoop_returns fn m :
  (forall w e w', fn w = (Throw e, w') -> convertible e) ->
  forall n a e w, exists rr w', retryLoop fn m n a e w = (Ret rr, w').
Proof.
  intros Hfn. induction n as [|n IH]; intros a e w; simpl.
  - eexists _, _. reflexivity.
  - unfold tryCatch, bind at 1.
    destruct (fn w) as [[d|e'] w1] eqn:Hw.
    + eexists _, _. reflexivity.
    + destruct (Hfn _ _ _ Hw) as (err & Herr).
      unfold bind at 1. rewrite Herr. simpl. unfold bind at 1.
      destruct (a <? m); simpl; apply IH.
Qed.

Lemma yields_throws {A} (P : A -> Prop) (fn : M A) :
  yields P fn -> forall w e w', fn w = (Throw e, w') -> convertible e.
Proof. intros Hfn w e w' Hw. specialize (Hfn w). rewrite Hw in Hfn. exact Hfn. Qed.

(** With a tame environment [withRetry] returns for every operation. *)
Lemma tame_not_thrown env op options w r w' w1 w2 :
  tame env -> ~ thrownCall env op options w r w' w1 w2.
Proof.
  intros Htame (_ & Hretry & _).
  destruct (retryLoop_returns (attemptOf env op options)
              (default 3 (mergedMaxRetries (mergeOptions options)))
              (yields_throws _ _ (yields_attemptOf env Htame op options))
              (Z.to_nat (default 3 (mergedMaxRetries (mergeOptions options)) + 1)) 0 JNull w1)
    as (rr & w3 & Hrun).
  unfold withRetry in Hretry.
  change (numberOr (mergedMaxRetries DEFAULT_OPTIONS) 3) with 3 in Hretry.
  rewrite Hrun in Hretry. discriminate Hretry.
Qed.

(** A remote side that cannot be reached, and one that answers every call
    with the same JSON data whose [error] is a string, are tame. *)
Lemma offlineEnv_tame : tame offlineEnv.
Proof. intros n. simpl. eexists. reflexivity. Qed.

Lemma failingEnv_tame : tame failingEnv.
Proof. intros n. simpl. eexists. reflexivity. Qed.

(** C9, as amended.  [withRetry] returns a result record for every attempt
    function whose failures are Errors or values that [String] converts; a
    timeout rejection of [withTimeout] is such a failure.  Every gateway
    operation returns a response.  Its status is timeout only when
    [withRetry] threw, which takes a failure that cannot be converted: the
    response then carries the TypeError of the conversion and [retries] 0.
    With a remote side whose failures can all be converted no response has
    the status timeout: a failure, a timed-out attempt included, is reported
    with the status error or retry_exhausted, and no metric with the status
    timeout is logged. *)
Theorem timeout_status_only_on_failed_conversion (env : Env) :
  (forall fn m w,
     (forall w0 e w1, fn w0 = (Throw e, w1) -> convertible e) ->
     exists r w', withRetry fn m w = (Ret r, w')) /\
  (forall ms req w e w',
     withTimeout env req ms w = (Throw e, w') ->
     latency (reply env (sentCount w)) >= timerDelay ms ->
     e = JError "Request timeout" /\ convertible e) /\
  (forall op options w,
     exists r w',
       run env op options w = (Ret r, w') /\
       (status r = StTimeout ->
        error r = conversionError /\ retries r = 0 /\ data r = JNull /\ ~ tame env) /\
       (tame env ->
        status r <> StTimeout /\
        (error r <> JNull -> status r = StError \/ status r = StRetryExhausted) /\
        (noTimeoutMetric w -> noTimeoutMetric w'))).
Proof.
  split; [|split].
  - intros fn m w Hfn. apply retryLoop_returns, Hfn.
  - intros ms req w e w' Hrun Hlate. unfold withTimeout in Hrun.
    assert ((latency (reply env (sentCount w)) <? timerDelay ms) = false) as Hl
      by (apply Z.ltb_ge; lia).
    rewrite Hl in Hrun. injection Hrun as <- _. split; [reflexivity | apply convertible_error].
  - intros op options w.
    destruct (run_anatomy env op options w)
      as (r & w' & Hrun & [Hd | [(w1 & rr & w2 & Ha) | (w1 & w2 & Ht)]]);
      exists r, w'; (split; [exact Hrun|]).
    + destruct Hd as (key & Hkey & Hcheck & -> & ->). split; [discriminate|].
      intros _. split; [discriminate|]. split; [auto|].
      intros Hw. apply logMetric_noTimeoutMetric; [discriminate | exact Hw].
    + destruct Ha as (Hadm & Hretry & _ & _ & _ & Hcases).
      apply admitted_frame in Hadm as (_ & _ & _ & Hmetrics).
      assert (requestMetrics w2 = requestMetrics w) as Hkeep.
      { rewrite <- Hmetrics.
        pose proof (keeps_withRetry requestMetrics (ltac:(split; reflexivity)) _
                      (mergedMaxRetries (mergeOptions options))
                      (attemptOf_keeps requestMetrics env op options
                         (ltac:(split; reflexivity)) (fun _ _ => eq_refl)) w1) as Hk.
        rewrite Hretry in Hk. exact Hk. }
      assert (status r <> StTimeout) as Hnot.
      { destruct (truthy (retryError rr)); destruct Hcases as (_ & _ & -> & _);
          [|discriminate].
        unfold failureStatus. destruct (rateKey op); [destruct (_ <=? _)|]; discriminate. }
      split; [intros Hs; contradiction|].
      intros _. split; [exact Hnot|]. split.
      * intros He. destruct (truthy (retryError rr)).
        -- destruct Hcases as (_ & _ & -> & _).
           unfold failureStatus. destruct (rateKey op); [destruct (_ <=? _)|]; auto.
        -- destruct Hcases as (_ & Herr & _). contradiction.
      * intros Hw.
        destruct (truthy (retryError rr)); destruct Hcases as (_ & _ & _ & ->); simpl;
          (apply logMetric_noTimeoutMetric; [discriminate|]);
          unfold noTimeoutMetric; rewrite Hkeep; exact Hw.
    + split.
      * intros _. pose proof Ht as (_ & _ & Hr & _). rewrite Hr. simpl.
        repeat split. intros Htame. exact (tame_not_thrown _ _ _ _ _ _ _ _ Htame Ht).
      * intros Htame. exfalso. exact (tame_not_thrown _ _ _ _ _ _ _ _ Htame Ht).
Qed.

(** C9 as stated fails: a read whose query is answered with an error object
    that [String] cannot convert returns the status timeout. *)
Lemma timeout_status_reached :
  ~ (forall (env : Env) (op : Operation) (options : MiddlewareOptions) (w : World)
            (r : MiddlewareResponse) (w' : World),
        run env op options w = (Ret r, w') -> status r <> StTimeout).
Proof.
  intros H.
  apply (H (constantEnv opaqueErrorBody) (OpSelect "lands" None None) noOptions
           (initialWorld 0)
           {| data := JNull; error := conversionError; status := StTimeout;
              timestamp := 0; duration := 10; retries := 0 |}
           (snd (run (constantEnv opaqueErrorBody) (OpSelect "lands" None None) noOptions
                   (initialWorld 0)))).
  - vm_compute. reflexivity.
  - reflexivity.
Qed.

(** The same read in full: one attempt, no retry, and a metric with the
    status timeout. *)
Example select_opaque_error :
  let '(res, w') :=
    middlewareSelect (constantEnv opaqueErrorBody) "lands" None None noOptions
      (initialWorld 0) in
  res = Ret {| data := JNull; error := conversionError; status := StTimeout;
               timestamp := 0; duration := 10; retries := 0 |} /\
  trace w' = [EvRequest (ReqSelect "lands" "*" [])] /\
  map metricStatus (requestMetrics w') = ["timeout"].
Proof. vm_compute. repeat split. Qed.

(** An attempt that runs into the deadline on every try: the response has
    the status retry_exhausted and carries the timeout failure. *)
Example select_all_timeouts :
  fst (middlewareSelect
         {| API_URL := "http://localhost:5001";
            reply := fun _ => {| latency := 30000; outcome := Fulfilled (okBody (JArr [])) |} |}
         "lands" None None noOptions (initialWorld 0))
  = Ret {| data := JNull; error := JError "Request timeout"; status := StRetryExhausted;
           timestamp := 0; duration := 127000; retries := 3 |}.
Proof. vm_compute. reflexivity. Qed.

(** ** The option enableRetry *)

(** C10.  The option enableRetry is not read: for every gateway operation,
    every other option and every world, the call gives the same response and
    the same world (cache, rate windows, metrics, clock, requests sent and
    timers awaited) whatever enableRetry is set to or whether it is given at
    all. *)
Theorem enableRetry_ignored (env : Env) (op : Operation) (options : MiddlewareOptions)
    (flag flag' : option (option bool)) (w : World) :
  run env op (withEnableRetry flag options) w = run env op (withEnableRetry flag' options) w.
Proof. destruct op; reflexivity. Qed.

(** With enableRetry set to false a failing read is still retried. *)
Example retries_with_enableRetry_false :
  trace (snd (middlewareSelect failingEnv "lands" None None
                (withEnableRetry (Some (Some false)) noOptions) (initialWorld 0)))
  = [EvRequest (ReqSelect "lands" "*" []); EvWait 1000;
     EvRequest (ReqSelect "lands" "*" []); EvWait 2000;
     EvRequest (ReqSelect "lands" "*" []); EvWait 4000;
     EvRequest (ReqSelect "lands" "*" [])].
Proof. vm_compute. reflexivity. Qed.

(** ** The rate limiter *)

Lemma validTimestamps_fresh t l ts :
  ts ∈ validTimestamps t l -> t - ts < RATE_LIMIT_WINDOW.
Proof.
  unfold validTimestamps. rewrite list_elem_of_In, filter_In.
  intros [_ H]. apply Z.ltb_lt in H. exact H.
Qed.

Lemma validTimestamps_all t l :
  Forall (fun ts => t - ts < RATE_LIMIT_WINDOW) l -> validTimestamps t l = l.
Proof.
  unfold validTimestamps. induction 1 as [|ts l Hts _ IH]; simpl; [reflexivity|].
  apply Z.ltb_lt in Hts. rewrite Hts, IH. reflexivity.
Qed.


Lemma checkRateLimit_denied key w :
  (RATE_LIMIT_REQUESTS <= windowCount key w)%nat ->
  checkRateLimit key w = (Ret false, w).
Proof.
  unfold windowCount, window, checkRateLimit. intros H.
  apply Nat.leb_le in H. rewrite H. reflexivity.
Qed.

Lemma checkRateLimit_admitted key w :
  (windowCount key w < RATE_LIMIT_REQUESTS)%nat ->
  checkRateLimit key w =
    (Ret true,
     setRateLimitMap
       (<[key := validTimestamps (clock w) (window key w) ++ [clock w]]> (rateLimitMap w)) w).
Proof.
  unfold windowCount, window, checkRateLimit. intros H.
  apply Nat.leb_gt in H. rewrite H. reflexivity.
Qed.

Section RateLimiter.

Variable env : Env.

(** A gateway call changes the rate windows through its admission check
    only. *)
Lemma run_rateLimitMap op options w :
  rateLimitMap (snd (run env op options w)) =
    match rateKey op with
    | Some key => rateLimitMap (snd (checkRateLimit key w))
    | None => rateLimitMap w
    end.
Proof.
  assert (forall w1 res w2,
            admitted op w w1 ->
            withRetry (attemptOf env op options) (mergedMaxRetries (mergeOptions options)) w1
              = (res, w2) ->
            rateLimitMap w2 =
              match rateKey op with
              | Some key => rateLimitMap (snd (checkRateLimit key w))
              | None => rateLimitMap w
              end) as Hattempts.
  { intros w1 res w2 Hadm Hretry.
    pose proof (keeps_withRetry rateLimitMap (ltac:(split; reflexivity)) _
                  (mergedMaxRetries (mergeOptions options))
                  (attemptOf_keeps rateLimitMap env op options
                     (ltac:(split; reflexivity)) (fun _ _ => eq_refl)) w1) as Hk.
    rewrite Hretry in Hk. simpl in Hk. rewrite Hk.
    unfold admitted in Hadm. destruct (rateKey op); [rewrite Hadm | subst w1]; reflexivity. }
  destruct (run_anatomy env op options w)
    as (r & w' & Hrun & [Hd | [(w1 & rr & w2 & Ha) | (w1 & w2 & Ht)]]);
    rewrite Hrun; simpl snd.
  - destruct Hd as (key & -> & Hcheck & _ & ->). rewrite Hcheck. reflexivity.
  - destruct Ha as (Hadm & Hretry & _ & _ & _ & Hcases).
    rewrite <- (Hattempts _ _ _ Hadm Hretry).
    destruct (truthy (retryError rr)); destruct Hcases as (_ & _ & _ & ->); reflexivity.
  - destruct Ht as (Hadm & Hretry & _ & ->).
    rewrite <- (Hattempts _ _ _ Hadm Hretry). reflexivity.
Qed.

(** A call that is refused admission returns at once. *)
Lemma run_denied op key options w :
  rateKey op = Some key ->
  checkRateLimit key w = (Ret false, w) ->
  exists w',
    run env op options w = (Ret (rateLimited (clock w)), w') /\
    trace w' = trace w /\ clock w' = clock w /\
    requestCache w' = requestCache w /\ rateLimitMap w' = rateLimitMap w.
Proof.
  intros Hkey Hcheck.
  destruct op; simpl in Hkey; try discriminate; injection Hkey as <-; simpl;
    [ unfold middlewareSelect | unfold middlewareInsert
    | unfold middlewareUpdate | unfold middlewareDelete ];
    unfold bind at 1; simpl; unfold bind at 1; rewrite Hcheck; simpl;
    (eexists; split; [reflexivity|]; repeat split).
Qed.

End RateLimiter.

Lemma checkRateLimit_windowsBounded key w :
  windowsBounded w -> windowsBounded (snd (checkRateLimit key w)).
Proof.
  intros Hw. unfold checkRateLimit.
  destruct (RATE_LIMIT_REQUESTS <=? _)%nat eqn:Hfull; simpl; [exact Hw|].
  apply Nat.leb_gt in Hfull.
  intros key' l. simpl. destruct (decide (key = key')) as [<-|Hne].
  - rewrite lookup_insert_eq. intros [= <-]. rewrite length_app. simpl. lia.
  - rewrite lookup_insert_ne by exact Hne. apply Hw.
Qed.

Lemma reachable_windowsBounded env w : Reachable env w -> windowsBounded w.
Proof.
  induction 1 as [t | op options w _ IH | w _ IH | t w _ IH].
  - intros key l. simpl. rewrite lookup_empty. discriminate.
  - unfold windowsBounded. rewrite run_rateLimitMap.
    destruct (rateKey op); [apply checkRateLimit_windowsBounded|]; exact IH.
  - exact IH.
  - exact IH.
Qed.

Lemma window_bounded key w :
  windowsBounded w -> (length (window key w) <= RATE_LIMIT_REQUESTS)%nat.
Proof.
  intros Hw. unfold window. destruct (rateLimitMap w !! key) as [l|] eqn:Hl; simpl.
  - exact (Hw key l Hl).
  - unfold RATE_LIMIT_REQUESTS. lia.
Qed.

(** A filter that drops nothing keeps every element. *)
Lemma filter_full {A} (f : A -> bool) (l : list A) :
  (length l <= length (List.filter f l))%nat -> Forall (fun x => f x = true) l.
Proof.
  induction l as [|x l IH]; simpl; intros Hlen; [constructor|].
  pose proof (List.filter_length_le f l) as Hle.
  destruct (f x) eqn:Hx; simpl in Hlen.
  - constructor; [exact Hx | apply IH; lia].
  - lia.
Qed.

Lemma window_after_check key w :
  windowsBounded w ->
  forall ts, ts ∈ window key (snd (checkRateLimit key w)) ->
             clock w - ts < RATE_LIMIT_WINDOW.
Proof.
  intros Hw ts. unfold checkRateLimit. fold (window key w).
  destruct (RATE_LIMIT_REQUESTS <=? _)%nat eqn:Hfull; simpl.
  - apply Nat.leb_le in Hfull.
    pose proof (window_bounded key w Hw) as Hlen.
    assert (Forall (fun x => (clock w - x <? RATE_LIMIT_WINDOW) = true) (window key w)) as Hall.
    { apply filter_full. unfold validTimestamps in Hfull. lia. }
    intros Hin. rewrite Forall_forall in Hall. apply Z.ltb_lt, Hall, Hin.
  - unfold window at 1. simpl. rewrite lookup_insert_eq. simpl.
    rewrite elem_of_app, list_elem_of_singleton. intros [Hin | ->].
    + eapply validTimestamps_fresh, Hin.
    + unfold RATE_LIMIT_WINDOW. lia.
Qed.

(** C8.  In every world that the module can reach, an admission check at
    time [clock w] counts pruned timestamps only, and the window that is
    stored for the key once the check is done, whether it admitted or denied
    the call, holds no timestamp that lies a window length or more before
    the check.  The same holds for the window left by a gateway call that is
    counted under the key. *)
Theorem rate_window_pruned (env : Env) (key : string) (w : World) :
  Reachable env w ->
  (forall ts, ts ∈ validTimestamps (clock w) (window key w) ->
              clock w - ts < RATE_LIMIT_WINDOW) /\
  (forall ts, ts ∈ window key (snd (checkRateLimit key w)) ->
              clock w - ts < RATE_LIMIT_WINDOW) /\
  (forall op options ts,
     rateKey op = Some key ->
     ts ∈ window key (snd (run env op options w)) ->
     clock w - ts < RATE_LIMIT_WINDOW).
Proof.
  intros Hreach. apply reachable_windowsBounded in Hreach.
  split; [|split].
  - intros ts. apply validTimestamps_fresh.
  - apply window_after_check, Hreach.
  - intros op options ts Hkey. unfold window. rewrite run_rateLimitMap, Hkey.
    apply window_after_check, Hreach.
Qed.

Lemma rate_window_pruned_witness :
  let w := setClock 70000
             (snd (run failingEnv (OpSelect "lands" None None) noOptions (initialWorld 0))) in
  Reachable failingEnv w /\
  ((forall ts, ts ∈ validTimestamps (clock w) (window "lands:select" w) ->
               clock w - ts < RATE_LIMIT_WINDOW) /\
   (forall ts, ts ∈ window "lands:select" (snd (checkRateLimit "lands:select" w)) ->
               clock w - ts < RATE_LIMIT_WINDOW) /\
   (forall op options ts,
      rateKey op = Some "lands:select" ->
      ts ∈ window "lands:select" (snd (run failingEnv op options w)) ->
      clock w - ts < RATE_LIMIT_WINDOW)).
Proof.
  assert (Reachable failingEnv
            (setClock 70000
               (snd (run failingEnv (OpSelect "lands" None None) noOptions (initialWorld 0)))))
    as Hreach.
  { apply reachable_later, reachable_call, reachable_initial. }
  split; [exact Hreach|].
  exact (rate_window_pruned failingEnv "lands:select" _ Hreach).
Defined.

(** ** Admission *)

Lemma session_fills_window env key t0 calls :
  forall w,
    Forall (inWindow t0) (window key w) ->
    Forall (fun call => inWindow t0 (startTime call) /\ rateKey (snd (fst call)) = Some key)
           calls ->
    (length (window key w) + length calls <= RATE_LIMIT_REQUESTS)%nat ->
    window key (session env calls w) = window key w ++ map startTime calls.
Proof.
  induction calls as [|[[t op] options] calls IH]; intros w Hw Hcalls Hlen; simpl.
  - rewrite app_nil_r. reflexivity.
  - inversion Hcalls as [|? ? [Ht Hkey] Hrest]; subst. simpl in Ht, Hkey, Hlen.
    assert (validTimestamps t (window key w) = window key w) as Hvalid.
    { apply validTimestamps_all. eapply Forall_impl; [exact Hw|].
      intros ts Hts. unfold inWindow, startTime in *. simpl in Ht. lia. }
    assert (window key (snd (callAt env t op options w)) = window key w ++ [t]) as Hstep.
    { unfold callAt, window at 1. rewrite run_rateLimitMap, Hkey.
      rewrite checkRateLimit_admitted.
      - simpl. rewrite lookup_insert_eq. simpl.
        change (window key (setClock t w)) with (window key w).
        rewrite Hvalid. reflexivity.
      - unfold windowCount. simpl.
        change (window key (setClock t w)) with (window key w).
        rewrite Hvalid. lia. }
    rewrite IH.
    + rewrite Hstep, <- app_assoc. reflexivity.
    + rewrite Hstep. apply Forall_app. split; [exact Hw|].
      constructor; [exact Ht | constructor].
    + exact Hrest.
    + rewrite Hstep, length_app. simpl. lia.
Qed.

Lemma recent_validTimestamps t l : validTimestamps t l = recent t l.
Proof.
  unfold validTimestamps, recent. induction l as [|ts l IH]; simpl; [reflexivity|].
  rewrite IH. unfold RATE_LIMIT_WINDOW.
  destruct (Z.ltb_spec (t - ts) 60000) as [H|H].
  - rewrite bool_decide_eq_true_2 by exact H. reflexivity.
  - rewrite bool_decide_eq_false_2 by lia. reflexivity.
Qed.

Lemma recentCount_windowCount key w : windowCount key w = recentCount key w.
Proof. unfold windowCount, recentCount. rewrite recent_validTimestamps. reflexivity. Qed.

Lemma recent_none t l : Forall (fun ts => 60000 <= t - ts) l -> recent t l = [].
Proof.
  unfold recent. induction 1 as [|ts l Hts _ IH]; simpl; [reflexivity|].
  rewrite bool_decide_eq_false_2 by lia. exact IH.
Qed.

(** C6.  For an operation counted under the key [key], called in the world
    [w]:
    - when 100 or more of the timestamps recorded for the key are less than
      60 seconds old, the check returns false and changes nothing, and the
      call returns at once with the status error, 0 retries and the duration
      0, having sent no request;
    - otherwise the check returns true and the stored window becomes the
      timestamps that are less than 60 seconds old followed by the current
      time;
    - after 100 calls under the key, all started inside one window of 60
      seconds before which every recorded timestamp lies 60 seconds or more
      in the past, the 100 start times are what is recorded and a further
      call under the key inside that window is denied. *)
Theorem rate_limit_admission (env : Env) (op : Operation) (key : string)
    (options : MiddlewareOptions) (w : World) :
  rateKey op = Some key ->
  ((100 <= recentCount key w)%nat ->
     checkRateLimit key w = (Ret false, w) /\
     exists w',
       run env op options w =
         (Ret {| data := JNull; error := JError "Rate limit exceeded"; status := StError;
                 timestamp := clock w; duration := 0; retries := 0 |}, w') /\
       trace w' = trace w /\ rateLimitMap w' = rateLimitMap w) /\
  ((recentCount key w < 100)%nat ->
     exists w1,
       checkRateLimit key w = (Ret true, w1) /\
       window key w1 = recent (clock w) (window key w) ++ [clock w]) /\
  (forall t0 calls t,
     (forall ts, ts ∈ window key w -> 60000 <= t0 - ts) ->
     length calls = 100%nat ->
     Forall (fun call => inWindow t0 (startTime call) /\ rateKey (snd (fst call)) = Some key)
            calls ->
     inWindow t0 t ->
     window key (session env calls w) = map startTime calls /\
     exists w',
       callAt env t op options (session env calls w) = (Ret (rateLimited t), w') /\
       trace w' = trace (session env calls w)).
Proof.
  intros Hkey. split; [|split].
  - intros Hfull. rewrite <- recentCount_windowCount in Hfull.
    pose proof (checkRateLimit_denied key w Hfull) as Hdenied.
    split; [exact Hdenied|].
    destruct (run_denied env op key options w Hkey Hdenied) as (w' & Hrun & Htrace & _ & _ & Hrate).
    exists w'. auto.
  - intros Hfree. rewrite <- recentCount_windowCount in Hfree.
    rewrite (checkRateLimit_admitted key w Hfree).
    eexists. split; [reflexivity|].
    unfold window at 1. simpl. rewrite lookup_insert_eq, recent_validTimestamps. reflexivity.
  - intros t0 calls t Hstale Hlen Hcalls Ht.
    assert (window key (session env calls w) = map startTime calls) as Hwin.
    { destruct calls as [|[[t1 op1] options1] calls]; [discriminate Hlen|].
      inversion Hcalls as [|? ? [Ht1 Hkey1] Hrest]; subst. simpl in Ht1, Hkey1.
      unfold startTime in Ht1. simpl in Ht1.
      assert (window key (snd (callAt env t1 op1 options1 w)) = [t1]) as Hfirst.
      { unfold callAt, window at 1. rewrite run_rateLimitMap, Hkey1.
        assert (recent t1 (window key w) = []) as Hnone.
        { apply recent_none, Forall_forall. intros ts Hts.
          specialize (Hstale ts Hts). unfold inWindow in Ht1. lia. }
        rewrite checkRateLimit_admitted.
        - simpl. rewrite lookup_insert_eq. simpl.
          change (window key (setClock t1 w)) with (window key w).
          rewrite recent_validTimestamps, Hnone. reflexivity.
        - rewrite recentCount_windowCount. unfold recentCount. simpl.
          change (window key (setClock t1 w)) with (window key w).
          rewrite Hnone. unfold RATE_LIMIT_REQUESTS. simpl. lia. }
      simpl session.
      rewrite (session_fills_window env key t0 calls).
      - rewrite Hfirst. reflexivity.
      - rewrite Hfirst. constructor; [exact Ht1 | constructor].
      - exact Hrest.
      - rewrite Hfirst. simpl in Hlen. unfold RATE_LIMIT_REQUESTS. simpl. lia. }
    split; [exact Hwin|].
    unfold callAt.
    destruct (run_denied env op key options (setClock t (session env calls w)) Hkey)
      as (w' & Hrun & Htrace & _).
    + apply checkRateLimit_denied. unfold windowCount.
      change (window key (setClock t (session env calls w)))
        with (window key (session env calls w)).
      rewrite Hwin. simpl. rewrite validTimestamps_all.
      * rewrite length_map, Hlen. unfold RATE_LIMIT_REQUESTS. apply Nat.le_refl.
      * apply Forall_forall. intros ts Hts.
        apply list_elem_of_fmap in Hts as (call & -> & Hcall).
        rewrite Forall_forall in Hcalls. destruct (Hcalls call Hcall) as [Hin _].
        unfold inWindow in *. lia.
    + exists w'. split; [exact Hrun | exact Htrace].
Qed.

(** 100 reads of one table at time 0, then 100 reads at 60000 ms, and the
    201st at 119999 ms. *)
Lemma rate_limit_admission_witness :
  let op := OpSelect "lands" None None in
  let earlier := session failingEnv (replicate 100 (0, op, noOptions)) (initialWorld 0) in
  let before := session failingEnv (replicate 100 (60000, op, noOptions)) earlier in
  rateKey op = Some "lands:select" /\
  window "lands:select" earlier = replicate 100 0 /\
  window "lands:select" before = replicate 100 60000 /\
  exists w',
    callAt failingEnv 119999 op noOptions before = (Ret (rateLimited 119999), w') /\
    trace w' = trace before.
Proof.
  intros op earlier before. split; [reflexivity|].
  assert (window "lands:select" earlier = replicate 100 0) as Hearlier
    by (vm_compute; reflexivity).
  split; [exact Hearlier|].
  destruct (rate_limit_admission failingEnv op "lands:select" noOptions earlier
              eq_refl) as (_ & _ & H101).
  destruct (H101 60000 (replicate 100 (60000, op, noOptions)) 119999) as (Hwin & Hdenied).
  - intros ts. rewrite Hearlier. intros Hts. apply elem_of_replicate in Hts as [-> _]. lia.
  - reflexivity.
  - apply Forall_replicate. split; [|reflexivity].
    unfold inWindow, startTime, RATE_LIMIT_WINDOW. simpl. lia.
  - unfold inWindow, RATE_LIMIT_WINDOW. lia.
  - split; [|exact Hdenied]. subst before. rewrite Hwin. reflexivity.
Defined.

(** ** The request cache *)

Lemma forward_ret {A} (a : A) : forward (ret a).
Proof. intros w. simpl. lia. Qed.

Lemma forward_throw {A} (e : JsVal) : forward (@throw A e).
Proof. intros w. simpl. lia. Qed.

Lemma forward_bind {A B} (m : M A) (k : A -> M B) :
  forward m -> (forall a, forward (k a)) -> forward (bind m k).
Proof.
  intros Hm Hk w. unfold bind. specialize (Hm w).
  destruct (m w) as [[a|e] w1]; simpl in *; [|exact Hm].
  specialize (Hk a w1). lia.
Qed.

Lemma forward_getProp key v : forward (getProp key v).
Proof. destruct v; intros w; simpl; lia. Qed.

Lemma forward_withTimeout env q ms : forward (withTimeout env q ms).
Proof.
  intros w. unfold withTimeout.
  destruct (latency _ <? _); [destruct (outcome _)|]; unfold elapse; simpl; lia.
Qed.

Lemma forward_settleQuery env q ms : forward (settleQuery env q ms).
Proof.
  unfold settleQuery.
  apply forward_bind; [apply forward_withTimeout | intros r].
  apply forward_bind; [apply forward_getProp | intros d].
  apply forward_bind; [apply forward_getProp | intros e].
  destruct (truthy e); [apply forward_throw | apply forward_ret].
Qed.


Section CachedRetry.

Variables (key : string) (exec : M JsVal) (dur : option Z) (m : Z).
Hypothesis exec_keeps_cache : keeps requestCache exec.
Hypothesis exec_forward : forward exec.

(** When the retry loop around a cached read ends without an error, the
    cache holds the data that the loop returns; the entry was either there
    before, or it was written by the loop. *)
Lemma retryLoop_cached n a e w r w' :
  retryLoop (withCache key exec dur) m n a e w = (Ret r, w') ->
  truthy (retryError r) = false ->
  truthy e = true \/ n <> O ->
  exists c,
    requestCache w' !! key = Some c /\
    cachedData c = retryData r /\
    (requestCache w !! key = Some c \/ clock w <= cachedTimestamp c).
Proof.
  revert a e w. induction n as [|n IH]; intros a e w Hrun Herr Hn; simpl in Hrun.
  - injection Hrun as <- <-. simpl in Herr. destruct Hn; congruence.
  - unfold tryCatch, bind at 1 in Hrun.
    destruct (withCache_cases key exec dur w) as [(c & Hc & _ & Hhit) | Hmiss].
    + rewrite Hhit in Hrun. injection Hrun as <- <-.
      exists c. auto.
    + rewrite Hmiss in Hrun. unfold missOutcome in Hrun.
      pose proof (exec_keeps_cache w) as Hk. pose proof (exec_forward w) as Hf.
      destruct (exec w) as [[d|e'] w1]; simpl in Hk, Hf.
      * injection Hrun as <- <-. simpl.
        eexists. rewrite lookup_insert_eq. split; [reflexivity|].
        split; [reflexivity|]. right. simpl. lia.
      * unfold bind at 1 in Hrun.
        destruct (converted_cases (asError e') w1) as [(err & Hsome & Hconv) | (_ & Hconv)];
          rewrite Hconv in Hrun; [|discriminate Hrun].
        apply asError_error in Hsome as (msg & ->).
        unfold bind at 1 in Hrun.
        destruct (a <? m); simpl in Hrun;
          (apply IH in Hrun; [|exact Herr | left; reflexivity]);
          destruct Hrun as (c & Hc & Hd & Hor); exists c;
          (split; [exact Hc|]); (split; [exact Hd|]); simpl in Hor;
          (destruct Hor as [Hor|Hor]; [left; congruence | right; unfold elapse in Hor; simpl in Hor; lia]).
Qed.

End CachedRetry.

Section CachedReads.

Variable env : Env.

#[local] Opaque mergeOptions.

(** A read that finds a fresh entry. *)
Lemma select_hit table columns filters options w c :
  cacheOn options ->
  0 <= retriesOf options ->
  (windowCount (table +:+ ":select") w < RATE_LIMIT_REQUESTS)%nat ->
  requestCache w !! generateCacheKey table "select" filters = Some c ->
  clock w - cachedTimestamp c < cacheDurationOf options ->
  exists w',
    middlewareSelect env table columns filters options w =
      (Ret {| data := cachedData c; error := JNull; status := StSuccess;
              timestamp := clock w; duration := 0; retries := 0 |}, w') /\
    trace w' = trace w /\ requestCache w' = requestCache w /\ clock w' = clock w.
Proof.
  intros Hon Hretries Hfree Hc Hfresh.
  unfold middlewareSelect. unfold bind at 1. simpl. unfold bind at 1.
  rewrite (checkRateLimit_admitted _ _ Hfree). simpl.
  unfold cacheOn in Hon. rewrite Hon.
  unfold tryCatch, bind at 1. unfold withRetry.
  unfold retriesOf in Hretries.
  change (default (numberOr (mergedMaxRetries DEFAULT_OPTIONS) 3)
            (mergedMaxRetries (mergeOptions options)))
    with (default 3 (mergedMaxRetries (mergeOptions options))).
  destruct (Z.to_nat (default 3 (mergedMaxRetries (mergeOptions options)) + 1)) as [|n] eqn:Hn;
    [lia|].
  simpl retryLoop. unfold tryCatch, bind at 1. unfold bind at 1.
  erewrite withCache_hit; [| exact Hc | exact Hfresh].
  unfold bind at 1. simpl. rewrite Z.sub_diag.
  eexists. split; [reflexivity|]. repeat split.
Qed.

(** A read that ends with the status success leaves its data in the
    cache. *)
Lemma select_populates table columns filters options w r w' :
  cacheOn options ->
  0 <= retriesOf options ->
  middlewareSelect env table columns filters options w = (Ret r, w') ->
  status r = StSuccess ->
  exists c,
    requestCache w' !! generateCacheKey table "select" filters = Some c /\
    cachedData c = data r /\
    (requestCache w !! generateCacheKey table "select" filters = Some c \/
     clock w <= cachedTimestamp c).
Proof.
  intros Hon Hretries Hrun Hstatus.
  destruct (run_anatomy env (OpSelect table columns filters) options w)
    as (r0 & w0 & Hrun0 & [Hd | [(w1 & rr & w2 & Ha) | (w1 & w2 & Ht)]]);
    simpl run in Hrun0; rewrite Hrun in Hrun0; injection Hrun0 as <- <-.
  - destruct Hd as (_ & _ & _ & -> & _). discriminate Hstatus.
  - destruct Ha as (Hadm & Hretry & _ & _ & _ & Hcases).
    apply admitted_frame in Hadm as (Hclock & Hcache & _).
    destruct (truthy (retryError rr)) eqn:Herr.
    + destruct Hcases as (_ & _ & Hst & _). rewrite Hstatus in Hst.
      unfold failureStatus in Hst. simpl in Hst. destruct (_ <=? _); discriminate.
    + destruct Hcases as (Hdata & _ & _ & ->). simpl in Hdata. simpl.
      simpl attemptOf in Hretry. unfold cacheOn in Hon. rewrite Hon in Hretry.
      unfold withRetry in Hretry.
      eapply retryLoop_cached in Hretry;
        [ | apply keeps_settleQuery; frame | apply forward_settleQuery | exact Herr | ].
      * rewrite Hcache, Hclock, <- Hdata in Hretry. exact Hretry.
      * right. unfold retriesOf in Hretries.
        change (numberOr (mergedMaxRetries DEFAULT_OPTIONS) 3) with 3. lia.
  - destruct Ht as (_ & _ & -> & _). discriminate Hstatus.
Qed.

#[local] Transparent mergeOptions.

End CachedReads.

(** C5.  For a cached read:
    - when the cache holds an entry for the key that is younger than the
      cache duration, [withCache] returns its payload and leaves the world as
      it is, whatever the underlying function is, which therefore does not
      run;
    - when the entry is as old as the cache duration or older, the
      underlying function runs in the world as it is, with the stale entry
      still in the cache, and the data it returns overwrites the entry (a
      failure of the function is passed on and nothing is stored);
    - a read through the gateway that finds a fresh entry returns its payload
      with the status success and 0 retries and sends no request;
    - hence, after a read that ended with the status success, a second read
      of the same table with the same filters that starts while the entry is
      younger than the cache duration returns the same data with 0 retries
      and sends no request.  The entry is the one that the first read found,
      or it bears a time at or after the start of the first read. *)
Theorem cached_read (env : Env) :
  (forall key fn dur w c,
     requestCache w !! key = Some c ->
     clock w - cachedTimestamp c < durationOf dur ->
     withCache key fn dur w = (Ret (cachedData c), w)) /\
  (forall key fn dur w c,
     requestCache w !! key = Some c ->
     durationOf dur <= clock w - cachedTimestamp c ->
     withCache key fn dur w =
       match fn w with
       | (Ret d, w1) =>
           (Ret d, setRequestCache
                     (<[key := {| cachedData := d; cachedTimestamp := clock w |}]>
                        (requestCache w1)) w1)
       | (Throw e, w1) => (Throw e, w1)
       end) /\
  (forall table columns filters options w c,
     cacheOn options ->
     0 <= retriesOf options ->
     (windowCount (table +:+ ":select") w < RATE_LIMIT_REQUESTS)%nat ->
     requestCache w !! generateCacheKey table "select" filters = Some c ->
     clock w - cachedTimestamp c < cacheDurationOf options ->
     exists w',
       middlewareSelect env table columns filters options w =
         (Ret {| data := cachedData c; error := JNull; status := StSuccess;
                 timestamp := clock w; duration := 0; retries := 0 |}, w') /\
       trace w' = trace w) /\
  (forall table columns filters options w r1 w1,
     cacheOn options ->
     0 <= retriesOf options ->
     middlewareSelect env table columns filters options w = (Ret r1, w1) ->
     status r1 = StSuccess ->
     exists c,
       requestCache w1 !! generateCacheKey table "select" filters = Some c /\
       (requestCache w !! generateCacheKey table "select" filters = Some c \/
        clock w <= cachedTimestamp c) /\
       forall t2,
         t2 - cachedTimestamp c < cacheDurationOf options ->
         (windowCount (table +:+ ":select") (setClock t2 w1) < RATE_LIMIT_REQUESTS)%nat ->
         exists w2,
           middlewareSelect env table columns filters options (setClock t2 w1) =
             (Ret {| data := data r1; error := JNull; status := StSuccess;
                     timestamp := t2; duration := 0; retries := 0 |}, w2) /\
           trace w2 = trace w1).
Proof.
  split; [|split; [|split]].
  - intros key fn dur w c. apply withCache_hit.
  - intros key fn dur w c. apply withCache_stale.
  - intros table columns filters options w c Hon Hretries Hfree Hc Hfresh.
    destruct (select_hit env table columns filters options w c Hon Hretries Hfree Hc Hfresh)
      as (w' & Hrun & Htrace & _).
    exists w'. split; assumption.
  - intros table columns filters options w r1 w1 Hon Hretries Hrun Hstatus.
    destruct (select_populates env table columns filters options w r1 w1
                Hon Hretries Hrun Hstatus) as (c & Hc & Hdata & Horigin).
    exists c. split; [exact Hc|]. split; [exact Horigin|].
    intros t2 Hfresh Hfree.
    destruct (select_hit env table columns filters options (setClock t2 w1) c
                Hon Hretries Hfree Hc Hfresh) as (w2 & Hrun2 & Htrace & _).
    exists w2. rewrite <- Hdata. split; assumption.
Qed.

(** A read of the table [lands] one second after its data was cached, with a
    backend that would refuse the query. *)
Lemma cached_read_witness :
  let w := setClock 1000 (cachedWorld 0) in
  exists w',
    middlewareSelect failingEnv "lands" None None noOptions w =
      (Ret {| data := JArr [JNum 1]; error := JNull; status := StSuccess;
              timestamp := 1000; duration := 0; retries := 0 |}, w') /\
    trace w' = trace w.
Proof.
  intros w.
  destruct (cached_read failingEnv) as (_ & _ & Hread & _).
  apply (Hread "lands" None None noOptions w
           {| cachedData := JArr [JNum 1]; cachedTimestamp := 0 |}).
  - reflexivity.
  - unfold retriesOf. simpl. lia.
  - vm_compute. lia.
  - reflexivity.
  - vm_compute. reflexivity.
Defined.

(** Two reads of one table, 299999 ms apart: one request in all. *)
Example read_twice :
  let env := constantEnv (okBody (JArr [JNum 7])) in
  let '(first, w1) := middlewareSelect env "lands" None None noOptions (initialWorld 0) in
  let '(second, w2) :=
    middlewareSelect env "lands" None None noOptions (setClock 299999 w1) in
  first = Ret {| data := JArr [JNum 7]; error := JNull; status := StSuccess;
                 timestamp := 0; duration := 10; retries := 0 |} /\
  second = Ret {| data := JArr [JNum 7]; error := JNull; status := StSuccess;
                  timestamp := 299999; duration := 0; retries := 0 |} /\
  trace w2 = [EvRequest (ReqSelect "lands" "*" [])].
Proof. vm_compute. repeat split. Qed.

(** The same, 300000 ms apart: the entry is stale and a second request is
    sent. *)
Example read_twice_stale :
  let env := constantEnv (okBody (JArr [JNum 7])) in
  let '(first, w1) := middlewareSelect env "lands" None None noOptions (initialWorld 0) in
  let '(second, w2) :=
    middlewareSelect env "lands" None None noOptions (setClock 300000 w1) in
  trace w2 = [EvRequest (ReqSelect "lands" "*" []); EvRequest (ReqSelect "lands" "*" [])] /\
  requestCache w2 !! "lands:select:{}" =
    Some {| cachedData := JArr [JNum 7]; cachedTimestamp := 300000 |}.
Proof. vm_compute. repeat split. Qed.

(** ** Retries *)

Lemma backoffDelays_length a k : length (backoffDelays a k) = k.
Proof. revert a. induction k as [|k IH]; intros a; simpl; [|rewrite IH]; reflexivity. Qed.

Lemma backoffDelays_lookup a k i :
  (i < k)%nat -> backoffDelays a k !! i = Some (2 ^ (a + Z.of_nat i) * 1000).
Proof.
  revert a i. induction k as [|k IH]; intros a i Hi; [lia|].
  destruct i as [|i]; simpl.
  - rewrite Z.add_0_r. reflexivity.
  - rewrite IH by lia. do 3 f_equal. lia.
Qed.

Lemma backoffDelays_total a k :
  0 <= a -> total (backoffDelays a k) = 2 ^ a * (2 ^ Z.of_nat k - 1) * 1000.
Proof.
  revert a. induction k as [|k IH]; intros a Ha.
  - simpl. lia.
  - change (total (backoffDelays a (S k)))
      with (2 ^ a * 1000 + total (backoffDelays (a + 1) k)).
    rewrite IH by lia.
    rewrite Nat2Z.inj_succ, Z.pow_succ_r, Z.pow_add_r by lia.
    change (2 ^ 1) with 2. ring.
Qed.



Lemma sentCount_app w w' evs :
  trace w' = trace w ++ evs ->
  sentCount w' = (sentCount w + length (List.filter isRequest evs))%nat.
Proof. unfold sentCount. intros ->. rewrite List.filter_app, length_app. reflexivity. Qed.

Section Scripted.

Variable inv : World -> Prop.
Variable fn : M JsVal.
Variable script : nat -> Res JsVal.

Hypothesis fn_scripted : scriptedOn inv fn script.

Variable m : Z.

(** One failed attempt followed by its back-off. *)
Lemma failed_attempt a w e' :
  inv w -> 0 <= a -> a < m ->
  script (sentCount w) = Throw e' ->
  exists req w2,
    fn w = (Throw e', snd (fn w)) /\
    w2 = snd (sleep (2 ^ a * 1000) (snd (fn w))) /\
    inv w2 /\
    trace w2 = trace w ++ [EvRequest req; EvWait (2 ^ a * 1000)] /\
    sentCount w2 = S (sentCount w).
Proof.
  intros Hinv Ha Ham Hs.
  pose proof (scripted_outcome _ _ _ fn_scripted w Hinv) as Hout.
  destruct (scripted_request _ _ _ fn_scripted w Hinv) as (req & Hreq).
  rewrite Hs in Hout.
  pose proof (scripted_failure _ _ _ fn_scripted w e' Hinv Hout) as Hinv1.
  exists req, (snd (sleep (2 ^ a * 1000) (snd (fn w)))).
  split; [destruct (fn w); simpl in *; congruence|].
  split; [reflexivity|].
  split; [apply (scripted_sleep _ _ _ fn_scripted), Hinv1|].
  split.
  - simpl. rewrite Hreq, <- app_assoc. reflexivity.
  - unfold sentCount. simpl. rewrite Hreq, !List.filter_app, !length_app. simpl. lia.
Qed.

Lemma retryLoop_exhausts n :
  forall a e w,
    inv w -> 0 <= a -> a + Z.of_nat n = m + 1 ->
    (forall i, (i < n)%nat ->
               exists e', script (sentCount w + i) = Throw e' /\ convertible e') ->
    exists w' reqs,
      retryLoop fn m n a e w =
        (Ret {| retryData := JNull; retryError := lastFailure script e (sentCount w) n;
                retryRetries := m |}, w') /\
      length reqs = n /\
      trace w' = trace w ++ attemptsAndWaits reqs (backoffDelays a (pred n)).
Proof.
  induction n as [|n IH]; intros a e w Hinv Ha Hm Hfail; simpl retryLoop.
  - exists w, []. simpl. rewrite app_nil_r. auto.
  - unfold tryCatch, bind at 1.
    destruct (Hfail O) as (e' & He' & (err & Herr)); [lia|]. rewrite Nat.add_0_r in He'.
    destruct n as [|n].
    + pose proof (scripted_outcome _ _ _ fn_scripted w Hinv) as Hout.
      destruct (scripted_request _ _ _ fn_scripted w Hinv) as (req & Hreq).
      rewrite He' in Hout. destruct (fn w) as [res w1]. simpl in Hout, Hreq. subst res.
      unfold bind at 1. rewrite Herr. simpl. unfold bind at 1.
      assert ((a <? m) = false) as -> by (apply Z.ltb_ge; lia).
      simpl. exists w1, [req]. rewrite Nat.add_0_r, He', Herr. auto.
    + assert (a < m) as Ham by lia.
      destruct (failed_attempt a w e' Hinv Ha Ham He')
        as (req & w2 & Hfn & Hw2 & Hinv2 & Htrace2 & Hsent2).
      rewrite Hfn. unfold bind at 1. rewrite Herr, converted_some. unfold bind at 1.
      assert ((a <? m) = true) as -> by (apply Z.ltb_lt; lia).
      change (sleep (2 ^ a * 1000) (snd (fn w)))
        with (@Ret unit tt, snd (sleep (2 ^ a * 1000) (snd (fn w)))).
      cbv beta iota. rewrite <- Hw2.
      destruct (IH (a + 1) err w2 Hinv2) as (w' & reqs & Hrun & Hlen & Htrace).
      * lia.
      * lia.
      * intros i Hi. rewrite Hsent2. destruct (Hfail (S i)) as (e'' & He'' & Hc''); [lia|].
        exists e''. split; [|exact Hc'']. rewrite <- He''. f_equal. lia.
      * exists w', (req :: reqs). rewrite Hrun.
        split.
        { unfold lastFailure. rewrite Hsent2.
          replace (S (sentCount w) + n)%nat with (sentCount w + S n)%nat by lia.
          destruct (Hfail (S n)) as (e2 & He2 & (err2 & Herr2)); [lia|].
          rewrite He2, Herr2. reflexivity. }
        split; [simpl; lia|].
        rewrite Htrace, Htrace2, <- app_assoc. reflexivity.
Qed.

End Scripted.

(** *** The attempt functions of the table operations are scripted *)

Lemma settleQuery_outcome env query timeoutMs w :
  fst (settleQuery env query timeoutMs w) = queryOutcome env timeoutMs (sentCount w).
Proof.
  unfold settleQuery, queryOutcome, bind, withTimeout.
  destruct (latency _ <? _); [|reflexivity].
  destruct (outcome _) as [v|e]; [|reflexivity].
  destruct v; simpl; try reflexivity.
  - destruct (truthy (lookupProp "error" props)); reflexivity.
Qed.

Lemma settleQuery_trace env query timeoutMs w :
  trace (snd (settleQuery env query timeoutMs w)) = trace w ++ [EvRequest query].
Proof.
  unfold settleQuery, bind, withTimeout.
  destruct (latency _ <? _); [|reflexivity].
  destruct (outcome _) as [v|e]; [|reflexivity].
  destruct v; simpl; try reflexivity.
  - destruct (truthy (lookupProp "error" props)); reflexivity.
Qed.

Lemma settleQuery_scripted env query timeoutMs :
  scriptedOn (fun _ => True) (settleQuery env query timeoutMs) (queryOutcome env timeoutMs).
Proof.
  split; auto.
  - intros w _. apply settleQuery_outcome.
  - intros w _. exists query. apply settleQuery_trace.
  - apply forward_settleQuery.
Qed.

(** A cached read whose key is not in the cache is scripted as long as it
    fails. *)
Lemma withCache_scripted key exec dur script :
  scriptedOn (fun _ => True) exec script ->
  keeps requestCache exec ->
  scriptedOn (fun w => requestCache w !! key = None) (withCache key exec dur) script.
Proof.
  intros Hexec Hkeep. split.
  - intros w Hnone. rewrite withCache_absent by exact Hnone. unfold missOutcome.
    pose proof (scripted_outcome _ _ _ Hexec w I) as Hout.
    destruct (exec w) as [[d|e] w1]; exact Hout.
  - intros w Hnone. rewrite withCache_absent by exact Hnone. unfold missOutcome.
    destruct (scripted_request _ _ _ Hexec w I) as (req & Hreq). exists req.
    destruct (exec w) as [[d|e] w1]; exact Hreq.
  - intros w e Hnone. rewrite withCache_absent by exact Hnone. unfold missOutcome.
    pose proof (Hkeep w) as Hk.
    destruct (exec w) as [[d|e'] w1]; simpl in *; [discriminate|].
    intros _. rewrite Hk. exact Hnone.
  - intros w d Hnone. exact Hnone.
  - intros w. destruct (withCache_cases key exec dur w) as [(c & _ & _ & ->) | ->].
    + simpl. lia.
    + unfold missOutcome. pose proof (scripted_forward _ _ _ Hexec w) as Hf.
      destruct (exec w) as [[d|e'] w1]; exact Hf.
Qed.

(** *** Back-off timers *)


Lemma timerDelay_bounds d : 1 <= timerDelay d <= TIMEOUT_MAX.
Proof.
  unfold timerDelay, TIMEOUT_MAX.
  destruct (Z.leb_spec 1 d), (Z.leb_spec d 2147483647); simpl; lia.
Qed.








(** From attempt 22 on the back-off delay [2^22 * 1000] ms is beyond the
    limit of the timers, and the timer fires after 1 ms. *)
Example backoff_beyond_timer_limit :
  clock (snd (sleep (2 ^ 21 * 1000) (initialWorld 0))) = 2097152000 /\
  clock (snd (sleep (2 ^ 22 * 1000) (initialWorld 0))) = 1.
Proof. vm_compute. split; reflexivity. Qed.

Example read_after_two_failures :
  let '(res, w') :=
    middlewareSelect (flakyEnv 2 (JArr [])) "lands" None None noOptions (initialWorld 0) in
  res = Ret {| data := JArr []; error := JNull; status := StSuccess;
               timestamp := 0; duration := 3030; retries := 2 |} /\
  trace w' = [EvRequest (ReqSelect "lands" "*" []); EvWait 1000;
              EvRequest (ReqSelect "lands" "*" []); EvWait 2000;
              EvRequest (ReqSelect "lands" "*" [])].
Proof. vm_compute. split; reflexivity. Qed.

(** ** Retry exhaustion *)

Lemma withRetry_exhausts inv fn script (m : Z) w :
  scriptedOn inv fn script ->
  inv w ->
  0 <= m ->
  (forall i, (i <= Z.to_nat m)%nat ->
             exists e, script (sentCount w + i)%nat = Throw e /\ convertible e) ->
  exists w' reqs e err,
    script (sentCount w + Z.to_nat m)%nat = Throw e /\
    asError e = Some err /\
    withRetry fn (Some m) w =
      (Ret {| retryData := JNull; retryError := err; retryRetries := m |}, w') /\
    length reqs = S (Z.to_nat m) /\
    trace w' = trace w ++ attemptsAndWaits reqs (backoffDelays 0 (Z.to_nat m)).
Proof.
  intros Hfn Hinv Hm Hfail.
  destruct (retryLoop_exhausts inv fn script Hfn m (Z.to_nat (m + 1)) 0 JNull w)
    as (w' & reqs & Hrun & Hlen & Htrace); try assumption; try lia.
  { intros i Hi. apply Hfail. lia. }
  replace (Z.to_nat (m + 1)) with (S (Z.to_nat m)) in * by lia.
  destruct (Hfail (Z.to_nat m)) as (e & He & (err & Herr)); [lia|].
  exists w', reqs, e, err. split; [exact He|]. split; [exact Herr|].
  unfold withRetry. simpl default.
  replace (Z.to_nat (m + 1)) with (S (Z.to_nat m)) by lia.
  rewrite Hrun. unfold lastFailure. rewrite He, Herr. auto.
Qed.

Lemma withRetry_default fn mr : withRetry fn mr = withRetry fn (Some (default 3 mr)).
Proof. destruct mr; reflexivity. Qed.

Section Exhaustion.

Variable env : Env.

#[local] Opaque mergeOptions.

(** A read all of whose attempts fail.  The response carries the failure of
    the last attempt; [retries] is the number of retries that [withRetry]
    works with; the status is retry_exhausted unless the option maxRetries
    is 0, in which case it is error. *)
Lemma select_exhausts table columns filters options w :
  let timeoutMs := numberOr (mergedTimeout (mergeOptions options)) 30000 in
  let m := retriesOf options in
  0 <= m ->
  (windowCount (table +:+ ":select") w < RATE_LIMIT_REQUESTS)%nat ->
  (cacheOn options -> requestCache w !! generateCacheKey table "select" filters = None) ->
  (forall i, (i <= Z.to_nat m)%nat ->
             exists e, queryOutcome env timeoutMs (sentCount w + i)%nat = Throw e /\
                       convertible e) ->
  exists r w' reqs e,
    middlewareSelect env table columns filters options w = (Ret r, w') /\
    queryOutcome env timeoutMs (sentCount w + Z.to_nat m)%nat = Throw e /\
    data r = JNull /\ asError e = Some (error r) /\ retries r = m /\
    status r = (if numberOr (mergedMaxRetries (mergeOptions options)) 3 <=? m
                then StRetryExhausted else StError) /\
    length reqs = S (Z.to_nat m) /\
    trace w' = trace w ++ attemptsAndWaits reqs (backoffDelays 0 (Z.to_nat m)).
Proof.
  intros timeoutMs m Hm Hfree Hmiss Hfail.
  unfold middlewareSelect. unfold bind at 1. simpl. unfold bind at 1.
  rewrite (checkRateLimit_admitted _ _ Hfree). simpl.
  set (w1 := setRateLimitMap _ w).
  set (exec := settleQuery env _ _).
  unfold tryCatch, bind at 1. rewrite withRetry_default. fold (retriesOf options). fold m.
  assert (exists w2 reqs e err,
            queryOutcome env timeoutMs (sentCount w + Z.to_nat m)%nat = Throw e /\
            asError e = Some err /\
            withRetry (if default false (mergedCache (mergeOptions options))
                       then withCache (generateCacheKey table "select" filters) exec
                              (mergedCacheDuration (mergeOptions options))
                       else exec) (Some m) w1 =
              (Ret {| retryData := JNull; retryError := err; retryRetries := m |}, w2) /\
            length reqs = S (Z.to_nat m) /\
            trace w2 = trace w ++ attemptsAndWaits reqs (backoffDelays 0 (Z.to_nat m)))
    as (w2 & reqs & e & err & He & Herr & Hrun & Hlen & Htrace).
  { destruct (default false (mergedCache (mergeOptions options))) eqn:Hcache.
    - apply (withRetry_exhausts
               (fun w => requestCache w !! generateCacheKey table "select" filters = None)
               _ (queryOutcome env timeoutMs) m w1).
      + apply withCache_scripted; [apply settleQuery_scripted | apply keeps_settleQuery; frame].
      + apply Hmiss. exact Hcache.
      + exact Hm.
      + exact Hfail.
    - apply (withRetry_exhausts (fun _ => True) _ (queryOutcome env timeoutMs) m w1).
      + apply settleQuery_scripted.
      + exact I.
      + exact Hm.
      + exact Hfail. }
  rewrite Hrun. unfold bind at 1. simpl.
  destruct (asError_error _ _ Herr) as (msg & ->). simpl.
  eexists _, _, reqs, e. split; [reflexivity|]. simpl.
  repeat split; assumption.
Qed.

#[local] Transparent mergeOptions.

End Exhaustion.

Lemma attemptsAndWaits_requests reqs delays :
  length (List.filter isRequest (attemptsAndWaits reqs delays)) = length reqs.
Proof.
  revert delays. induction reqs as [|req reqs IH]; intros delays; simpl; [reflexivity|].
  f_equal. destruct delays as [|d delays]; simpl.
  - clear IH. induction reqs as [|r reqs IH]; simpl; [reflexivity | f_equal; exact IH].
  - apply IH.
Qed.

(** With [maxRetries] left at its default or set to a value other than 0, a
    read all of whose attempts fail has the status retry_exhausted. *)
Lemma select_retry_exhausted env table columns filters options w :
  let timeoutMs := numberOr (mergedTimeout (mergeOptions options)) 30000 in
  let m := retriesOf options in
  mergedMaxRetries (mergeOptions options) <> Some 0 ->
  0 <= m ->
  (windowCount (table +:+ ":select") w < RATE_LIMIT_REQUESTS)%nat ->
  (cacheOn options -> requestCache w !! generateCacheKey table "select" filters = None) ->
  (forall i, (i <= Z.to_nat m)%nat ->
             exists e, queryOutcome env timeoutMs (sentCount w + i)%nat = Throw e /\
                       convertible e) ->
  exists r w',
    middlewareSelect env table columns filters options w = (Ret r, w') /\
    status r = StRetryExhausted /\ retries r = m /\ truthy (error r) = true /\
    sentCount w' = (sentCount w + S (Z.to_nat m))%nat.
Proof.
  intros timeoutMs m Hnonzero Hm Hfree Hmiss Hfail.
  destruct (select_exhausts env table columns filters options w Hm Hfree Hmiss Hfail)
    as (r & w' & reqs & e & Hrun & _ & _ & Herr & Hretries & Hstatus & Hlen & Htrace).
  exists r, w'. split; [exact Hrun|].
  split; [|split; [exact Hretries|split]].
  - rewrite Hstatus. fold m. unfold m, retriesOf in *.
    destruct (mergedMaxRetries (mergeOptions options)) as [v|]; simpl.
    + destruct (v =? 0) eqn:Hv.
      * apply Z.eqb_eq in Hv. subst v. congruence.
      * rewrite Z.leb_refl. reflexivity.
    + reflexivity.
  - destruct (asError_error _ _ Herr) as (msg & Hmsg). rewrite Hmsg. reflexivity.
  - rewrite (sentCount_app w w' _ Htrace), attemptsAndWaits_requests, Hlen. reflexivity.
Qed.

(** C3 fails at [maxRetries = 0].  A read with the option [maxRetries: 0]
    whose single attempt is refused returns after one request with
    [retries = 0], which is the configured maximum, and yet with the status
    error and not retry_exhausted: the status is decided by comparing
    [retries] with [maxRetries || 3], which is 3 here. *)
Theorem retry_exhausted_misreported_at_zero :
  let '(res, w') :=
    middlewareSelect failingEnv "lands" None None (withMaxRetries 0 noOptions)
      (initialWorld 0) in
  res = Ret {| data := JNull; error := JError "boom"; status := StError;
               timestamp := 0; duration := 10; retries := 0 |} /\
  trace w' = [EvRequest (ReqSelect "lands" "*" [])].
Proof. vm_compute. split; reflexivity. Qed.

(** The same read with [maxRetries: 1]: two requests, retry_exhausted. *)
Example retry_exhausted_at_one :
  let '(res, w') :=
    middlewareSelect failingEnv "lands" None None (withMaxRetries 1 noOptions)
      (initialWorld 0) in
  res = Ret {| data := JNull; error := JError "boom"; status := StRetryExhausted;
               timestamp := 0; duration := 1020; retries := 1 |} /\
  trace w' = [EvRequest (ReqSelect "lands" "*" []); EvWait 1000;
              EvRequest (ReqSelect "lands" "*" [])].
Proof. vm_compute. split; reflexivity. Qed.

(** ** The cache key *)

Lemma append_nil (s : string) : EmptyString +:+ s = s.
Proof. reflexivity. Qed.

Lemma append_cons (c : ascii) (s1 s2 : string) : String c s1 +:+ s2 = String c (s1 +:+ s2).
Proof. reflexivity. Qed.

Lemma append_assoc (s1 s2 s3 : string) : (s1 +:+ s2) +:+ s3 = s1 +:+ (s2 +:+ s3).
Proof.
  induction s1 as [|c s1 IH]; [reflexivity|].
  rewrite !append_cons, IH. reflexivity.
Qed.

Lemma unescapeHead_escapeChar (c : ascii) (rest : string) :
  unescapeHead (escapeChar c +:+ rest) = Some (c, rest).
Proof.
  destruct c as [[|] [|] [|] [|] [|] [|] [|] [|]]; reflexivity.
Qed.

Lemma escapeChar_inj c1 c2 rest1 rest2 :
  escapeChar c1 +:+ rest1 = escapeChar c2 +:+ rest2 -> c1 = c2 /\ rest1 = rest2.
Proof.
  intros H. apply (f_equal unescapeHead) in H.
  rewrite !unescapeHead_escapeChar in H. injection H as -> ->. auto.
Qed.

Lemma escapeChar_not_dquote c rest1 rest2 :
  escapeChar c +:+ rest1 <> String dquote rest2.
Proof.
  intros H. pose proof (f_equal unescapeHead H) as Hu.
  rewrite unescapeHead_escapeChar in Hu.
  assert (unescapeHead (String dquote rest2) = Some (dquote, rest2)) as Hq by reflexivity.
  rewrite Hq in Hu. injection Hu as -> _.
  discriminate H.
Qed.

(** The escaped text of a string ends at the first quote that follows
    it. *)
Lemma escape_prefix_free s1 :
  forall s2 rest1 rest2,
    escape s1 +:+ String dquote rest1 = escape s2 +:+ String dquote rest2 ->
    s1 = s2.
Proof.
  induction s1 as [|c1 s1 IH]; intros [|c2 s2] rest1 rest2 H; simpl escape in H;
    rewrite ?append_nil, ?append_assoc in H.
  - reflexivity.
  - symmetry in H. apply escapeChar_not_dquote in H. contradiction.
  - apply escapeChar_not_dquote in H. contradiction.
  - apply escapeChar_inj in H as [-> H]. f_equal. eapply IH, H.
Qed.

Lemma quote_prefix_free k1 k2 rest1 rest2 :
  quote k1 +:+ rest1 = quote k2 +:+ rest2 -> k1 = k2.
Proof.
  unfold quote. rewrite !append_cons, !append_assoc, !append_cons, !append_nil.
  intros [= H]. eapply escape_prefix_free, H.
Qed.

(** The key of a filter whose first entry has a value that is not
    [undefined] starts with the table, the operation and the quoted first
    key. *)
Lemma generateCacheKey_head table operation k v rest :
  stringify v <> None ->
  exists tl,
    generateCacheKey table operation (Some ((k, v) :: rest)) =
      (table +:+ ":" +:+ operation +:+ ":{") +:+ (quote k +:+ tl).
Proof.
  intros Hv. unfold generateCacheKey. simpl from_option. unfold orElse. simpl truthy.
  cbv iota. simpl stringify.
  destruct (stringify v) as [sv|] eqn:Hsv; [|contradiction].
  simpl default.
  match goal with
  | |- context [join "," (_ :: ?l)] => generalize l
  end.
  intros parts.
  exists (":" +:+ sv +:+ match parts with
                         | [] => EmptyString
                         | _ :: _ => "," +:+ join "," parts
                         end +:+ "}").
  rewrite !append_assoc. do 3 f_equal.
  change (":{" +:+ ?x) with (":" +:+ "{" +:+ x). do 2 f_equal.
  destruct parts as [|p parts]; simpl join; rewrite ?append_assoc, ?append_nil; reflexivity.
Qed.

Lemma stringify_defined v : v <> JUndefined -> stringify v <> None.
Proof. destruct v as [| |[|]| | | | |]; simpl; congruence. Qed.

Lemma stringify_written (filters : Props) :
  stringify (JObj filters) = stringify (JObj (written filters)).
Proof.
  simpl.
  match goal with
  | |- context [omap ?g filters] =>
      assert (omap g filters = omap g (written filters)) as ->; [|reflexivity]
  end.
  induction filters as [|[k v] filters IH]; [reflexivity|].
  destruct v as [| |[|]| | | | |]; simpl; first [exact IH | f_equal; exact IH].
Qed.

(** C4, as amended.  The cache key follows the order in which the keys of
    the filter are enumerated.  Two filters that write out the same entries
    in the same order have the same cache key, and a filter that is left out
    has the key of the empty filter.  Two filters whose first written keys
    differ have different cache keys, also when they hold the same key-value
    pairs. *)
Theorem cache_key_follows_key_order (table operation : string) :
  generateCacheKey table operation None = generateCacheKey table operation (Some []) /\
  (forall f1 f2,
     written f1 = written f2 ->
     generateCacheKey table operation (Some f1) = generateCacheKey table operation (Some f2)) /\
  (forall k1 v1 f1 k2 v2 f2,
     v1 <> JUndefined -> v2 <> JUndefined -> k1 <> k2 ->
     generateCacheKey table operation (Some ((k1, v1) :: f1)) <>
     generateCacheKey table operation (Some ((k2, v2) :: f2))).
Proof.
  split; [reflexivity|]. split.
  - intros f1 f2 Hw.
    assert (forall f, generateCacheKey table operation (Some f) =
                      table +:+ ":" +:+ operation +:+ ":" +:+
                      default "undefined" (stringify (JObj f))) as Hkey by reflexivity.
    rewrite !Hkey, (stringify_written f1), (stringify_written f2), Hw. reflexivity.
  - intros k1 v1 f1 k2 v2 f2 Hv1 Hv2 Hk Hkeys.
    destruct (generateCacheKey_head table operation k1 v1 f1 (stringify_defined v1 Hv1))
      as (tl1 & H1).
    destruct (generateCacheKey_head table operation k2 v2 f2 (stringify_defined v2 Hv2))
      as (tl2 & H2).
    rewrite H1, H2 in Hkeys. apply String.app_inj in Hkeys.
    apply quote_prefix_free in Hkeys. contradiction.
Qed.

Lemma cache_key_follows_key_order_witness :
  generateCacheKey "lands" "select" (Some [("a", JNum 1); ("b", JNum 2)]) <>
  generateCacheKey "lands" "select" (Some [("b", JNum 2); ("a", JNum 1)]).
Proof.
  destruct (cache_key_follows_key_order "lands" "select") as (_ & _ & Hdiff).
  apply Hdiff; discriminate.
Defined.

(** C4 as stated fails: the filters [{ a: 1, b: 2 }] and [{ b: 2, a: 1 }]
    hold the same pairs and get different cache keys. *)
Lemma cache_key_depends_on_key_order :
  ~ (forall (table operation : string) (f1 f2 : Props),
        NoDup (map fst f1) -> f1 ≡ₚ f2 ->
        generateCacheKey table operation (Some f1) =
        generateCacheKey table operation (Some f2)).
Proof.
  intros H.
  specialize (H "lands" "select" [("a", JNum 1); ("b", JNum 2)]
                [("b", JNum 2); ("a", JNum 1)]).
  assert (NoDup (map fst [("a", JNum 1); ("b", JNum 2)])) as Hnd.
  { apply (bool_decide_unpack _). vm_compute. exact I. }
  specialize (H Hnd (perm_swap _ _ _)).
  vm_compute in H. discriminate H.
Qed.

Example cache_keys_of_swapped_filters :
  generateCacheKey "lands" "select" (Some [("a", JNum 1); ("b", JNum 2)])
    = "lands:select:{" +:+ quote "a" +:+ ":1," +:+ quote "b" +:+ ":2}" /\
  generateCacheKey "lands" "select" (Some [("b", JNum 2); ("a", JNum 1)])
    = "lands:select:{" +:+ quote "b" +:+ ":2," +:+ quote "a" +:+ ":1}".
Proof. vm_compute. split; reflexivity. Qed.

(** * Further properties of the module *)

(** ** The metrics log *)

Lemma attempts_keep_metrics env op options w1 res w2 :
  withRetry (attemptOf env op options) (mergedMaxRetries (mergeOptions options)) w1
    = (res, w2) ->
  requestMetrics w2 = requestMetrics w1.
Proof.
  intros Hrun.
  pose proof (keeps_withRetry requestMetrics
                (ltac:(split; reflexivity)) _
                (mergedMaxRetries (mergeOptions options))
                (attemptOf_keeps requestMetrics env op options
                   (ltac:(split; reflexivity)) (fun _ _ => eq_refl)) w1) as Hk.
  rewrite Hrun in Hk. exact Hk.
Qed.

Lemma admittedCall_metrics env op options w r w' w1 rr w2 :
  admittedCall env op options w r w' w1 rr w2 ->
  exists metric,
    requestMetrics w' = dropOldest (requestMetrics w ++ [metric]) /\
    metricMethod metric = methodName op /\
    metricTable metric = tableName op /\
    metricTimestamp metric = timestamp r + duration r /\
    metricDuration metric = duration r /\
    metricStatus metric = loggedStatus false (status r) /\
    metricError metric = message (error r).
Proof.
  intros (Hadm & Hrun & Hts & Hdur & _ & Hcases).
  apply admitted_frame in Hadm as (Hclock & _ & _ & Hmetrics).
  pose proof (attempts_keep_metrics _ _ _ _ _ _ Hrun) as Hkeep.
  assert (clock w2 = timestamp r + duration r) as Hnow by lia.
  destruct (truthy (retryError rr)).
  - destruct Hcases as (_ & Herr & Hst & ->).
    eexists. split; [simpl; rewrite Hkeep, Hmetrics; reflexivity|].
    simpl. rewrite Hst, Herr.
    repeat split; try lia.
    unfold failureStatus. destruct (rateKey op); [destruct (Z.leb _ _)|]; reflexivity.
  - destruct Hcases as (_ & Herr & Hst & ->).
    eexists. split; [simpl; rewrite Hkeep, Hmetrics; reflexivity|].
    simpl. rewrite Hst, Herr. repeat split; lia.
Qed.

Lemma thrownCall_metrics env op options w r w' w1 w2 :
  thrownCall env op options w r w' w1 w2 ->
  exists metric,
    requestMetrics w' = dropOldest (requestMetrics w ++ [metric]) /\
    metricMethod metric = methodName op /\
    metricTable metric = tableName op /\
    metricTimestamp metric = timestamp r + duration r /\
    metricDuration metric = duration r /\
    metricStatus metric = loggedStatus false (status r) /\
    metricError metric = message (error r).
Proof.
  intros (Hadm & Hrun & -> & ->).
  apply admitted_frame in Hadm as (Hclock & _ & _ & Hmetrics).
  pose proof (attempts_keep_metrics _ _ _ _ _ _ Hrun) as Hkeep.
  eexists. split; [simpl; rewrite Hkeep, Hmetrics; reflexivity|].
  simpl. repeat split; lia.
Qed.

(** The admission check refuses a call exactly when 100 timestamps or more
    are recorded for the key within the trailing window. *)
Lemma checkRateLimit_refused key w :
  fst (checkRateLimit key w) = Ret (negb (100 <=? recentCount key w)%nat).
Proof.
  unfold checkRateLimit, recentCount, window. rewrite recent_validTimestamps.
  unfold RATE_LIMIT_REQUESTS. destruct (100 <=? _)%nat; reflexivity.
Qed.

Lemma deniedCall_refused op w r w' : deniedCall op w r w' -> refused op w = true.
Proof.
  intros (key & Hkey & Hcheck & _). unfold refused. rewrite Hkey.
  pose proof (checkRateLimit_refused key w) as H. rewrite Hcheck in H. cbn [fst] in H.
  destruct (100 <=? recentCount key w)%nat; [reflexivity | discriminate H].
Qed.

Lemma admitted_not_refused op w w1 : admitted op w w1 -> refused op w = false.
Proof.
  unfold admitted, refused. destruct (rateKey op) as [key|]; [|reflexivity].
  intros Hcheck. pose proof (checkRateLimit_refused key w) as H.
  rewrite Hcheck in H. cbn [fst] in H.
  destruct (100 <=? recentCount key w)%nat; [discriminate H | reflexivity].
Qed.

Lemma run_metrics env op options w :
  exists r w' metric,
    run env op options w = (Ret r, w') /\
    requestMetrics w' = dropOldest (requestMetrics w ++ [metric]) /\
    metricMethod metric = methodName op /\
    metricTable metric = tableName op /\
    metricTimestamp metric = timestamp r + duration r /\
    metricDuration metric = duration r /\
    metricStatus metric = loggedStatus (refused op w) (status r) /\
    metricError metric = message (error r) /\
    (refused op w = true -> r = rateLimited (clock w)).
Proof.
  destruct (run_anatomy env op options w)
    as (r & w' & Hrun & [Hd | [(w1 & rr & w2 & Ha) | (w1 & w2 & Ht)]]).
  - pose proof (deniedCall_refused _ _ _ _ Hd) as Href. rewrite Href.
    destruct Hd as (key & _ & _ & -> & ->).
    eexists _, _, _. split; [exact Hrun|].
    split; [reflexivity|]. simpl. repeat split; lia.
  - pose proof Ha as (Hadm & _). rewrite (admitted_not_refused _ _ _ Hadm).
    destruct (admittedCall_metrics _ _ _ _ _ _ _ _ _ Ha)
      as (metric & H1 & H2 & H3 & H4 & H5 & H6 & H7).
    exists r, w', metric. repeat (split; [assumption|]). discriminate.
  - pose proof Ht as (Hadm & _). rewrite (admitted_not_refused _ _ _ Hadm).
    destruct (thrownCall_metrics _ _ _ _ _ _ _ _ Ht)
      as (metric & H1 & H2 & H3 & H4 & H5 & H6 & H7).
    exists r, w', metric. repeat (split; [assumption|]). discriminate.
Qed.

(** ** Steps of the module *)

Section Steps.

Variable R : World -> World -> Prop.
Hypothesis R_step : stepRelation R.

Lemma respects_ret {A} (a : A) : respects R (ret a).
Proof. intros w. apply (step_refl R R_step). Qed.

Lemma respects_throw {A} (e : JsVal) : respects R (@throw A e).
Proof. intros w. apply (step_refl R R_step). Qed.

Lemma respects_bind {A B} (m : M A) (k : A -> M B) :
  respects R m -> (forall a, respects R (k a)) -> respects R (bind m k).
Proof.
  intros Hm Hk w. unfold bind. specialize (Hm w).
  destruct (m w) as [[a|e] w1]; simpl in *; [|exact Hm].
  eapply (step_trans R R_step); [exact Hm | apply Hk].
Qed.

Lemma respects_tryCatch {A} (body : M A) (handler : JsVal -> M A) :
  respects R body -> (forall e, respects R (handler e)) -> respects R (tryCatch body handler).
Proof.
  intros Hm Hk w. unfold tryCatch. specialize (Hm w).
  destruct (body w) as [[a|e] w1]; simpl in *; [exact Hm|].
  eapply (step_trans R R_step); [exact Hm | apply Hk].
Qed.

Lemma respects_if {A} (b : bool) (m1 m2 : M A) :
  respects R m1 -> respects R m2 -> respects R (if b then m1 else m2).
Proof. destruct b; auto. Qed.

Lemma respects_now : respects R now.
Proof. intros w. apply (step_refl R R_step). Qed.

Lemma respects_getProp key v : respects R (getProp key v).
Proof. destruct v; intros w; apply (step_refl R R_step). Qed.

Lemma respects_settle o : respects R (settle o).
Proof. destruct o; intros w; apply (step_refl R R_step). Qed.

Lemma respects_converted {A} (result : option A) : respects R (converted result).
Proof. destruct result; intros w; apply (step_refl R R_step). Qed.

Lemma respects_sent d req w :
  R w (elapse d (setTrace (trace w ++ [EvRequest req]) w)).
Proof.
  eapply (step_trans R R_step); [apply (step_trace R R_step) | apply (step_elapse R R_step)].
Qed.

Lemma respects_sleep d : respects R (sleep d).
Proof.
  intros w. unfold sleep. simpl.
  eapply (step_trans R R_step); [apply (step_trace R R_step) | apply (step_elapse R R_step)].
Qed.

Lemma respects_await env req : respects R (await env req).
Proof.
  intros w. unfold await.
  destruct (outcome _); simpl; apply respects_sent.
Qed.

Lemma respects_withTimeout env req ms : respects R (withTimeout env req ms).
Proof.
  intros w. unfold withTimeout.
  destruct (latency _ <? _); [destruct (outcome _)|]; simpl; apply respects_sent.
Qed.

Lemma respects_settleQuery env q ms : respects R (settleQuery env q ms).
Proof.
  unfold settleQuery.
  apply respects_bind; [apply respects_withTimeout | intros r].
  apply respects_bind; [apply respects_getProp | intros d].
  apply respects_bind; [apply respects_getProp | intros e].
  apply respects_if; [apply respects_throw | apply respects_ret].
Qed.

Lemma respects_withCache key fn dur : respects R fn -> respects R (withCache key fn dur).
Proof.
  intros Hfn w. destruct (withCache_cases key fn dur w) as [(c & _ & _ & ->) | ->].
  - apply (step_refl R R_step).
  - unfold missOutcome. specialize (Hfn w).
    destruct (fn w) as [[d|e] w1]; simpl in *; [|exact Hfn].
    eapply (step_trans R R_step); [exact Hfn | apply (step_cache R R_step)].
Qed.

Lemma respects_retryLoop fn m n a e : respects R fn -> respects R (retryLoop fn m n a e).
Proof.
  intros Hfn. revert a e. induction n as [|n IH]; intros a e; simpl.
  - apply respects_ret.
  - apply respects_tryCatch.
    + apply respects_bind; [exact Hfn | intros; apply respects_ret].
    + intros e'. apply respects_bind; [apply respects_converted | intros lastError'].
      apply respects_bind; [|intros; apply IH].
      apply respects_if; [apply respects_sleep | apply respects_ret].
Qed.

Lemma respects_withRetry fn m : respects R fn -> respects R (withRetry fn m).
Proof. intros Hfn. apply respects_retryLoop, Hfn. Qed.

Lemma respects_callApi env path headers body fallback :
  respects R (callApi env path headers body fallback).
Proof.
  unfold callApi.
  repeat first
    [ apply respects_ret | apply respects_throw | apply respects_getProp
    | apply respects_converted
    | apply respects_await | apply respects_bind | apply respects_if
    | match goal with
      | |- respects _ (match ?x with _ => _ end) => destruct x
      | |- forall _, _ => intro
      end ].
Qed.

Lemma respects_executeSign env path fallback email password :
  respects R (executeSign env path fallback email password).
Proof.
  unfold executeSign.
  apply respects_bind; [apply respects_callApi | intros result].
  repeat first
    [ apply respects_ret | apply respects_throw | apply respects_getProp
    | apply respects_converted
    | apply respects_await | apply respects_bind | apply respects_if
    | match goal with
      | |- respects _ (match ?x with _ => _ end) => destruct x
      | |- forall _, _ => intro
      end ].
Qed.

Lemma respects_attemptOf env op options : respects R (attemptOf env op options).
Proof.
  destruct op; simpl.
  - apply respects_if; [apply respects_withCache|]; apply respects_settleQuery.
  - apply respects_settleQuery.
  - apply respects_settleQuery.
  - apply respects_bind; [apply respects_withTimeout | intros r].
    apply respects_bind; [apply respects_getProp | intros e].
    apply respects_if; [apply respects_throw | apply respects_ret].
  - apply respects_executeSign.
  - apply respects_executeSign.
  - apply respects_bind; [apply respects_callApi | intros _].
    apply respects_bind; [apply respects_await | intros r].
    apply respects_bind; [apply respects_getProp | intros e].
    apply respects_if; [apply respects_throw | apply respects_ret].
Qed.

Lemma respects_checkRateLimit key : respects R (checkRateLimit key).
Proof.
  intros w. unfold checkRateLimit.
  destruct (RATE_LIMIT_REQUESTS <=? _)%nat; simpl;
    [apply (step_refl R R_step) | apply (step_rate R R_step)].
Qed.

Lemma respects_logMetric method table dur st err :
  respects R (logMetric method table dur st err).
Proof. intros w. apply (step_metrics R R_step). Qed.

(** Every gateway call is a step. *)
Lemma respects_run env op options : respects R (run env op options).
Proof.
  intros w.
  assert (forall w1 res w2,
            admitted op w w1 ->
            withRetry (attemptOf env op options) (mergedMaxRetries (mergeOptions options)) w1
              = (res, w2) ->
            R w w2) as Hattempts.
  { intros w1 res w2 Hadm Hrun.
    assert (R w w1) as H1.
    { unfold admitted in Hadm. destruct (rateKey op) as [key|].
      - pose proof (respects_checkRateLimit key w) as H. rewrite Hadm in H. exact H.
      - subst w1. apply (step_refl R R_step). }
    assert (R w1 w2) as H2.
    { pose proof (respects_withRetry _ (mergedMaxRetries (mergeOptions options))
                    (respects_attemptOf env op options) w1) as H.
      rewrite Hrun in H. exact H. }
    apply (step_trans R R_step _ w1); assumption. }
  destruct (run_anatomy env op options w)
    as (r & w' & -> & [Hd | [(w1 & rr & w2 & Ha) | (w1 & w2 & Ht)]]); simpl.
  - destruct Hd as (key & _ & _ & _ & ->). apply respects_logMetric.
  - destruct Ha as (Hadm & Hrun & _ & _ & _ & Hcases).
    apply (step_trans R R_step _ w2); [exact (Hattempts _ _ _ Hadm Hrun)|].
    destruct (truthy (retryError rr)).
    + destruct Hcases as (_ & _ & _ & ->). apply respects_logMetric.
    + destruct Hcases as (_ & _ & _ & ->).
      eapply (step_trans R R_step); [apply respects_logMetric | apply (step_cache R R_step)].
  - destruct Ht as (Hadm & Hrun & _ & ->).
    apply (step_trans R R_step _ w2); [exact (Hattempts _ _ _ Hadm Hrun)|].
    apply respects_logMetric.
Qed.

End Steps.

Lemma continues_step : stepRelation continues.
Proof.
  split; unfold continues.
  - intros w. exists []. rewrite app_nil_r. reflexivity.
  - intros w1 w2 w3 [e1 H1] [e2 H2]. exists (e1 ++ e2). rewrite H2, H1, app_assoc. reflexivity.
  - intros d w. exists []. rewrite app_nil_r. reflexivity.
  - intros evs w. exists evs. reflexivity.
  - intros c w. exists []. rewrite app_nil_r. reflexivity.
  - intros m w. exists []. rewrite app_nil_r. reflexivity.
  - intros l w. exists []. rewrite app_nil_r. reflexivity.
Qed.

Lemma notBefore_step : stepRelation notBefore.
Proof.
  split; unfold notBefore, elapse; intros; simpl; lia.
Qed.

(** X1.  Every gateway call logs exactly one metric: the record is appended
    to the log, and when that makes more than 1000 records the oldest one is
    dropped.  The record bears the method and the table of the operation,
    the time at which the call ended, the duration and the error message of
    the response.  A call is refused admission exactly when 100 timestamps
    or more are recorded for its key within the trailing 60 seconds; the
    response of a refused call is the rate-limit response and its metric has
    the status rate_limited.  The metric of every other call has the status
    success for a response with the status success, timeout for a response
    with the status timeout, and error otherwise, a response with the status
    retry_exhausted included. *)
Theorem call_logs_one_metric (env : Env) (op : Operation) (options : MiddlewareOptions)
    (w : World) :
  exists r w' metric,
    run env op options w = (Ret r, w') /\
    requestMetrics w' = dropOldest (requestMetrics w ++ [metric]) /\
    metricMethod metric = methodName op /\
    metricTable metric = tableName op /\
    metricTimestamp metric = timestamp r + duration r /\
    metricDuration metric = duration r /\
    metricError metric = message (error r) /\
    (refused op w = true ->
     r = rateLimited (clock w) /\ metricStatus metric = "rate_limited") /\
    (refused op w = false ->
     metricStatus metric =
       match status r with
       | StSuccess => "success"
       | StTimeout => "timeout"
       | StError | StRetryExhausted => "error"
       end).
Proof.
  destruct (run_metrics env op options w)
    as (r & w' & metric & Hrun & H1 & H2 & H3 & H4 & H5 & H6 & H7 & Hyes).
  exists r, w', metric. repeat (split; [assumption|]). split.
  - intros Href. split; [exact (Hyes Href)|].
    rewrite H6, Href, (Hyes Href). reflexivity.
  - intros Href. rewrite H6, Href. destruct (status r); reflexivity.
Qed.




(** ** The number of retries *)

Lemma retryLoop_retries fn m n a e w r w' :
  retryLoop fn m n a e w = (Ret r, w') ->
  retryRetries r = m \/ a <= retryRetries r < a + Z.of_nat n.
Proof.
  revert a e w. induction n as [|n IH]; intros a e w Hrun; simpl in Hrun.
  - injection Hrun as <- _. left. reflexivity.
  - unfold tryCatch, bind at 1 in Hrun.
    destruct (fn w) as [[d|e'] w1].
    + injection Hrun as <- _. right. simpl. lia.
    + unfold bind at 1 in Hrun.
      destruct (converted_cases (asError e') w1) as [(err & _ & Hconv) | (_ & Hconv)];
        rewrite Hconv in Hrun; [|discriminate Hrun].
      unfold bind at 1 in Hrun.
      destruct (a <? m); simpl in Hrun; apply IH in Hrun; lia.
Qed.

Lemma withRetry_retries fn mr w r w' :
  withRetry fn mr w = (Ret r, w') ->
  0 <= default 3 mr ->
  0 <= retryRetries r <= default 3 mr.
Proof.
  rewrite withRetry_default. unfold withRetry. simpl default. intros Hrun Hm.
  apply retryLoop_retries in Hrun. lia.
Qed.

(** With a negative number of retries the loop of [withRetry] has no
    iteration. *)
Lemma withRetry_negative fn mr w :
  default 3 mr < 0 ->
  withRetry fn mr w =
    (Ret {| retryData := JNull; retryError := JNull; retryRetries := default 3 mr |}, w).
Proof.
  intros Hm. rewrite withRetry_default. unfold withRetry. simpl default.
  replace (Z.to_nat (default 3 mr + 1)) with O by lia. reflexivity.
Qed.

(** X3.  When the number of retries that a call works with is not negative,
    the [retries] of its response lies between 0 and that number. *)
Theorem retries_within_maximum (env : Env) (op : Operation) (options : MiddlewareOptions)
    (w : World) :
  0 <= retriesOf options ->
  exists r w',
    run env op options w = (Ret r, w') /\
    0 <= retries r <= retriesOf options.
Proof.
  intros Hm.
  destruct (run_anatomy env op options w)
    as (r & w' & Hrun & [Hd | [(w1 & rr & w2 & Ha) | (w1 & w2 & Ht)]]);
    exists r, w'; (split; [exact Hrun|]).
  - destruct Hd as (key & _ & _ & -> & _). simpl. lia.
  - destruct Ha as (_ & Hretry & _ & _ & -> & _).
    apply withRetry_retries in Hretry; assumption.
  - destruct Ht as (_ & _ & -> & _). simpl. lia.
Qed.

Lemma retries_within_maximum_witness :
  0 <= retriesOf noOptions /\
  exists r w',
    run failingEnv (OpSelect "lands" None None) noOptions (initialWorld 0) = (Ret r, w') /\
    0 <= retries r <= retriesOf noOptions.
Proof.
  assert (0 <= retriesOf noOptions) as Hm by (vm_compute; discriminate).
  split; [exact Hm|].
  exact (retries_within_maximum failingEnv (OpSelect "lands" None None) noOptions
           (initialWorld 0) Hm).
Defined.


Lemma hasRoom_not_denied op w r w' : hasRoom op w -> ~ deniedCall op w r w'.
Proof.
  intros Hroom (key & Hkey & Hdenied & _).
  rewrite (checkRateLimit_admitted key w (Hroom key Hkey)) in Hdenied. discriminate.
Qed.

(** X4.  With a negative [maxRetries] an admitted call makes no attempt at
    all: it sends no request and takes no time, and yet its response has the
    status success, with no error, the data [null] ([undefined] for delete
    and sign-out) and [retries] equal to the negative [maxRetries]; the
    mutations and sign-out go on to invalidate the cache. *)
Theorem negative_maxRetries_reports_success (env : Env) (op : Operation)
    (options : MiddlewareOptions) (w : World) :
  retriesOf options < 0 ->
  hasRoom op w ->
  exists r w',
    run env op options w = (Ret r, w') /\
    status r = StSuccess /\ error r = JNull /\ data r = successData op JNull /\
    retries r = retriesOf options /\ duration r = 0 /\
    trace w' = trace w /\
    requestCache w' = cacheAfterSuccess op (requestCache w).
Proof.
  intros Hm Hroom.
  destruct (run_anatomy env op options w)
    as (r & w' & Hrun & [Hd | [(w1 & rr & w2 & Ha) | (w1 & w2 & Ht)]]).
  - exfalso. exact (hasRoom_not_denied op w r w' Hroom Hd).
  - exists r, w'. split; [exact Hrun|].
    destruct Ha as (Hadm & Hretry & _ & Hdur & Hretries & Hcases).
    apply admitted_frame in Hadm as (Hclock & Hcache & Htrace & _).
    rewrite withRetry_negative in Hretry by exact Hm.
    injection Hretry as <- <-. simpl in Hcases, Hretries.
    destruct Hcases as (Hdata & Herr & Hst & ->). simpl.
    rewrite Hcache. repeat split; try assumption. lia.
  - destruct Ht as (_ & Hretry & _).
    rewrite withRetry_negative in Hretry by exact Hm. discriminate Hretry.
Qed.

Lemma negative_maxRetries_reports_success_witness :
  let op := OpInsert "lands" (JObj []) in
  let options := withMaxRetries (-1) noOptions in
  retriesOf options < 0 /\ hasRoom op (cachedWorld 0) /\
  exists r w',
    run failingEnv op options (cachedWorld 0) = (Ret r, w') /\
    status r = StSuccess /\ error r = JNull /\ data r = successData op JNull /\
    retries r = retriesOf options /\ duration r = 0 /\
    trace w' = trace (cachedWorld 0) /\
    requestCache w' = cacheAfterSuccess op (requestCache (cachedWorld 0)).
Proof.
  intros op options.
  assert (retriesOf options < 0) as Hm by (vm_compute; reflexivity).
  assert (hasRoom op (cachedWorld 0)) as Hroom.
  { intros key [= <-]. vm_compute. lia. }
  split; [exact Hm|]. split; [exact Hroom|].
  exact (negative_maxRetries_reports_success failingEnv op options (cachedWorld 0) Hm Hroom).
Defined.

(** ** The time that a call takes *)

Lemma within_ret {A} (a : A) bound : 0 <= bound -> within bound (ret a).
Proof. intros Hb w. simpl. lia. Qed.

Lemma within_withTimeout env q ms : within (timerDelay ms) (withTimeout env q ms).
Proof.
  intros w. unfold withTimeout. pose proof (timerDelay_bounds ms) as Hms.
  destruct (latency _ <? timerDelay ms) eqn:Hlat.
  - apply Z.ltb_lt in Hlat. destruct (outcome _); unfold elapse; simpl; lia.
  - unfold elapse. simpl. lia.
Qed.

(** A computation that does not touch the clock after a first step. *)
Lemma within_then_pure {A B} bound (m : M A) (k : A -> M B) :
  within bound m -> (forall a, keeps clock (k a)) -> within bound (bind m k).
Proof.
  intros Hm Hk w. unfold bind. specialize (Hm w).
  destruct (m w) as [[a|e] w1]; simpl in *; [|exact Hm].
  rewrite Hk. exact Hm.
Qed.

Lemma keeps_clock_getProp key v : keeps clock (getProp key v).
Proof. destruct v; intros w; reflexivity. Qed.

Lemma within_settleQuery env q ms : within (timerDelay ms) (settleQuery env q ms).
Proof.
  unfold settleQuery. apply within_then_pure; [apply within_withTimeout | intros r].
  apply keeps_bind; [apply keeps_clock_getProp | intros d].
  apply keeps_bind; [apply keeps_clock_getProp | intros e].
  destruct (truthy e); intros w; reflexivity.
Qed.

Lemma within_withCache key fn dur bound :
  0 <= bound -> within bound fn -> within bound (withCache key fn dur).
Proof.
  intros Hb Hfn w. destruct (withCache_cases key fn dur w) as [(c & _ & _ & ->) | ->].
  - simpl. lia.
  - unfold missOutcome. specialize (Hfn w). destruct (fn w) as [[d|e] w1]; exact Hfn.
Qed.

(** One attempt of a table operation takes no longer than its deadline. *)
Lemma within_attemptOf env op key options :
  rateKey op = Some key ->
  within (timerDelay (timeoutOf options)) (attemptOf env op options).
Proof.
  intros Hkey. pose proof (timerDelay_bounds (timeoutOf options)) as Hms.
  destruct op; simpl in Hkey; try discriminate; simpl.
  - destruct (default false _); [apply within_withCache; [lia|]|];
      apply within_settleQuery.
  - apply within_settleQuery.
  - apply within_settleQuery.
  - apply within_then_pure; [apply within_withTimeout | intros r].
    apply keeps_bind; [apply keeps_clock_getProp | intros e].
    destruct (truthy e); intros w; reflexivity.
Qed.

Lemma backoffDelays_nonneg a k : 0 <= a -> 0 <= total (backoffDelays a k).
Proof.
  intros Ha. rewrite backoffDelays_total by exact Ha.
  assert (0 < 2 ^ a) by (apply Z.pow_pos_nonneg; lia).
  assert (0 < 2 ^ Z.of_nat k) by (apply Z.pow_pos_nonneg; lia).
  nia.
Qed.

Lemma retryLoop_within fn m bound :
  within bound fn -> 0 <= bound ->
  forall n a e w,
    0 <= a -> a + Z.of_nat n = m + 1 ->
    clock (snd (retryLoop fn m n a e w))
    <= clock w + Z.of_nat n * bound + total (backoffDelays a (pred n)).
Proof.
  intros Hfn Hb. induction n as [|n IH]; intros a e w Ha Hn; simpl retryLoop.
  - simpl. unfold total. simpl. lia.
  - unfold tryCatch, bind at 1. specialize (Hfn w).
    pose proof (backoffDelays_nonneg a (pred (S n)) Ha) as Hnonneg.
    destruct (fn w) as [[d|e'] w1]; simpl in Hfn.
    + simpl snd. nia.
    + unfold bind at 1.
      destruct (converted_cases (asError e') w1) as [(err & _ & ->) | (_ & ->)];
        [|simpl snd; nia].
      unfold bind at 1. destruct n as [|n].
      * assert ((a <? m) = false) as -> by (apply Z.ltb_ge; lia).
        simpl. unfold total. simpl. lia.
      * assert ((a <? m) = true) as -> by (apply Z.ltb_lt; lia).
        change (sleep (2 ^ a * 1000) w1)
          with (@Ret unit tt, snd (sleep (2 ^ a * 1000) w1)).
        cbv beta iota.
        specialize (IH (a + 1) err (snd (sleep (2 ^ a * 1000) w1))).
        assert (0 < 2 ^ a) by (apply Z.pow_pos_nonneg; lia).
        assert (clock (snd (sleep (2 ^ a * 1000) w1)) <= clock w1 + 2 ^ a * 1000) as Hs.
        { unfold sleep, elapse, timerDelay. simpl.
          destruct ((1 <=? 2 ^ a * 1000) && (2 ^ a * 1000 <=? TIMEOUT_MAX)); lia. }
        simpl pred in *.
        change (total (backoffDelays a (S n)))
          with (2 ^ a * 1000 + total (backoffDelays (a + 1) n)).
        lia.
Qed.

Lemma withRetry_retryLoop fn options :
  withRetry fn (mergedMaxRetries (mergeOptions options)) =
  retryLoop fn (retriesOf options) (Z.to_nat (retriesOf options + 1)) 0 JNull.
Proof.
  unfold retriesOf. destruct (mergedMaxRetries (mergeOptions options)); reflexivity.
Qed.

(** X5.  A call of a table operation takes no longer than its attempts and
    its back-off timers allow: with [m >= 0] retries and a deadline per
    query whose timer fires after [t] ms, the [duration] of the response is
    the time that has passed between the start and the end of the call, it
    is not negative, and it is at most [(m + 1) * t + (2^m - 1) * 1000]
    ms. *)
Theorem call_duration_bounded (env : Env) (op : Operation) (key : string)
    (options : MiddlewareOptions) (w : World) :
  rateKey op = Some key ->
  0 <= retriesOf options ->
  exists r w',
    run env op options w = (Ret r, w') /\
    clock w' = clock w + duration r /\
    0 <= duration r
      <= (retriesOf options + 1) * timerDelay (timeoutOf options)
         + (2 ^ retriesOf options - 1) * 1000.
Proof.
  intros Hkey Hm.
  assert (0 < 2 ^ retriesOf options) as Hpow by (apply Z.pow_pos_nonneg; lia).
  pose proof (timerDelay_bounds (timeoutOf options)) as Hms.
  assert (forall w1 res w2,
            admitted op w w1 ->
            withRetry (attemptOf env op options) (mergedMaxRetries (mergeOptions options)) w1
              = (res, w2) ->
            0 <= clock w2 - clock w
              <= (retriesOf options + 1) * timerDelay (timeoutOf options)
                 + (2 ^ retriesOf options - 1) * 1000) as Hattempts.
  { intros w1 res w2 Hadm Hretry.
    apply admitted_frame in Hadm as (Hclock & _).
    pose proof (respects_withRetry notBefore notBefore_step _
                  (mergedMaxRetries (mergeOptions options))
                  (respects_attemptOf notBefore notBefore_step env op options) w1) as Hfwd.
    rewrite Hretry in Hfwd. unfold notBefore in Hfwd. simpl in Hfwd.
    assert (0 <= timerDelay (timeoutOf options)) as Hnonneg by lia.
    pose proof (retryLoop_within (attemptOf env op options) (retriesOf options)
                  (timerDelay (timeoutOf options))
                  (within_attemptOf env op key options Hkey) Hnonneg
                  (Z.to_nat (retriesOf options + 1)) 0 JNull w1
                  (Z.le_refl 0)) as Hbound.
    rewrite withRetry_retryLoop in Hretry. rewrite Hretry in Hbound. simpl snd in Hbound.
    replace (pred (Z.to_nat (retriesOf options + 1))) with (Z.to_nat (retriesOf options))
      in Hbound by lia.
    rewrite backoffDelays_total in Hbound by lia.
    rewrite !Z2Nat.id in Hbound by lia.
    assert (0 + (retriesOf options + 1) = retriesOf options + 1) as Hsum by lia.
    specialize (Hbound Hsum).
    change (2 ^ 0) with 1 in Hbound. lia. }
  destruct (run_anatomy env op options w)
    as (r & w' & Hrun & [Hd | [(w1 & rr & w2 & Ha) | (w1 & w2 & Ht)]]);
    exists r, w'; (split; [exact Hrun|]).
  - destruct Hd as (key' & _ & _ & -> & ->). simpl. split; [lia|]. nia.
  - destruct Ha as (Hadm & Hretry & _ & Hdur & _ & Hcases).
    specialize (Hattempts _ _ _ Hadm Hretry).
    assert (clock w' = clock w2) as Hend.
    { destruct (truthy (retryError rr)); destruct Hcases as (_ & _ & _ & ->); reflexivity. }
    split; lia.
  - destruct Ht as (Hadm & Hretry & -> & ->).
    specialize (Hattempts _ _ _ Hadm Hretry). simpl. split; lia.
Qed.

Lemma call_duration_bounded_witness :
  let op := OpSelect "lands" None None in
  rateKey op = Some "lands:select" /\ 0 <= retriesOf noOptions /\
  exists r w',
    run offlineEnv op noOptions (initialWorld 0) = (Ret r, w') /\
    clock w' = clock (initialWorld 0) + duration r /\
    0 <= duration r
      <= (retriesOf noOptions + 1) * timerDelay (timeoutOf noOptions)
         + (2 ^ retriesOf noOptions - 1) * 1000.
Proof.
  intros op.
  assert (0 <= retriesOf noOptions) as Hm by (vm_compute; discriminate).
  split; [reflexivity|]. split; [exact Hm|].
  exact (call_duration_bounded offlineEnv op "lands:select" noOptions (initialWorld 0)
           eq_refl Hm).
Defined.

(** A read with the deadline [-5] and no retry: the timer of the deadline
    fires after 1 ms. *)
Example negative_deadline :
  let options :=
    {| logRequests := None; enableRetry := None; maxRetries := Some (Some 0);
       timeout := Some (Some (-5)); cache := None; cacheDuration := None |} in
  fst (middlewareSelect (constantEnv (okBody (JArr []))) "lands" None None options
         (initialWorld 0))
  = Ret {| data := JNull; error := JError "Request timeout"; status := StError;
           timestamp := 0; duration := 1; retries := 0 |}.
Proof. vm_compute. reflexivity. Qed.

(** ** Rate windows *)

Lemma checkRateLimit_other_key key key' w :
  key' <> key -> window key' (snd (checkRateLimit key w)) = window key' w.
Proof.
  intros Hne. unfold checkRateLimit.
  destruct (RATE_LIMIT_REQUESTS <=? _)%nat; simpl; [reflexivity|].
  unfold window. simpl. rewrite lookup_insert_ne by congruence. reflexivity.
Qed.

(** X6.  The rate windows are independent: a call changes no window but the
    one of its own key, and a sign-in, sign-up or sign-out changes no window
    at all. *)
Theorem rate_windows_independent (env : Env) (op : Operation) (options : MiddlewareOptions)
    (w : World) (key' : string) :
  rateKey op <> Some key' ->
  window key' (snd (run env op options w)) = window key' w.
Proof.
  intros Hne. unfold window at 1. rewrite run_rateLimitMap.
  destruct (rateKey op) as [key|]; [|reflexivity].
  apply checkRateLimit_other_key. congruence.
Qed.

Lemma rate_windows_independent_witness :
  let w := snd (run failingEnv (OpSelect "lands" None None) noOptions (initialWorld 0)) in
  rateKey (OpInsert "lands" JNull) <> Some "lands:select" /\
  window "lands:select" (snd (run failingEnv (OpInsert "lands" JNull) noOptions w))
  = window "lands:select" w.
Proof.
  intros w.
  assert (rateKey (OpInsert "lands" JNull) <> Some "lands:select") as Hne by discriminate.
  split; [exact Hne|].
  exact (rate_windows_independent failingEnv (OpInsert "lands" JNull) noOptions w
           "lands:select" Hne).
Defined.

(** X7.  Once every timestamp of a window lies 60 seconds or more in the
    past, the quota of the key is whole again: the next call under the key
    is admitted, whatever the length of the stored window, and the stored
    window is then that call's start time alone. *)
Theorem rate_window_expires (env : Env) (op : Operation) (key : string)
    (options : MiddlewareOptions) (w : World) :
  rateKey op = Some key ->
  (forall ts, ts ∈ window key w -> RATE_LIMIT_WINDOW <= clock w - ts) ->
  checkRateLimit key w =
    (Ret true, setRateLimitMap (<[key := [clock w]]> (rateLimitMap w)) w) /\
  window key (snd (run env op options w)) = [clock w].
Proof.
  intros Hkey Hold.
  assert (validTimestamps (clock w) (window key w) = []) as Hnone.
  { unfold validTimestamps. clear Hkey.
    induction (window key w) as [|ts l IH]; [reflexivity|]. simpl.
    assert ((clock w - ts <? RATE_LIMIT_WINDOW) = false) as ->.
    { apply Z.ltb_ge, Hold. left. }
    apply IH. intros ts' Hin. apply Hold. right. exact Hin. }
  assert (checkRateLimit key w =
            (Ret true, setRateLimitMap (<[key := [clock w]]> (rateLimitMap w)) w)) as Hcheck.
  { rewrite checkRateLimit_admitted.
    - rewrite Hnone. reflexivity.
    - unfold windowCount. rewrite Hnone. unfold RATE_LIMIT_REQUESTS. simpl. lia. }
  split; [exact Hcheck|].
  unfold window. rewrite run_rateLimitMap, Hkey, Hcheck. simpl.
  rewrite lookup_insert_eq. reflexivity.
Qed.

(** A full window of 100 calls at time 0, and a call 60 seconds later. *)
Lemma rate_window_expires_witness :
  let op := OpSelect "lands" None None in
  let w := setClock 60000
             (setRateLimitMap {[ "lands:select" := replicate 100 0 ]} (initialWorld 0)) in
  rateKey op = Some "lands:select" /\
  checkRateLimit "lands:select" w =
    (Ret true, setRateLimitMap (<["lands:select" := [clock w]]> (rateLimitMap w)) w) /\
  window "lands:select" (snd (run failingEnv op noOptions w)) = [clock w].
Proof.
  intros op w. split; [reflexivity|].
  apply (rate_window_expires failingEnv op "lands:select" noOptions w eq_refl).
  intros ts Hin.
  assert (window "lands:select" w = replicate 100 0) as Hw by reflexivity.
  rewrite Hw in Hin. apply elem_of_replicate in Hin as [-> _].
  unfold RATE_LIMIT_WINDOW. simpl. lia.
Defined.

Lemma recordedSince_valid t0 t l :
  inWindow t0 t ->
  recordedSince t0 (validTimestamps t l) = recordedSince t0 l.
Proof.
  intros Ht. unfold recordedSince, validTimestamps.
  induction l as [|ts l IH]; [reflexivity|]. simpl.
  destruct (t0 <=? ts) eqn:Hts.
  - assert ((t - ts <? RATE_LIMIT_WINDOW) = true) as ->.
    { apply Z.ltb_lt. apply Z.leb_le in Hts. unfold inWindow in Ht. lia. }
    simpl. rewrite Hts. simpl. rewrite IH. reflexivity.
  - destruct (t - ts <? RATE_LIMIT_WINDOW); simpl; rewrite ?Hts; exact IH.
Qed.

Lemma recordedSince_le t0 l : (recordedSince t0 l <= length l)%nat.
Proof. apply List.filter_length_le. Qed.

Lemma admissions_bounded env key t0 calls :
  forall w,
    Forall (fun call => inWindow t0 (startTime call) /\ rateKey (snd (fst call)) = Some key)
           calls ->
    (admissions env key calls w + recordedSince t0 (window key w)
     <= Nat.max RATE_LIMIT_REQUESTS (recordedSince t0 (window key w)))%nat.
Proof.
  induction calls as [|[[t op] options] calls IH]; intros w Hcalls; [simpl; lia|].
  inversion Hcalls as [|? ? [Ht Hkey] Hrest]; subst. unfold startTime in Ht.
  simpl in Ht, Hkey. simpl admissions.
  specialize (IH (snd (callAt env t op options w)) Hrest).
  assert (window key (snd (callAt env t op options w))
          = window key (snd (checkRateLimit key (setClock t w)))) as Hwin.
  { unfold callAt, window. rewrite run_rateLimitMap, Hkey. reflexivity. }
  rewrite Hwin in IH.
  pose proof (recordedSince_valid t0 t (window key w) Ht) as Hvalid.
  pose proof (recordedSince_le t0 (validTimestamps t (window key w))) as Hle.
  unfold checkRateLimit in *. simpl clock in *.
  change (default [] (rateLimitMap (setClock t w) !! key)) with (window key w) in *.
  destruct (RATE_LIMIT_REQUESTS <=? length (validTimestamps t (window key w)))%nat eqn:Hfull;
    simpl in IH |- *.
  - apply Nat.leb_le in Hfull.
    change (window key (setClock t w)) with (window key w) in IH. lia.
  - apply Nat.leb_gt in Hfull.
    unfold window at 1 3 in IH. simpl in IH. rewrite lookup_insert_eq in IH. simpl in IH.
    assert (recordedSince t0 (validTimestamps t (window key w) ++ [t])
            = S (recordedSince t0 (window key w))) as Hnew.
    { unfold recordedSince in *. rewrite List.filter_app, length_app. simpl.
      assert ((t0 <=? t) = true) as -> by (apply Z.leb_le; unfold inWindow in Ht; lia).
      simpl. lia. }
    rewrite Hnew in IH. lia.
Qed.

(** X8.  The quota holds from every state: of a series of calls under one
    key that all start within one span of 60 seconds, no more than 100 are
    admitted, and fewer when timestamps of that span are already recorded
    for the key. *)
Theorem quota_per_window (env : Env) (key : string) (t0 : Z)
    (calls : list (Z * Operation * MiddlewareOptions)) (w : World) :
  Forall (fun call => inWindow t0 (startTime call) /\ rateKey (snd (fst call)) = Some key)
         calls ->
  (length (window key w) <= RATE_LIMIT_REQUESTS)%nat ->
  (admissions env key calls w + recordedSince t0 (window key w) <= RATE_LIMIT_REQUESTS)%nat.
Proof.
  intros Hcalls Hlen.
  pose proof (admissions_bounded env key t0 calls w Hcalls) as H.
  pose proof (recordedSince_le t0 (window key w)). lia.
Qed.

(** 150 reads of one table within one minute: 100 are admitted. *)
Lemma quota_per_window_witness :
  let calls := replicate 150 (30000, OpSelect "lands" None None, noOptions) in
  Forall (fun call => inWindow 0 (startTime call) /\
                      rateKey (snd (fst call)) = Some "lands:select") calls /\
  (length (window "lands:select" (initialWorld 0)) <= RATE_LIMIT_REQUESTS)%nat /\
  (admissions failingEnv "lands:select" calls (initialWorld 0)
   + recordedSince 0 (window "lands:select" (initialWorld 0)) <= RATE_LIMIT_REQUESTS)%nat.
Proof.
  intros calls.
  assert (Forall (fun call => inWindow 0 (startTime call) /\
                              rateKey (snd (fst call)) = Some "lands:select") calls) as Hcalls.
  { apply Forall_replicate. split; [|reflexivity].
    unfold inWindow, startTime, RATE_LIMIT_WINDOW. simpl. lia. }
  assert (length (window "lands:select" (initialWorld 0)) <= RATE_LIMIT_REQUESTS)%nat as Hlen.
  { assert (window "lands:select" (initialWorld 0) = []) as -> by reflexivity.
    unfold RATE_LIMIT_REQUESTS. simpl. lia. }
  split; [exact Hcalls|]. split; [exact Hlen|].
  exact (quota_per_window failingEnv "lands:select" 0 calls (initialWorld 0) Hcalls Hlen).
Defined.

(** ** Failures *)

Lemma retryLoop_failure fn m n a e w r w' :
  retryLoop fn m n a e w = (Ret r, w') ->
  truthy (retryError r) = true ->
  retryRetries r = m /\ retryData r = JNull.
Proof.
  revert a e w. induction n as [|n IH]; intros a e w Hrun Herr; simpl in Hrun.
  - injection Hrun as <- _. auto.
  - unfold tryCatch, bind at 1 in Hrun.
    destruct (fn w) as [[d|e'] w1].
    + injection Hrun as <- _. discriminate Herr.
    + unfold bind at 1 in Hrun.
      destruct (converted_cases (asError e') w1) as [(err & _ & Hc) | (_ & Hc)];
        rewrite Hc in Hrun; [|discriminate Hrun].
      unfold bind at 1 in Hrun.
      destruct (a <? m); simpl in Hrun; eapply IH; eassumption.
Qed.

(** A run of the loop that ends in a failure leaves alone whatever each
    failed attempt leaves alone. *)
Lemma retryLoop_failure_keeps {X} (part : World -> X) fn m :
  timeless part ->
  (forall w e w1, fn w = (Throw e, w1) -> part w1 = part w) ->
  forall n a e w r w',
    retryLoop fn m n a e w = (Ret r, w') ->
    truthy (retryError r) = true ->
    part w' = part w.
Proof.
  intros Ht Hfn. induction n as [|n IH]; intros a e w r w' Hrun Herr; simpl in Hrun.
  - injection Hrun as _ <-. reflexivity.
  - unfold tryCatch, bind at 1 in Hrun.
    destruct (fn w) as [[d|e'] w1] eqn:Hw.
    + injection Hrun as <- _. discriminate Herr.
    + apply Hfn in Hw. unfold bind at 1 in Hrun.
      destruct (converted_cases (asError e') w1) as [(err & _ & Hc) | (_ & Hc)];
        rewrite Hc in Hrun; [|discriminate Hrun].
      unfold bind at 1 in Hrun.
      destruct (a <? m); simpl in Hrun; apply IH in Hrun; try exact Herr.
      * rewrite Hrun, keeps_elapse by exact Ht. destruct Ht as (_ & Htr). rewrite Htr. exact Hw.
      * rewrite Hrun. exact Hw.
Qed.

(** A run of the loop that throws does the same. *)
Lemma retryLoop_thrown_keeps {X} (part : World -> X) fn m :
  timeless part ->
  (forall w e w1, fn w = (Throw e, w1) -> part w1 = part w) ->
  forall n a e w x w',
    retryLoop fn m n a e w = (Throw x, w') ->
    part w' = part w.
Proof.
  intros Ht Hfn. induction n as [|n IH]; intros a e w x w' Hrun; simpl in Hrun.
  - discriminate Hrun.
  - unfold tryCatch, bind at 1 in Hrun.
    destruct (fn w) as [[d|e'] w1] eqn:Hw.
    + discriminate Hrun.
    + apply Hfn in Hw. unfold bind at 1 in Hrun.
      destruct (converted_cases (asError e') w1) as [(err & _ & Hc) | (_ & Hc)];
        rewrite Hc in Hrun; [|injection Hrun as _ <-; exact Hw].
      unfold bind at 1 in Hrun.
      destruct (a <? m); simpl in Hrun; apply IH in Hrun.
      * rewrite Hrun, keeps_elapse by exact Ht. destruct Ht as (_ & Htr). rewrite Htr. exact Hw.
      * rewrite Hrun. exact Hw.
Qed.

(** X9.  An admitted call that fails after its attempts has used up its
    retries: with [m >= 0] retries, a response whose status is neither
    success nor timeout has [retries = m], no data and an error; its status
    is retry_exhausted for a table operation whose option [maxRetries] is
    not 0, and error for a table operation with [maxRetries] 0 and for every
    auth operation.  A response with the status success has no error.  A
    response with the status timeout has [retries = 0], no data and the
    TypeError of a failed conversion as its error, whatever [m] is; there is
    none when the failures of the remote side can all be converted. *)
Theorem failure_means_retries_used_up (env : Env) (op : Operation)
    (options : MiddlewareOptions) (w : World) :
  hasRoom op w ->
  0 <= retriesOf options ->
  exists r w',
    run env op options w = (Ret r, w') /\
    (status r = StSuccess -> error r = JNull) /\
    (status r <> StSuccess -> status r <> StTimeout ->
     retries r = retriesOf options /\ data r = JNull /\ truthy (error r) = true /\
     status r = match rateKey op, mergedMaxRetries (mergeOptions options) with
                | Some _, Some 0 => StError
                | Some _, _ => StRetryExhausted
                | None, _ => StError
                end) /\
    (status r = StTimeout ->
     retries r = 0 /\ data r = JNull /\ error r = conversionError) /\
    (tame env -> status r <> StTimeout).
Proof.
  intros Hroom Hm.
  destruct (run_anatomy env op options w)
    as (r & w' & Hrun & [Hd | [(w1 & rr & w2 & Ha) | (w1 & w2 & Ht)]]).
  - exfalso. exact (hasRoom_not_denied op w r w' Hroom Hd).
  - exists r, w'. split; [exact Hrun|].
    destruct Ha as (_ & Hretry & _ & _ & Hretries & Hcases).
    rewrite withRetry_retryLoop in Hretry.
    destruct (truthy (retryError rr)) eqn:Herr.
    + destruct Hcases as (Hdata & Herror & Hst & _).
      destruct (retryLoop_failure _ _ _ _ _ _ _ _ Hretry Herr) as (Hused & _).
      assert (status r <> StTimeout) as Hnot.
      { rewrite Hst. unfold failureStatus.
        destruct (rateKey op); [destruct (Z.leb _ _)|]; discriminate. }
      split; [intros Hs; rewrite Hs in Hst|split; [intros _ _|split]].
      * unfold failureStatus in Hst.
        destruct (rateKey op); [destruct (Z.leb _ _)|]; discriminate.
      * rewrite Hretries, Herror, Hst, Hused.
        repeat split; try assumption.
        unfold failureStatus, retriesOf.
        destruct (rateKey op); [|reflexivity].
        destruct (mergedMaxRetries (mergeOptions options)) as [v|]; [|reflexivity].
        destruct (Z.eq_dec v 0) as [->|Hv]; [reflexivity|].
        unfold numberOr. simpl default.
        assert ((v =? 0) = false) as -> by (apply Z.eqb_neq; exact Hv).
        rewrite Z.leb_refl. destruct v; [contradiction | reflexivity | reflexivity].
      * intros Hs. contradiction.
      * intros _. exact Hnot.
    + destruct Hcases as (_ & Herror & Hst & _).
      split; [intros _; exact Herror|].
      split; [intros Hs; contradiction|].
      rewrite Hst. split; [discriminate | intros _; discriminate].
  - exists r, w'. split; [exact Hrun|].
    pose proof Ht as (_ & _ & -> & _). simpl.
    split; [discriminate|]. split; [intros _ Hs; contradiction|].
    split; [auto|].
    intros Htame. exfalso. exact (tame_not_thrown env op options w _ w' w1 w2 Htame Ht).
Qed.

Lemma failure_means_retries_used_up_witness :
  let op := OpSignIn "farmer@example.org" "secret" in
  hasRoom op (initialWorld 0) /\ 0 <= retriesOf noOptions /\
  exists r w',
    run offlineEnv op noOptions (initialWorld 0) = (Ret r, w') /\
    (status r = StSuccess -> error r = JNull) /\
    (status r <> StSuccess -> status r <> StTimeout ->
     retries r = retriesOf noOptions /\ data r = JNull /\ truthy (error r) = true /\
     status r = match rateKey op, mergedMaxRetries (mergeOptions noOptions) with
                | Some _, Some 0 => StError
                | Some _, _ => StRetryExhausted
                | None, _ => StError
                end) /\
    (status r = StTimeout ->
     retries r = 0 /\ data r = JNull /\ error r = conversionError) /\
    (tame offlineEnv -> status r <> StTimeout).
Proof.
  intros op.
  assert (hasRoom op (initialWorld 0)) as Hroom by (intros key; discriminate).
  assert (0 <= retriesOf noOptions) as Hm by (vm_compute; discriminate).
  split; [exact Hroom|]. split; [exact Hm|].
  exact (failure_means_retries_used_up offlineEnv op noOptions (initialWorld 0) Hroom Hm).
Defined.

(** ** What a read does to the cache *)

Lemma withCache_keeps_other key k fn dur :
  k <> key ->
  keeps (fun w => requestCache w !! k) fn ->
  keeps (fun w => requestCache w !! k) (withCache key fn dur).
Proof.
  intros Hne Hfn w. destruct (withCache_cases key fn dur w) as [(c & _ & _ & ->) | ->].
  - reflexivity.
  - unfold missOutcome. specialize (Hfn w).
    destruct (fn w) as [[d|e] w1]; simpl in *; [|exact Hfn].
    rewrite lookup_insert_ne by congruence. exact Hfn.
Qed.

Lemma withCache_throw_keeps key fn dur w e w1 :
  keeps requestCache fn ->
  withCache key fn dur w = (Throw e, w1) ->
  requestCache w1 = requestCache w.
Proof.
  intros Hfn. destruct (withCache_cases key fn dur w) as [(c & _ & _ & ->) | ->].
  - discriminate.
  - unfold missOutcome. specialize (Hfn w).
    destruct (fn w) as [[d|e'] w2]; simpl in *; [discriminate|].
    intros [= _ <-]. exact Hfn.
Qed.

Lemma read_attempt_keeps_other env table columns filters options k :
  k <> generateCacheKey table "select" filters ->
  keeps (fun w => requestCache w !! k) (attemptOf env (OpSelect table columns filters) options).
Proof.
  intros Hk. simpl. destruct (default false _);
    [apply withCache_keeps_other; [exact Hk|]|];
    apply keeps_settleQuery; split; reflexivity.
Qed.

Lemma read_attempt_throw_keeps env table columns filters options w e w1 :
  attemptOf env (OpSelect table columns filters) options w = (Throw e, w1) ->
  requestCache w1 = requestCache w.
Proof.
  simpl. destruct (default false _).
  - apply withCache_throw_keeps, keeps_settleQuery. split; reflexivity.
  - intros Hw.
    match type of Hw with
    | ?f w = _ =>
        assert (keeps requestCache f) as Hk by (apply keeps_settleQuery; split; reflexivity)
    end.
    specialize (Hk w). rewrite Hw in Hk. exact Hk.
Qed.

Lemma read_attempt_uncached env table columns filters options :
  ~ cacheOn options ->
  keeps requestCache (attemptOf env (OpSelect table columns filters) options).
Proof.
  unfold cacheOn. intros Hoff. simpl.
  destruct (default false _); [contradiction|].
  apply keeps_settleQuery. split; reflexivity.
Qed.

(** X10.  A read writes no cache entry but its own: every entry under
    another key is as it was.  A read that does not end with the status
    success, and a read with the cache option off, leave the whole cache as
    it was; in particular a stale entry stays in place when the read that
    found it fails. *)
Theorem read_cache_footprint (env : Env) (table : string) (columns : option string)
    (filters : option Props) (options : MiddlewareOptions) (w : World) :
  exists r w',
    middlewareSelect env table columns filters options w = (Ret r, w') /\
    (forall k, k <> generateCacheKey table "select" filters ->
               requestCache w' !! k = requestCache w !! k) /\
    (status r <> StSuccess -> requestCache w' = requestCache w) /\
    (~ cacheOn options -> requestCache w' = requestCache w).
Proof.
  destruct (run_anatomy env (OpSelect table columns filters) options w)
    as (r & w' & Hrun & [Hd | [(w1 & rr & w2 & Ha) | (w1 & w2 & Ht)]]);
    exists r, w'; (split; [exact Hrun|]).
  - destruct Hd as (key & _ & _ & _ & ->). simpl. auto.
  - destruct Ha as (Hadm & Hretry & _ & _ & _ & Hcases).
    apply admitted_frame in Hadm as (_ & Hcache & _).
    assert (requestCache w' = requestCache w2) as Hend.
    { destruct (truthy (retryError rr)); destruct Hcases as (_ & _ & _ & ->); reflexivity. }
    rewrite Hend. split; [|split].
    + intros k Hk. rewrite <- Hcache.
      pose proof (keeps_withRetry (fun w => requestCache w !! k)
                    (ltac:(split; reflexivity)) _
                    (mergedMaxRetries (mergeOptions options))
                    (read_attempt_keeps_other env table columns filters options k Hk) w1)
        as Hkeep.
      rewrite Hretry in Hkeep. exact Hkeep.
    + intros Hstatus. rewrite <- Hcache.
      destruct (truthy (retryError rr)) eqn:Herr.
      * rewrite withRetry_retryLoop in Hretry.
        eapply (retryLoop_failure_keeps requestCache); [| |exact Hretry|exact Herr].
        -- split; reflexivity.
        -- intros w0 e w3. apply read_attempt_throw_keeps.
      * destruct Hcases as (_ & _ & Hst & _). contradiction.
    + intros Hoff. rewrite <- Hcache.
      pose proof (keeps_withRetry requestCache (ltac:(split; reflexivity)) _
                    (mergedMaxRetries (mergeOptions options))
                    (read_attempt_uncached env table columns filters options Hoff) w1)
        as Hkeep.
      rewrite Hretry in Hkeep. exact Hkeep.
  - destruct Ht as (Hadm & Hretry & _ & ->).
    apply admitted_frame in Hadm as (_ & Hcache & _).
    change (requestCache (snd (logMetric ?a ?b ?c ?d ?e w2))) with (requestCache w2).
    assert (requestCache w2 = requestCache w) as Hkept.
    { rewrite <- Hcache. rewrite withRetry_retryLoop in Hretry.
      eapply (retryLoop_thrown_keeps requestCache); [| |exact Hretry].
      - split; reflexivity.
      - intros w0 e w3. apply read_attempt_throw_keeps. }
    rewrite Hkept. auto.
Qed.

(** ** Reads after the cache was invalidated *)

Lemma prefix_append (s t : string) : String.prefix s (s +:+ t) = true.
Proof.
  induction s as [|c s IH]; [destruct t; reflexivity|].
  rewrite append_cons. simpl. destruct (ascii_dec c c); [exact IH | contradiction].
Qed.

Lemma cacheKey_prefix table operation params :
  String.prefix (table +:+ ":") (generateCacheKey table operation params) = true.
Proof.
  unfold generateCacheKey. rewrite <- (append_assoc table ":"). apply prefix_append.
Qed.

Lemma retryLoop_first fn m n a e w :
  respects continues fn ->
  continues (snd (fn w)) (snd (retryLoop fn m (S n) a e w)).
Proof.
  intros Hfn. simpl retryLoop. unfold tryCatch, bind at 1.
  destruct (fn w) as [[d|e'] w1]; simpl.
  - exists []. rewrite app_nil_r. reflexivity.
  - apply (respects_bind continues continues_step); [apply respects_converted, continues_step|].
    intros err. apply (respects_bind continues continues_step).
    + apply respects_if; [apply respects_sleep, continues_step | apply respects_ret, continues_step].
    + intros _. apply respects_retryLoop; [apply continues_step | exact Hfn].
Qed.

Lemma read_attempt_first env table columns filters options w :
  (cacheOn options -> requestCache w !! generateCacheKey table "select" filters = None) ->
  trace (snd (attemptOf env (OpSelect table columns filters) options w)) =
  trace w ++ [EvRequest (ReqSelect table (default "*" columns) (clauses (default [] filters)))].
Proof.
  unfold cacheOn. intros Hmiss. simpl.
  destruct (default false _).
  - rewrite withCache_absent by (apply Hmiss; reflexivity). unfold missOutcome.
    match goal with
    | |- context [settleQuery env ?q ?ms w] =>
        pose proof (settleQuery_trace env q ms w) as Htr;
        destruct (settleQuery env q ms w) as [[d|e] w1]
    end; exact Htr.
  - apply settleQuery_trace.
Qed.

(** A read that finds no entry under its key sends its query. *)
Lemma read_sends env table columns filters options w :
  hasRoom (OpSelect table columns filters) w ->
  0 <= retriesOf options ->
  (cacheOn options -> requestCache w !! generateCacheKey table "select" filters = None) ->
  exists r w' rest,
    middlewareSelect env table columns filters options w = (Ret r, w') /\
    trace w' =
      trace w ++
      EvRequest (ReqSelect table (default "*" columns) (clauses (default [] filters))) :: rest.
Proof.
  intros Hroom Hm Hmiss.
  assert (forall w1 res w2,
            admitted (OpSelect table columns filters) w w1 ->
            withRetry (attemptOf env (OpSelect table columns filters) options)
              (mergedMaxRetries (mergeOptions options)) w1 = (res, w2) ->
            exists rest,
              trace w2 =
                trace w ++
                EvRequest (ReqSelect table (default "*" columns) (clauses (default [] filters)))
                  :: rest) as Hsent.
  { intros w1 res w2 Hadm Hretry.
    apply admitted_frame in Hadm as (_ & Hcache & Htrace & _).
    rewrite withRetry_retryLoop in Hretry.
    destruct (Z.to_nat (retriesOf options + 1)) as [|n] eqn:Hn; [lia|].
    pose proof (retryLoop_first (attemptOf env (OpSelect table columns filters) options)
                  (retriesOf options) n 0 JNull w1
                  (respects_attemptOf continues continues_step env _ options)) as (rest & Hrest).
    rewrite Hretry in Hrest. change (snd (res, w2)) with w2 in Hrest.
    rewrite read_attempt_first in Hrest by (rewrite Hcache; exact Hmiss).
    exists rest. rewrite Hrest, Htrace, <- app_assoc. reflexivity. }
  destruct (run_anatomy env (OpSelect table columns filters) options w)
    as (r & w' & Hrun & [Hd | [(w1 & rr & w2 & Ha) | (w1 & w2 & Ht)]]).
  - exfalso. exact (hasRoom_not_denied _ w r w' Hroom Hd).
  - destruct Ha as (Hadm & Hretry & _ & _ & _ & Hcases).
    assert (trace w' = trace w2) as Hend.
    { destruct (truthy (retryError rr)); destruct Hcases as (_ & _ & _ & ->); reflexivity. }
    destruct (Hsent _ _ _ Hadm Hretry) as (rest & Hrest).
    exists r, w', rest. split; [exact Hrun|]. rewrite Hend. exact Hrest.
  - destruct Ht as (Hadm & Hretry & _ & Hend).
    destruct (Hsent _ _ _ Hadm Hretry) as (rest & Hrest).
    exists r, w', rest. split; [exact Hrun|]. rewrite Hend. exact Hrest.
Qed.

(** X11.  After a mutation of a table that ended with the status success,
    after a sign-out that ended with the status success and after
    [clearCache], the next read of the table does not find the earlier
    payload: provided it is admitted and has [maxRetries >= 0], it sends its
    query to the backend, whatever its filters, its columns, its options and
    the time that has passed. *)
Theorem read_after_invalidation_is_sent (env : Env) (table : string)
    (columns : option string) (filters : option Props) (options' : MiddlewareOptions)
    (w1 : World) (t : Z) :
  (exists op options w r,
      run env op options w = (Ret r, w1) /\ status r = StSuccess /\
      (mutationTable op = Some table \/ exists token, op = OpSignOut token)) \/
  (exists w, w1 = snd (clearCache w)) ->
  hasRoom (OpSelect table columns filters) (setClock t w1) ->
  0 <= retriesOf options' ->
  exists r2 w2 rest,
    middlewareSelect env table columns filters options' (setClock t w1) = (Ret r2, w2) /\
    trace w2 =
      trace w1 ++
      EvRequest (ReqSelect table (default "*" columns) (clauses (default [] filters))) :: rest.
Proof.
  intros Hinv Hroom Hm.
  apply (read_sends env table columns filters options' (setClock t w1) Hroom Hm).
  intros _. simpl.
  destruct Hinv as [(op & options & w & r & Hrun & Hst & Hop) | (w & ->)].
  - assert (requestCache w1 = cacheAfterSuccess op (requestCache w)) as ->.
    { destruct Hop as [Hop | (token & ->)].
      - assert (exists r0 w0, run env op options w = (Ret r0, w0) /\
                  requestCache w0 = if decide (status r0 = StSuccess)
                                    then invalidate table (requestCache w)
                                    else requestCache w) as (r0 & w0 & Hrun0 & Hc).
        { destruct op; simpl in Hop; try discriminate; injection Hop as <-; simpl.
          - apply insert_cache.
          - apply update_cache.
          - apply delete_cache. }
        rewrite Hrun in Hrun0. injection Hrun0 as <- <-.
        rewrite decide_True in Hc by exact Hst. rewrite Hc.
        destruct op; simpl in Hop; try discriminate; injection Hop as <-; reflexivity.
      - destruct (signOut_shape env token options w) as (r0 & w0 & Hrun0 & Hc).
        simpl in Hrun. rewrite Hrun in Hrun0. injection Hrun0 as <- <-.
        destruct Hc as [(_ & _ & Hc) | [(Hs & _) | (Hs & _)]];
          [exact Hc | congruence | congruence]. }
    destruct Hop as [Hop | (token & ->)].
    + destruct op; simpl in Hop; try discriminate; injection Hop as <-; simpl;
        rewrite invalidate_lookup, cacheKey_prefix; reflexivity.
    + simpl. apply lookup_empty.
  - simpl. apply lookup_empty.
Qed.

(** A cached read of [lands], a successful insert into [lands], and the
    same read again. *)
Lemma read_after_invalidation_is_sent_witness :
  let env := constantEnv (okBody (JArr [])) in
  let w1 := snd (run env (OpInsert "lands" (JObj [])) noOptions (cachedWorld 0)) in
  exists r2 w2 rest,
    middlewareSelect env "lands" None None noOptions (setClock 1000 w1) = (Ret r2, w2) /\
    trace w2 = trace w1 ++ EvRequest (ReqSelect "lands" "*" []) :: rest.
Proof.
  intros env w1.
  apply (read_after_invalidation_is_sent env "lands" None None noOptions w1 1000).
  - left. exists (OpInsert "lands" (JObj [])), noOptions, (cachedWorld 0).
    eexists. split; [vm_compute; reflexivity|]. split; [reflexivity|]. left. reflexivity.
  - intros key [= <-]. vm_compute. lia.
  - vm_compute. discriminate.
Defined.

(** X12.  The columns of a read are not part of its cache key: after a
    cached read that ended with the status success, a read of the same table
    with the same filters is answered from the cache with the payload of the
    first read, whatever columns and whatever other options it asks for, as
    long as the entry is fresh for it and it is admitted; no request is
    sent. *)
Theorem cached_read_ignores_columns (env : Env) (table : string)
    (columns columns' : option string) (filters : option Props)
    (options options' : MiddlewareOptions) (w : World) (r1 : MiddlewareResponse)
    (w1 : World) :
  cacheOn options ->
  0 <= retriesOf options ->
  middlewareSelect env table columns filters options w = (Ret r1, w1) ->
  status r1 = StSuccess ->
  exists c,
    requestCache w1 !! generateCacheKey table "select" filters = Some c /\
    forall t2,
      cacheOn options' ->
      0 <= retriesOf options' ->
      t2 - cachedTimestamp c < cacheDurationOf options' ->
      hasRoom (OpSelect table columns' filters) (setClock t2 w1) ->
      exists w2,
        middlewareSelect env table columns' filters options' (setClock t2 w1) =
          (Ret {| data := data r1; error := JNull; status := StSuccess;
                  timestamp := t2; duration := 0; retries := 0 |}, w2) /\
        trace w2 = trace w1.
Proof.
  intros Hon Hm Hrun Hst.
  destruct (select_populates env table columns filters options w r1 w1 Hon Hm Hrun Hst)
    as (c & Hc & Hdata & _).
  exists c. split; [exact Hc|].
  intros t2 Hon' Hm' Hfresh Hroom.
  destruct (select_hit env table columns' filters options' (setClock t2 w1) c
              Hon' Hm' (Hroom _ eq_refl) Hc Hfresh) as (w2 & Hrun2 & Htrace & _).
  exists w2. rewrite <- Hdata. split; assumption.
Qed.

(** A read of the column [id] of [lands], and a read of all columns one
    second later. *)
Lemma cached_read_ignores_columns_witness :
  let env := constantEnv (okBody (JArr [JObj [("id", JNum 7)]])) in
  let w1 := snd (middlewareSelect env "lands" (Some "id") None noOptions (initialWorld 0)) in
  exists c,
    requestCache w1 !! generateCacheKey "lands" "select" None = Some c /\
    forall t2,
      cacheOn noOptions ->
      0 <= retriesOf noOptions ->
      t2 - cachedTimestamp c < cacheDurationOf noOptions ->
      hasRoom (OpSelect "lands" None None) (setClock t2 w1) ->
      exists w2,
        middlewareSelect env "lands" None None noOptions (setClock t2 w1) =
          (Ret {| data := JArr [JObj [("id", JNum 7)]]; error := JNull; status := StSuccess;
                  timestamp := t2; duration := 0; retries := 0 |}, w2) /\
        trace w2 = trace w1.
Proof.
  intros env w1.
  apply (cached_read_ignores_columns env "lands" (Some "id") None None noOptions noOptions
           (initialWorld 0)
           {| data := JArr [JObj [("id", JNum 7)]]; error := JNull; status := StSuccess;
              timestamp := 0; duration := 10; retries := 0 |} w1).
  - reflexivity.
  - vm_compute. discriminate.
  - vm_compute. reflexivity.
  - reflexivity.
Defined.

(** ** Tables and their cache entries *)

Lemma prefix_cons (c1 c2 : ascii) (s1 s2 : string) :
  String.prefix (String c1 s1) (String c2 s2) =
  if ascii_dec c1 c2 then String.prefix s1 s2 else false.
Proof. reflexivity. Qed.

Lemma colonFree_cons (c : ascii) (s : string) :
  colonFree (String c s) = true -> c <> ":"%char /\ colonFree s = true.
Proof.
  change (colonFree (String c s)) with (negb (Ascii.eqb c ":") && colonFree s).
  intros H. apply andb_prop in H as (Hc & Hs). split; [|exact Hs].
  intros ->. discriminate Hc.
Qed.

Lemma prefix_colon (t1 t2 rest : string) :
  colonFree t1 = true -> colonFree t2 = true ->
  String.prefix (t1 +:+ ":") (t2 +:+ ":" +:+ rest) = true -> t1 = t2.
Proof.
  revert t2. induction t1 as [|c t1 IH]; intros [|c2 t2] H1 H2 Hp.
  - reflexivity.
  - apply colonFree_cons in H2 as (H2 & _).
    rewrite append_nil, append_cons, prefix_cons in Hp.
    destruct (ascii_dec ":" c2) as [<-|]; [contradiction | discriminate Hp].
  - apply colonFree_cons in H1 as (H1 & _).
    rewrite append_nil, !append_cons, prefix_cons in Hp.
    destruct (ascii_dec c ":") as [->|]; [contradiction | discriminate Hp].
  - apply colonFree_cons in H1 as (_ & H1). apply colonFree_cons in H2 as (_ & H2).
    rewrite !append_cons, prefix_cons in Hp.
    destruct (ascii_dec c c2) as [<-|]; [|discriminate Hp].
    f_equal. exact (IH t2 H1 H2 Hp).
Qed.

(** X13.  A mutation of one table spares the cached reads of the other
    tables: for table names without a colon, an insert, update or delete on
    [table] leaves every cache entry of a different table as it was,
    whatever its outcome. *)
Theorem mutation_spares_other_tables (env : Env) (op : Operation) (table table' : string)
    (operation : string) (params : option Props) (options : MiddlewareOptions) (w : World) :
  mutationTable op = Some table ->
  colonFree table = true ->
  colonFree table' = true ->
  table <> table' ->
  requestCache (snd (run env op options w)) !! generateCacheKey table' operation params =
  requestCache w !! generateCacheKey table' operation params.
Proof.
  intros Hop Hc Hc' Hne.
  assert (exists r0 w0, run env op options w = (Ret r0, w0) /\
            requestCache w0 = if decide (status r0 = StSuccess)
                              then invalidate table (requestCache w)
                              else requestCache w) as (r0 & w0 & Hrun & Hcache).
  { destruct op; simpl in Hop; try discriminate; injection Hop as <-; simpl.
    - apply insert_cache.
    - apply update_cache.
    - apply delete_cache. }
  rewrite Hrun. simpl snd. rewrite Hcache.
  destruct (decide _); [|reflexivity].
  rewrite invalidate_lookup.
  destruct (String.prefix _ _) eqn:Hp; [|reflexivity].
  exfalso. apply Hne. unfold generateCacheKey in Hp.
  rewrite <- (append_assoc operation) in Hp.
  exact (prefix_colon table table' _ Hc Hc' Hp).
Qed.

(** A cached read of [lands] and an insert into [farmers]. *)
Lemma mutation_spares_other_tables_witness :
  let env := constantEnv (okBody (JArr [])) in
  requestCache (snd (run env (OpInsert "farmers" (JObj [])) noOptions (cachedWorld 0)))
    !! generateCacheKey "lands" "select" None =
  requestCache (cachedWorld 0) !! generateCacheKey "lands" "select" None.
Proof.
  intros env.
  apply (mutation_spares_other_tables env (OpInsert "farmers" (JObj [])) "farmers" "lands").
  - reflexivity.
  - reflexivity.
  - reflexivity.
  - discriminate.
Defined.

(** A table whose name continues the name of another table with a colon
    loses its entries with it. *)
Example mutation_reaches_colon_tables :
  let env := constantEnv (okBody (JArr [])) in
  let w :=
    setRequestCache
      {[ generateCacheKey "lands:archive" "select" None :=
           {| cachedData := JArr [JNum 1]; cachedTimestamp := 0 |} ]}
      (initialWorld 0) in
  requestCache (snd (run env (OpInsert "lands" (JObj [])) noOptions w)) = ∅.
Proof. vm_compute. reflexivity. Qed.

(** ** The auth operations *)

Lemma await_trace env req w :
  trace (snd (await env req w)) = trace w ++ [EvRequest req].
Proof. unfold await. destruct (outcome _); reflexivity. Qed.

Lemma bind_first {A B} (m : M A) (k : A -> M B) w :
  (forall a, respects continues (k a)) ->
  continues (snd (m w)) (snd (bind m k w)).
Proof.
  intros Hk. unfold bind. destruct (m w) as [[a|e] w1]; simpl.
  - apply Hk.
  - apply (step_refl continues continues_step).
Qed.

Ltac continue_steps :=
  repeat first
    [ apply (respects_ret continues continues_step)
    | apply (respects_throw continues continues_step)
    | apply (respects_getProp continues continues_step)
    | apply (respects_await continues continues_step)
    | apply (respects_converted continues continues_step)
    | apply (respects_bind continues continues_step)
    | apply (respects_if continues continues_step)
    | match goal with
      | |- respects _ (match ?x with _ => _ end) => destruct x
      | |- forall _, _ => intro
      end ].

Lemma callApi_first env path headers body fallback w :
  exists rest,
    trace (snd (callApi env path headers body fallback w)) =
    trace w ++ EvRequest (ReqFetch (API_URL env +:+ path) headers body) :: rest.
Proof.
  destruct (bind_first (await env (ReqFetch (API_URL env +:+ path) headers body))
              (fun response =>
                 getProp "json" response;;
                 let* result := await env ReqJson in
                 let* ok := getProp "ok" response in
                 let* refused :=
                   if negb (truthy ok) then ret true
                   else let* st := getProp "status" result in
                        ret (match st with JStr s => String.eqb s "error" | _ => false end) in
                 if refused : bool then
                   let* e := getProp "error" result in
                   let* err := converted (newError (orElse e (JStr fallback))) in
                   throw err
                 else ret result) w) as (rest & Hrest).
  { continue_steps. }
  exists rest. unfold callApi. rewrite Hrest, await_trace, <- app_assoc. reflexivity.
Qed.

Lemma then_first {A B} (m : M A) (k : A -> M B) w first :
  (forall a, respects continues (k a)) ->
  (exists rest, trace (snd (m w)) = trace w ++ first :: rest) ->
  exists rest, trace (snd (bind m k w)) = trace w ++ first :: rest.
Proof.
  intros Hk (rest & Hm). destruct (bind_first m k w Hk) as (rest' & Hrest).
  exists (rest ++ rest'). rewrite Hrest, Hm, <- app_assoc. reflexivity.
Qed.

(** The first thing that an attempt of an auth operation does is to call
    the backend API. *)
Lemma auth_attempt_first env op options w :
  rateKey op = None ->
  exists headers body rest,
    trace (snd (attemptOf env op options w)) =
    trace w ++ EvRequest (ReqFetch (API_URL env +:+ authPath op) headers body) :: rest.
Proof.
  intros Hop. destruct op; try discriminate Hop; simpl attemptOf; simpl authPath;
    do 2 eexists; (apply then_first; [continue_steps | apply callApi_first]).
Qed.

(** With [maxRetries >= 0] the attempts of a call start with a run of the
    attempt function, whether [withRetry] returns or throws. *)
Lemma attempts_first env op options w1 res w2 :
  withRetry (attemptOf env op options) (mergedMaxRetries (mergeOptions options)) w1
    = (res, w2) ->
  0 <= retriesOf options ->
  continues (snd (attemptOf env op options w1)) w2.
Proof.
  intros Hretry Hm.
  rewrite withRetry_retryLoop in Hretry.
  destruct (Z.to_nat (retriesOf options + 1)) as [|n] eqn:Hn; [lia|].
  pose proof (retryLoop_first (attemptOf env op options) (retriesOf options) n 0 JNull w1
                (respects_attemptOf continues continues_step env op options))
    as (rest & Hrest).
  rewrite Hretry in Hrest. change (snd (res, w2)) with w2 in Hrest.
  exists rest. exact Hrest.
Qed.

(** X14.  A sign-in, a sign-up and a sign-out are never refused admission:
    with [maxRetries >= 0] the call always sends a request to the path of
    the operation under [API_URL], whatever calls came before it.  Its
    status is success, error or timeout, and it is success or error when the
    failures of the remote side can all be converted to Errors.  A sign-in
    and a sign-up leave the request cache as it was. *)
Theorem auth_call_always_attempted (env : Env) (op : Operation)
    (options : MiddlewareOptions) (w : World) :
  rateKey op = None ->
  0 <= retriesOf options ->
  exists r w' headers body rest,
    run env op options w = (Ret r, w') /\
    (status r = StSuccess \/ status r = StError \/ status r = StTimeout) /\
    (tame env -> status r = StSuccess \/ status r = StError) /\
    trace w' =
      trace w ++ EvRequest (ReqFetch (API_URL env +:+ authPath op) headers body) :: rest /\
    ((forall token, op <> OpSignOut token) -> requestCache w' = requestCache w).
Proof.
  intros Hop Hm.
  destruct (auth_attempt_first env op options w Hop) as (headers & body & rest & Hfirst).
  assert ((forall token, op <> OpSignOut token) ->
          forall res w2,
            withRetry (attemptOf env op options) (mergedMaxRetries (mergeOptions options)) w
              = (res, w2) ->
            requestCache w2 = requestCache w) as Hkept.
  { intros Hnot res w2 Hretry.
    assert (keeps requestCache (withRetry (attemptOf env op options)
                                  (mergedMaxRetries (mergeOptions options)))) as Hk.
    { apply keeps_withRetry; [split; reflexivity|].
      destruct op; try discriminate Hop; simpl attemptOf.
      - apply keeps_executeSign. split; reflexivity.
      - apply keeps_executeSign. split; reflexivity.
      - exfalso. exact (Hnot token eq_refl). }
    specialize (Hk w). rewrite Hretry in Hk. exact Hk. }
  destruct (run_anatomy env op options w)
    as (r & w' & Hrun & [(key & Hkey & _) | [(w1 & rr & w2 & Ha) | (w1 & w2 & Ht)]]);
    [congruence | |].
  - destruct Ha as (Hadm & Hretry & _ & _ & _ & Hcases).
    unfold admitted in Hadm. rewrite Hop in Hadm. subst w1.
    destruct (attempts_first env op options w _ w2 Hretry Hm) as (rest' & Hrest).
    assert (trace w' = trace w2) as Hend.
    { destruct (truthy (retryError rr)); destruct Hcases as (_ & _ & _ & ->); reflexivity. }
    assert (status r = StSuccess \/ status r = StError) as Hstatus.
    { unfold failureStatus in Hcases. rewrite Hop in Hcases.
      destruct (truthy (retryError rr)); destruct Hcases as (_ & _ & -> & _); auto. }
    exists r, w', headers, body, (rest ++ rest'). split; [exact Hrun|].
    split; [tauto|]. split; [intros _; exact Hstatus|]. split.
    + rewrite Hend, Hrest, Hfirst, <- app_assoc. reflexivity.
    + intros Hnot. specialize (Hkept Hnot _ _ Hretry).
      destruct (truthy (retryError rr)); destruct Hcases as (_ & _ & _ & ->); simpl.
      * exact Hkept.
      * destruct op; try discriminate Hop; simpl; try exact Hkept.
        exfalso. exact (Hnot token eq_refl).
  - pose proof Ht as (Hadm & Hretry & Hr & Hend).
    unfold admitted in Hadm. rewrite Hop in Hadm. subst w1.
    destruct (attempts_first env op options w _ w2 Hretry Hm) as (rest' & Hrest).
    exists r, w', headers, body, (rest ++ rest'). split; [exact Hrun|].
    split; [rewrite Hr; auto|]. split; [|split].
    + intros Htame. exfalso. exact (tame_not_thrown env op options w r w' w w2 Htame Ht).
    + rewrite Hend. simpl. rewrite Hrest, Hfirst, <- app_assoc. reflexivity.
    + intros Hnot. rewrite Hend. exact (Hkept Hnot _ _ Hretry).
Qed.

(** The sign-in that follows a hundred sign-ins within one second. *)
Lemma auth_call_always_attempted_witness :
  let env := constantEnv (JObj [("ok", JBool true)]) in
  let w := session env (repeat (0, OpSignIn "a@b.c" "secret", noOptions) 100) (initialWorld 0) in
  exists r w' headers body rest,
    run env (OpSignIn "a@b.c" "secret") noOptions w = (Ret r, w') /\
    (status r = StSuccess \/ status r = StError \/ status r = StTimeout) /\
    (tame env -> status r = StSuccess \/ status r = StError) /\
    trace w' =
      trace w ++ EvRequest (ReqFetch (API_URL env +:+ "/auth/signin") headers body) :: rest /\
    ((forall token, OpSignIn "a@b.c" "secret" <> OpSignOut token) ->
     requestCache w' = requestCache w).
Proof.
  intros env w.
  apply (auth_call_always_attempted env (OpSignIn "a@b.c" "secret") noOptions w).
  - reflexivity.
  - vm_compute. discriminate.
Defined.

(** A sign-in whose answer carries an error that cannot be converted to a
    string: [new Error] throws its TypeError inside the attempt, which is
    retried as any other failure. *)
Example signIn_opaque_error :
  let r := fst (middlewareAuthSignIn (constantEnv opaqueErrorBody) "a@b.c" "secret" noOptions
                  (initialWorld 0)) in
  r = Ret {| data := JNull; error := conversionError; status := StError;
             timestamp := 0; duration := 7080; retries := 3 |}.
Proof. vm_compute. reflexivity. Qed.

(** A sign-in whose request is rejected with a value that cannot be
    converted to a string ends with the status timeout after one request. *)
Example signIn_opaque_rejection :
  let env :=
    {| API_URL := "http://localhost:5001";
       reply := fun _ => {| latency := 10;
                            outcome := Rejected (JObj [("toString", JNum 1)]) |} |} in
  let r := fst (middlewareAuthSignIn env "a@b.c" "secret" noOptions (initialWorld 0)) in
  r = Ret {| data := JNull; error := conversionError; status := StTimeout;
             timestamp := 0; duration := 10; retries := 0 |}.
Proof. vm_compute. reflexivity. Qed.

(** ** What a call reads of its options *)

Lemma numberOr_idem (n : option Z) (d : Z) :
  d <> 0 -> numberOr (Some (numberOr n d)) d = numberOr n d.
Proof.
  intros Hd. unfold numberOr. destruct n as [v|].
  - destruct (v =? 0) eqn:Hv; [|rewrite Hv; reflexivity].
    apply Z.eqb_neq in Hd. rewrite Hd. reflexivity.
  - apply Z.eqb_neq in Hd. rewrite Hd. reflexivity.
Qed.

Lemma numberOr_default (n : option Z) (d : Z) :
  d <> 0 -> numberOr (Some (default d n)) d = numberOr n d.
Proof.
  intros Hd. destruct n as [v|]; [reflexivity|]. simpl.
  apply Z.eqb_neq in Hd. rewrite Hd. reflexivity.
Qed.

Lemma withCache_default key fn dur :
  withCache key fn dur = withCache key fn (Some (durationOf dur)).
Proof. destruct dur; reflexivity. Qed.

Lemma run_spelledOut env op options w :
  run env op options w = run env op (spelledOut options) w.
Proof.
  assert (numberOr (Some (timeoutOf options)) 30000 = timeoutOf options) as Ht
    by (apply numberOr_idem; discriminate).
  assert (numberOr (Some (retriesOf options)) 3 =
          numberOr (mergedMaxRetries (mergeOptions options)) 3) as Hr
    by (apply numberOr_default; discriminate).
  destruct op; simpl run;
    [ unfold middlewareSelect | unfold middlewareInsert | unfold middlewareUpdate
    | unfold middlewareDelete | unfold middlewareAuthSignIn, authCall
    | unfold middlewareAuthSignUp, authCall | unfold middlewareAuthSignOut ];
    unfold failed;
    change (mergedMaxRetries (mergeOptions (spelledOut options)))
      with (Some (retriesOf options));
    change (mergedTimeout (mergeOptions (spelledOut options)))
      with (Some (timeoutOf options));
    change (mergedCache (mergeOptions (spelledOut options)))
      with (Some (default false (mergedCache (mergeOptions options))));
    change (mergedCacheDuration (mergeOptions (spelledOut options)))
      with (Some (cacheDurationOf options));
    rewrite ?Ht, ?Hr;
    rewrite (withRetry_default _ (mergedMaxRetries (mergeOptions options)));
    try rewrite (withCache_default _ _ (mergedCacheDuration (mergeOptions options)));
    reflexivity.
Qed.

Lemma spelledOut_same options options' :
  sameSettings options options' -> spelledOut options = spelledOut options'.
Proof.
  intros (Hr & Ht & Hc & Hd). unfold spelledOut. rewrite Hr, Ht, Hd.
  unfold cacheOn in Hc.
  destruct (default false (mergedCache (mergeOptions options))),
           (default false (mergedCache (mergeOptions options'))); try reflexivity.
  - destruct Hc as (Hc & _). discriminate (Hc eq_refl).
  - destruct Hc as (_ & Hc). discriminate (Hc eq_refl).
Qed.

(** X15.  A call reads four settings of its options and nothing else: the
    number of retries ([maxRetries], 3 when it is absent or undefined), the
    deadline of a query ([timeout], 30000 when it is absent, undefined or
    0), whether reads are cached ([cache], on when absent, off when
    undefined) and for how long ([cacheDuration], 300000 when it is absent or
    undefined).  Two options objects that agree on the four give the same
    response and the same world, for every operation; [logRequests] and
    [enableRetry] make no difference. *)
Theorem options_read_as_four_settings (env : Env) (op : Operation)
    (options options' : MiddlewareOptions) (w : World) :
  sameSettings options options' ->
  run env op options w = run env op options' w.
Proof.
  intros Hsame.
  rewrite (run_spelledOut env op options), (run_spelledOut env op options').
  rewrite (spelledOut_same options options' Hsame). reflexivity.
Qed.

(** The options [{ timeout: 0, maxRetries: undefined, logRequests: false }]
    and the options [{}]. *)
Lemma options_read_as_four_settings_witness :
  let options :=
    {| logRequests := Some (Some false); enableRetry := None; maxRetries := Some None;
       timeout := Some (Some 0); cache := None; cacheDuration := None |} in
  run failingEnv (OpSelect "lands" None None) options (initialWorld 0) =
  run failingEnv (OpSelect "lands" None None) noOptions (initialWorld 0).
Proof.
  intros options.
  apply (options_read_as_four_settings failingEnv (OpSelect "lands" None None)
           options noOptions (initialWorld 0)).
  repeat split; intros H; exact H.
Defined.

(** * Properties of the route guard *)

Lemma isAuthenticated_names request :
  isAuthenticated request = existsb authName (map cookieName (cookies request)).
Proof.
  unfold isAuthenticated, hasAuthCookie, hasSessionToken, authName.
  induction (cookies request) as [|c cs IH]; [reflexivity|].
  simpl. destruct (String.eqb (cookieName c) "agrishield-session") eqn:Hc.
  - rewrite !orb_true_r. reflexivity.
  - rewrite orb_false_r. rewrite <- IH.
    destruct (includes (cookieName c) "auth-token" || includes (cookieName c) "sb-");
      reflexivity.
Qed.

(** X16.  The guard never starts a redirect loop: the request that follows
    a redirect of the guard, to the path of the redirect and with the same
    cookies, is let through. *)
Theorem guard_redirect_is_let_through (request : NextRequest) (path : string)
    (searchParams : list (string * string)) :
  middleware request = ResRedirect path searchParams ->
  middleware (followTo path request) = ResNext.
Proof.
  unfold middleware.
  change (isAuthenticated (followTo path request)) with (isAuthenticated request).
  change (pathname (followTo path request)) with path.
  destruct (isIgnored (pathname request)); [discriminate|].
  destruct (isPublic (pathname request)), (isAuthenticated request);
    intros [= <- <-]; reflexivity.
Qed.

Lemma guard_redirect_is_let_through_witness :
  let request := {| pathname := "/dashboard/lands"; cookies := [] |} in
  middleware (followTo "/login" request) = ResNext.
Proof.
  intros request.
  apply (guard_redirect_is_let_through request "/login" [("redirect", "/dashboard/lands")]).
  reflexivity.
Defined.

(** X17.  The guard reads the names of the cookies and never their values:
    two requests for the same path whose cookies have the same names get the
    same answer. *)
Theorem guard_reads_cookie_names_only (request request' : NextRequest) :
  pathname request = pathname request' ->
  map cookieName (cookies request) = map cookieName (cookies request') ->
  middleware request = middleware request'.
Proof.
  intros Hpath Hnames. unfold middleware.
  rewrite !isAuthenticated_names, Hpath, Hnames. reflexivity.
Qed.

Lemma guard_reads_cookie_names_only_witness :
  middleware {| pathname := "/dashboard";
                cookies := [{| cookieName := "agrishield-session"; cookieValue := "eyJhbGciOi" |}] |}
  = middleware {| pathname := "/dashboard";
                  cookies := [{| cookieName := "agrishield-session"; cookieValue := "" |}] |}.
Proof.
  apply guard_reads_cookie_names_only; reflexivity.
Defined.

(** X18.  A request for a protected path (a path that is neither ignored
    nor public) is let through when one of its cookies has a name that
    contains [auth-token] or [sb-] or is [agrishield-session], and is
    redirected to [/login], with the path in the search parameter
    [redirect], when none has. *)
Theorem guard_protects (request : NextRequest) :
  isIgnored (pathname request) = false ->
  isPublic (pathname request) = false ->
  (Exists (fun cookie => authName (cookieName cookie) = true) (cookies request) ->
   middleware request = ResNext) /\
  (Forall (fun cookie => authName (cookieName cookie) = false) (cookies request) ->
   middleware request = ResRedirect "/login" [("redirect", pathname request)]).
Proof.
  intros Hi Hp. unfold middleware. rewrite Hi, Hp, isAuthenticated_names. simpl.
  split; intros H.
  - assert (existsb authName (map cookieName (cookies request)) = true) as ->; [|reflexivity].
    induction H as [c cs Hc | c cs _ IH]; simpl.
    + rewrite Hc. reflexivity.
    + rewrite IH. apply orb_true_r.
  - assert (existsb authName (map cookieName (cookies request)) = false) as ->; [|reflexivity].
    induction H as [|c cs Hc _ IH]; simpl; [reflexivity|].
    rewrite Hc, IH. reflexivity.
Qed.

Lemma guard_protects_witness :
  let request := {| pathname := "/dashboard/lands"; cookies := [] |} in
  (Exists (fun cookie => authName (cookieName cookie) = true) (cookies request) ->
   middleware request = ResNext) /\
  (Forall (fun cookie => authName (cookieName cookie) = false) (cookies request) ->
   middleware request = ResRedirect "/login" [("redirect", "/dashboard/lands")]).
Proof.
  intros request. apply (guard_protects request); reflexivity.
Defined.

(** X19.  The ignored routes are matched as prefixes of the path, not as
    path segments: every path that starts with [/_next], [/favicon.ico] or
    [/api] is let through without any cookie, also a path such as
    [/apiary]. *)
Theorem guard_ignores_by_prefix (route suffix : string) (cs : list Cookie) :
  In route IGNORED_ROUTES ->
  middleware {| pathname := route +:+ suffix; cookies := cs |} = ResNext.
Proof.
  intros Hroute. unfold middleware.
  assert (isIgnored (route +:+ suffix) = true) as Hi.
  { unfold isIgnored. apply existsb_exists. exists route. split; [exact Hroute|].
    apply prefix_append. }
  simpl pathname. rewrite Hi. reflexivity.
Qed.

Lemma guard_ignores_by_prefix_witness :
  middleware {| pathname := "/api" +:+ "ary"; cookies := [] |} = ResNext.
Proof.
  apply (guard_ignores_by_prefix "/api" "ary" []). simpl. auto.
Defined.

(** * Properties of the auth context *)

Lemma rethrow_throws {A} fallback e w :
  exists m, @AuthContext.rethrow A fallback e w = (Throw (JError m), w).
Proof.
  unfold AuthContext.rethrow. unfold bind at 1.
  destruct (getProp "message" e w) as [[m|x] w0] eqn:Hm;
    unfold getProp in Hm; destruct e; try discriminate Hm; injection Hm as <- <-;
    unfold bind, Js.newError;
    try match goal with
        | |- context [Js.toString ?v] => destruct (Js.toString v)
        end; simpl; eexists; reflexivity.
Qed.

Lemma isString_true s v : AuthContext.isString s v = true <-> v = JStr s.
Proof.
  destruct v; simpl; try (split; [discriminate | intros [=]]).
  rewrite String.eqb_eq. split; [intros -> | intros [= ->]]; reflexivity.
Qed.

Lemma writeRole_outcome env userId newRole w :
  exists res w',
    AuthContext.writeRole env userId newRole w = (res, w') /\
    match res with
    | Ret _ => requestCache w' = invalidate "users" (requestCache w)
    | Throw e => e <> JUndefined /\ requestCache w' = requestCache w
    end.
Proof.
  unfold AuthContext.writeRole, bind.
  destruct (update_cache env "users" (JObj [("role", JStr newRole)]) [("id", JStr userId)]
              noOptions w) as (r & w' & -> & Hcache).
  destruct (decide (status r = StSuccess)) as [Hs|Hs].
  - rewrite (bool_decide_eq_true_2 _ Hs). simpl. eexists _, _. split; [reflexivity|].
    exact Hcache.
  - rewrite (bool_decide_eq_false_2 _ Hs). simpl. eexists _, _. split; [reflexivity|].
    split; [|exact Hcache].
    unfold orElse. destruct (truthy (error r)) eqn:Ht; [|discriminate].
    intros He. rewrite He in Ht. discriminate Ht.
Qed.

(** X20.  [updateUserRole] sends nothing for a user who may not assign the
    role: when the role of the current user is not admin, and is not
    agri_officer or the new role is not farmer, the call throws the Error
    "You do not have permission to change user roles" and leaves the world
    as it was: no request is sent, no rate window is written and the request
    cache keeps its entries. *)
Theorem updateUserRole_denied (env : Env) (userRole : JsVal) (userId newRole : string)
    (w : World) :
  AuthContext.optProp "role" userRole <> JStr "admin" ->
  (AuthContext.optProp "role" userRole <> JStr "agri_officer" \/ newRole <> "farmer") ->
  AuthContext.updateUserRole env userRole userId newRole w =
    (Throw (JError "You do not have permission to change user roles"), w).
Proof.
  intros Hadmin Hofficer. unfold AuthContext.updateUserRole, tryCatch.
  destruct (AuthContext.isString "admin" _) eqn:Ha.
  { apply isString_true in Ha. contradiction. }
  destruct (AuthContext.isString "agri_officer" _ && String.eqb newRole "farmer") eqn:Ho.
  { apply andb_prop in Ho as (Ho & Hn). apply isString_true in Ho.
    apply String.eqb_eq in Hn. destruct Hofficer; contradiction. }
  reflexivity.
Qed.

(** An agri_officer who tries to make a user an admin. *)
Lemma updateUserRole_denied_witness :
  AuthContext.updateUserRole failingEnv (JObj [("role", JStr "agri_officer")]) "u1" "admin"
    (initialWorld 0) =
    (Throw (JError "You do not have permission to change user roles"), initialWorld 0).
Proof.
  apply updateUserRole_denied.
  - discriminate.
  - right. discriminate.
Defined.

(** X21.  [updateUserRole] returns normally only for a permitted change whose
    update ended with the status success, and then no cached read of the
    table [users] is left; in every other case it throws an instance of
    Error and the request cache is as it was. *)
Theorem updateUserRole_outcome (env : Env) (userRole : JsVal) (userId newRole : string)
    (w : World) :
  exists res w',
    AuthContext.updateUserRole env userRole userId newRole w = (res, w') /\
    match res with
    | Ret _ =>
        (AuthContext.optProp "role" userRole = JStr "admin" \/
         AuthContext.optProp "role" userRole = JStr "agri_officer" /\ newRole = "farmer") /\
        requestCache w' = invalidate "users" (requestCache w) /\
        requestCache w' !! generateCacheKey "users" "select" (Some [("id", JStr userId)]) = None
    | Throw e => (exists m, e = JError m) /\ requestCache w' = requestCache w
    end.
Proof.
  assert (forall w', requestCache w' = invalidate "users" (requestCache w) ->
            requestCache w' !! generateCacheKey "users" "select" (Some [("id", JStr userId)])
            = None) as Hgone.
  { intros w' ->. rewrite invalidate_lookup, cacheKey_prefix. reflexivity. }
  assert (forall permitted : Prop, permitted ->
            exists res w',
              tryCatch (AuthContext.writeRole env userId newRole)
                       (AuthContext.rethrow "Failed to update user role") w = (res, w') /\
              match res with
              | Ret _ =>
                  permitted /\
                  requestCache w' = invalidate "users" (requestCache w) /\
                  requestCache w' !!
                    generateCacheKey "users" "select" (Some [("id", JStr userId)]) = None
              | Throw e => (exists m, e = JError m) /\ requestCache w' = requestCache w
              end) as Hwrite.
  { intros permitted Hp. unfold tryCatch.
    destruct (writeRole_outcome env userId newRole w) as (res & w' & -> & Hres).
    destruct res as [[]|e].
    - eexists _, _. split; [reflexivity|].
      split; [exact Hp|]. split; [exact Hres | apply Hgone, Hres].
    - destruct (@rethrow_throws unit "Failed to update user role" e w') as (m & ->).
      eexists _, _. split; [reflexivity|]. destruct Hres as (_ & Hc). split; [eauto | exact Hc]. }
  unfold AuthContext.updateUserRole.
  destruct (AuthContext.isString "admin" _) eqn:Ha.
  { apply isString_true in Ha. apply Hwrite. left. exact Ha. }
  destruct (AuthContext.isString "agri_officer" _ && String.eqb newRole "farmer") eqn:Ho.
  { apply andb_prop in Ho as (Ho & Hn). apply isString_true in Ho.
    apply String.eqb_eq in Hn. apply Hwrite. right. auto. }
  unfold tryCatch. simpl. eexists _, _. split; [reflexivity|]. split; [eauto | reflexivity].
Qed.

(** X22.  [signOut] of the auth context returns normally only when the
    sign-out of the gateway ended with the status success: then the session
    and the user role are set to null and the request cache is empty.  In
    every other case it throws an instance of Error and the request cache is
    as it was. *)
Theorem context_signOut_outcome (env : Env) (w : World) :
  exists res w',
    AuthContext.signOut env w = (res, w') /\
    match res with
    | Ret st =>
        AuthContext.session st = JNull /\ AuthContext.userRole st = JNull /\
        requestCache w' = ∅
    | Throw e => (exists m, e = JError m) /\ requestCache w' = requestCache w
    end.
Proof.
  unfold AuthContext.signOut, tryCatch, bind.
  destruct (signOut_shape env None noOptions w) as (r & w' & -> & Hshape).
  assert (status r = StSuccess /\ requestCache w' = ∅ \/
          status r <> StSuccess /\ requestCache w' = requestCache w) as [(Hs & Hc) | (Hs & Hc)].
  { destruct Hshape as [(Hs & _ & Hc) | [(Hs & _ & Hc) | (Hs & _ & Hc)]];
      [left | right | right]; (split; [congruence | exact Hc]). }
  - rewrite (bool_decide_eq_true_2 _ Hs). simpl. eexists _, _. split; [reflexivity|].
    simpl. auto.
  - rewrite bool_decide_eq_false_2 by exact Hs. simpl.
    destruct (@rethrow_throws AuthContext.State "Failed to sign out"
                (orElse (error r) (JError "Failed to sign out")) w') as (m & ->).
    eexists _, _. split; [reflexivity|]. split; [eauto | exact Hc].
Qed.

(** With a backend that cannot be reached the user is not signed out. *)
Example context_signOut_offline :
  fst (AuthContext.signOut offlineEnv (cachedWorld 0)) = Throw (JError "Failed to fetch").
Proof. vm_compute. reflexivity. Qed.

(** ** The capabilities of a fetched role *)

Lemma lookupProp_assign_same key v props :
  lookupProp key (AuthContext.assign key v props) = v.
Proof.
  induction props as [|[k x] rest IH]; simpl.
  - rewrite String.eqb_refl. reflexivity.
  - destruct (String.eqb k key) eqn:Hk; simpl; rewrite Hk; [reflexivity | exact IH].
Qed.

Lemma lookupProp_assign_other key key' v props :
  key <> key' ->
  lookupProp key (AuthContext.assign key' v props) = lookupProp key props.
Proof.
  intros Hne. induction props as [|[k x] rest IH]; simpl.
  - apply String.eqb_neq in Hne. rewrite String.eqb_sym, Hne. reflexivity.
  - destruct (String.eqb k key') eqn:Hk; simpl.
    + apply String.eqb_eq in Hk. subst k.
      assert (String.eqb key' key = false) as -> by (apply String.eqb_neq; congruence).
      reflexivity.
    + destruct (String.eqb k key); [reflexivity | exact IH].
Qed.

(** X23.  [fetchUserRole] never throws, and the capabilities of the user
    role that it sets follow from the role of the fetched row alone, with
    viewer for a row without a role: [can_manage_farmers] is true for the
    roles admin and agri_officer, [can_manage_officers] for admin, whatever
    the row itself says about them.  So a user role that can manage officers
    can manage farmers. *)
Theorem fetched_role_capabilities (env : Env) (userId : string) (w : World) :
  exists res w',
    AuthContext.fetchUserRole env userId w = (Ret res, w') /\
    forall u, res = Some u ->
      exists r props farmers officers,
        middlewareSelect env "users" (Some "*") (Some [("id", JStr userId)]) noOptions w
          = (Ret r, w') /\
        status r = StSuccess /\
        u = JObj props /\
        lookupProp "can_manage_farmers" props = JBool farmers /\
        lookupProp "can_manage_officers" props = JBool officers /\
        let role := orElse (AuthContext.optProp "role" (AuthContext.first (data r)))
                           (JStr "viewer") in
        (farmers = true <-> role = JStr "admin" \/ role = JStr "agri_officer") /\
        (officers = true <-> role = JStr "admin") /\
        (officers = true -> farmers = true).
Proof.
  unfold AuthContext.fetchUserRole, tryCatch, bind.
  destruct (run_anatomy env (OpSelect "users" (Some "*") (Some [("id", JStr userId)]))
              noOptions w) as (r & w' & Hrun & _).
  simpl run in Hrun. rewrite Hrun.
  destruct (decide (status r = StSuccess)) as [Hs|Hs].
  - rewrite (bool_decide_eq_true_2 _ Hs). simpl negb. rewrite orb_false_l.
    destruct (negb (truthy (data r)) || AuthContext.lengthIsZero (data r)).
    + eexists _, _. split; [reflexivity|]. discriminate.
    + eexists _, _. split; [reflexivity|]. intros u [= <-].
      exists r. eexists _, _, _. split; [reflexivity|]. split; [exact Hs|].
      split; [reflexivity|].
      split; [rewrite lookupProp_assign_other by discriminate;
              apply lookupProp_assign_same|].
      split; [apply lookupProp_assign_same|].
      cbv zeta. rewrite orb_true_iff, !isString_true. tauto.
  - rewrite (bool_decide_eq_false_2 _ Hs). simpl.
    eexists _, _. split; [reflexivity|]. discriminate.
Qed.

(** A row that claims both capabilities for a viewer. *)
Example fetched_viewer_cannot_manage :
  let row := JObj [("id", JStr "u1"); ("role", JStr "viewer");
                   ("can_manage_farmers", JBool true); ("can_manage_officers", JBool true)] in
  fst (AuthContext.fetchUserRole (constantEnv (okBody (JArr [row]))) "u1" (initialWorld 0)) =
  Ret (Some (JObj [("id", JStr "u1"); ("role", JStr "viewer");
                   ("can_manage_farmers", JBool false);
                   ("can_manage_officers", JBool false)])).
Proof. vm_compute. reflexivity. Qed.
